(** * gpys: filename grammars, archive scan and cluster test

    A shallow embedding of [src/gpys/__init__.py]:

    - [RinexArchive.parse_crinex_filename], [RinexArchive.parse_rinex_filename]
      (two calls of [re.findall] on fixed patterns),
    - [RinexArchive.scan_archive_struct] (recursive [os.scandir] walk),
    - [JobServer.__init__], [connect], [cluster_test], [__del__]
      (a dispy cluster driven through five calls).
    - [ReadOptions.__init__], as far as the node list and the check of the
      cluster go,
    - [Connection] (the statements built with [psycopg2.sql], their
      execution through [_execute_wrapper], the constructor) and
      [RinexArchive.__init__], which reads its tables through it.

    Python values are modelled as follows.  A [str] is a list of Unicode code
    points.  An exception is a value of [exn]; [sys.exit(1)] raises
    [SystemExit 1], which the clauses [except Exception] do not catch.  A
    function that can raise returns an [outcome]. *)

From Stdlib Require Import List NArith ZArith Bool Lia String Ascii Permutation.
Import ListNotations.

#[local] Set Warnings "-register-all".

(** ** Strings *)

(** A Python [str]: the sequence of its code points. *)
Definition str := list N.

(** An ASCII literal of the source, as a [str]. *)
Definition lit (s : string) : str := List.map N_of_ascii (list_ascii_of_string s).

(** ** Exceptions and outcomes *)

Inductive exn : Type :=
| SystemExit (code : Z)                 (* raised by sys.exit(code) *)
| ConnectionError (msg : str)           (* ConnectionError and its subclasses *)
| OtherException (cls : string) (msg : str)   (* any other subclass of Exception *)
| BaseExc (cls : string).               (* a BaseException outside Exception *)

(** [except Exception] catches exactly these. *)
Definition is_Exception (e : exn) : bool :=
  match e with
  | ConnectionError _ | OtherException _ _ => true
  | SystemExit _ | BaseExc _ => false
  end.

Inductive outcome (A : Type) : Type :=
| Ret (a : A)
| Raise (e : exn).
Arguments Ret {A} a.
Arguments Raise {A} e.

(** ** The fragment of [re] the two patterns use *)

(** A class of single characters. *)
Inductive cls : Type :=
| W                 (* \w *)
| D                 (* \d *)
| Ch (c : N).       (* a literal character: \. , [d] , [o] , [Z] *)

(** One item of a pattern: all quantifiers of the source are fixed counts. *)
Inductive item : Type :=
| Group (c : cls) (n : nat)    (* ( c{n} ), capturing *)
| Plain (c : cls)              (* one character, not captured *)
| Eos.                         (* $ *)

Definition pattern := list item.

Definition dot : N := 46.
Definition newline : N := 10.

(** r'(\w{4})(\d{3})(\w{1})\.(\d{2})([d])\.[Z]$' *)
Definition crinex_pattern : pattern :=
  [Group W 4; Group D 3; Group W 1; Plain (Ch dot); Group D 2;
   Group (Ch 100) 1; Plain (Ch dot); Plain (Ch 90); Eos].

(** r'(\w{4})(\d{3})(\w{1})\.(\d{2})([o])$' *)
Definition rinex_pattern : pattern :=
  [Group W 4; Group D 3; Group W 1; Plain (Ch dot); Group D 2;
   Group (Ch 111) 1; Eos].

(** What a function of the source returns to its caller. *)
Inductive value : Type :=
| VTuple (t : list str)      (* a tuple of strings *)
| VNone                      (* None *)
| VEmptyList.                (* [] *)

(** Truth value of a returned object, as [if] and [elif] test it. *)
Definition truthy (v : value) : bool :=
  match v with
  | VTuple t => negb (Nat.eqb (List.length t) 0)
  | VNone | VEmptyList => false
  end.

(** The argument a caller passes as [filename]. *)
Inductive pyarg : Type :=
| PyStr (s : str)
| PyNotStr (cls : string).    (* any other object: re.findall raises a TypeError *)

Section Gpys.

(** The interpreter's Unicode database, for code points from 128 on:
    [uni_alnum c] when [c] is alphanumeric, [uni_decimal c] when [c] is a
    decimal digit.  [re] consults it for [\w] and [\d] in a str pattern. *)
Variable uni_alnum : N -> bool.
Variable uni_decimal : N -> bool.

Definition is_digit (c : N) : bool :=
  if (c <? 128)%N then ((48 <=? c) && (c <=? 57))%N else uni_decimal c.

Definition is_word (c : N) : bool :=
  if (c <? 128)%N
  then (((48 <=? c) && (c <=? 57)) || ((65 <=? c) && (c <=? 90))
        || ((97 <=? c) && (c <=? 122)) || (c =? 95))%N
  else uni_alnum c.

Definition in_cls (k : cls) (c : N) : bool :=
  match k with
  | W => is_word c
  | D => is_digit c
  | Ch x => (c =? x)%N
  end.

(** [k{n}] at the head of [s]: the [n] characters taken and the rest. *)
Fixpoint take_cls (k : cls) (n : nat) (s : str) : option (str * str) :=
  match n with
  | O => Some ([], s)
  | S n' =>
      match s with
      | c :: r =>
          if in_cls k c then
            match take_cls k n' r with
            | Some (g, r') => Some (c :: g, r')
            | None => None
            end
          else None
      | [] => None
      end
  end.

(** [$] without MULTILINE: at the end, or just before a final newline. *)
Definition at_end (s : str) : bool :=
  match s with
  | [] => true
  | [c] => (c =? newline)%N
  | _ => false
  end.

(** Match the pattern at the head of [s]: the groups, and what follows. *)
Fixpoint match_here (p : pattern) (s : str) : option (list str * str) :=
  match p with
  | [] => Some ([], s)
  | Group k n :: p' =>
      match take_cls k n s with
      | Some (g, r) =>
          match match_here p' r with
          | Some (gs, r') => Some (g :: gs, r')
          | None => None
          end
      | None => None
      end
  | Plain k :: p' =>
      match s with
      | c :: r => if in_cls k c then match_here p' r else None
      | [] => None
      end
  | Eos :: p' => if at_end s then match_here p' s else None
  end.

(** [re.findall]'s scan, left to right without overlap: [skip] characters of a
    match found earlier are still to be passed over. *)
Fixpoint findall_from (p : pattern) (skip : nat) (s : str) : list (list str) :=
  match skip with
  | S k =>
      match s with
      | [] => []
      | _ :: r => findall_from p k r
      end
  | O =>
      match match_here p s with
      | Some (gs, rest) =>
          gs :: match s with
                | [] => []
                | _ :: r => findall_from p (List.length s - List.length rest - 1) r
                end
      | None =>
          match s with
          | [] => []
          | _ :: r => findall_from p 0 r
          end
      end
  end.

(** [re.findall(pattern, filename)] with a str pattern: a TypeError unless
    [filename] is a str. *)
Definition re_findall (p : pattern) (filename : pyarg) : outcome (list (list str)) :=
  match filename with
  | PyStr s => Ret (findall_from p 0 s)
  | PyNotStr _ =>
      Raise (OtherException "TypeError" (lit "expected string or bytes-like object"))
  end.

(** [RinexArchive.parse_crinex_filename]: the whole body is inside
    [try ... except Exception: print(...); sys.exit(1)]. *)
Definition parse_crinex_filename (filename : pyarg) : outcome value :=
  match re_findall crinex_pattern filename with
  | Ret sfile =>
      match sfile with
      | t :: _ => Ret (VTuple t)
      | [] => Ret VNone
      end
  | Raise e =>
      if is_Exception e then Raise (SystemExit 1) else Raise e
  end.

(** [RinexArchive.parse_rinex_filename]: no handler. *)
Definition parse_rinex_filename (filename : pyarg) : outcome value :=
  match re_findall rinex_pattern filename with
  | Ret sfile =>
      match sfile with
      | t :: _ => Ret (VTuple t)
      | [] => Ret VEmptyList
      end
  | Raise e => Raise e
  end.

(** ** The archive on disk *)

(** What [os.scandir] yields: the entry's name and [os.path.join(dir, name)]. *)
Record DirEntry : Type := { name : str; path : str }.

(** What a path denotes.  [Locked] is a directory ([os.path.isdir] holds) that
    [os.scandir] cannot open; [cause] is the text of the OSError. *)
Inductive fsnode : Type :=
| File (n : str)
| Dir (n : str) (children : list fsnode)
| Locked (n : str) (cause : str).

Definition node_name (x : fsnode) : str :=
  match x with
  | File n | Dir n _ | Locked n _ => n
  end.

(** [os.path.isdir(entry.path)] *)
Definition isdir (x : fsnode) : bool :=
  match x with
  | File _ => false
  | Dir _ _ | Locked _ _ => true
  end.

Definition slash : N := 47.

(** [os.path.join(a, b)] of posixpath. *)
Definition startswith_sep (b : str) : bool :=
  match b with
  | c :: _ => (c =? slash)%N
  | [] => false
  end.

Definition endswith_sep (a : str) : bool := startswith_sep (rev a).

Definition path_join (a b : str) : str :=
  if startswith_sep b then b
  else if (Nat.eqb (List.length a) 0 || endswith_sep a)%bool then a ++ b
  else a ++ slash :: b.

(** The clause [except Exception as e: print(...); sys.exit(1)] around a body
    (what is printed is not modelled). *)
Definition exit_on_exception {A : Type} (body : outcome A) : outcome A :=
  match body with
  | Ret a => Ret a
  | Raise e => if is_Exception e then Raise (SystemExit 1) else Raise e
  end.

(** [RinexArchive.scan_archive_struct(rootdir)], where [here] is what
    [rootdir] denotes.  The inner [loop] is the [for entry in it] with the
    accumulator [file]. *)
Fixpoint scan_archive_struct (rootdir : str) (here : fsnode) : outcome (list DirEntry) :=
  exit_on_exception
    match here with
    | File _ => Raise (OtherException "NotADirectoryError" rootdir)
    | Locked _ cause => Raise (OtherException "OSError" cause)
    | Dir _ children =>
        (fix loop (it : list fsnode) (file : list DirEntry) : outcome (list DirEntry) :=
           match it with
           | [] => Ret file
           | x :: it' =>
               let entry := {| name := node_name x; path := path_join rootdir (node_name x) |} in
               if isdir x then
                 match scan_archive_struct (path entry) x with
                 | Ret found => loop it' (file ++ found)
                 | Raise e => Raise e
                 end
               else
                 match parse_crinex_filename (PyStr (name entry)) with
                 | Ret v => if truthy v then loop it' (file ++ [entry]) else loop it' file
                 | Raise e => Raise e
                 end
           end) children []
    end.

(** The [for] loop of [scan_archive_struct], named. *)
Fixpoint scan_loop (rootdir : str) (it : list fsnode) (file : list DirEntry)
  : outcome (list DirEntry) :=
  match it with
  | [] => Ret file
  | x :: it' =>
      let entry := {| name := node_name x; path := path_join rootdir (node_name x) |} in
      if isdir x then
        match scan_archive_struct (path entry) x with
        | Ret found => scan_loop rootdir it' (file ++ found)
        | Raise e => Raise e
        end
      else
        match parse_crinex_filename (PyStr (name entry)) with
        | Ret v => if truthy v then scan_loop rootdir it' (file ++ [entry]) else scan_loop rootdir it' file
        | Raise e => Raise e
        end
  end.

(** A directory that cannot be listed lies at or below [x]. *)
Fixpoint unreadable (x : fsnode) : bool :=
  match x with
  | File _ => false
  | Locked _ _ => true
  | Dir _ children => existsb unreadable children
  end.

(** Every entry that is not a directory, at any depth below the directory
    [x] found at [rootdir], in the order of the listings. *)
Fixpoint files_under (rootdir : str) (x : fsnode) : list DirEntry :=
  match x with
  | Dir _ children =>
      flat_map (fun c =>
                  let p := path_join rootdir (node_name c) in
                  if isdir c then files_under p c
                  else [{| name := node_name c; path := p |}])
               children
  | File _ | Locked _ _ => []
  end.

(** [findall] finds the compressed pattern in [s]. *)
Definition matches_compressed (s : str) : bool :=
  match hd_error (findall_from crinex_pattern 0 s) with
  | Some _ => true
  | None => false
  end.

(** ** The cluster *)

(** [self.options], as far as [JobServer] reads it.  [head_node] is [None]
    when the key is missing (a KeyError), [ping_interval] is [None] when
    [int(self.options['ping_interval'])] raises. *)
Record Options : Type := {
  head_node : option str;
  ping_interval : option Z;
  node_list : list str
}.

(** [DispyJob.status], reduced to what a verdict could depend on. *)
Inductive job_status : Type :=
| Finished        (* the job ran and returned *)
| Terminated      (* the job raised *)
| Cancelled
| Abandoned.

(** What the log and the backend see of a run, in order. *)
Inductive message : Type :=
| Text (s : str)
| Waiting (seconds : Z)      (* 'Waiting {} seconds.' *)
| JobsTook                   (* 'Jobs took {:.4} seconds.', the figure left out *)
| Uncaught (e : exn)         (* 'Uncaught Exception: {} {}'.format(type(e), e) *)
| StrOf (e : exn).           (* logger.error(e) *)

Inductive event : Type :=
| Debug (m : message)
| Error (m : message)
| NewCluster (ip_addr : str) (ping : Z)
| Discover (node : str)
| Submit (id node : str)
| Wait
| Shutdown
| Sleep (ms : Z).

(** The distribution backend: the world it lives in, its cluster and job
    handles, and the calls [JobServer] makes.  Every call can change the
    world and can raise.  [sleep] is what the passing of time does to the
    world; [job_result] is ['{}'.format(job.result)]; [job_state] is how the
    job ended, which [JobServer] never reads. *)
Variables World Cluster Job : Type.

Record Backend : Type := {
  JobCluster : str -> Z -> World -> outcome Cluster * World;
  discover_nodes : Cluster -> str -> World -> outcome unit * World;
  submit_job_id_node : Cluster -> str -> str -> World -> outcome (option Job) * World;
  wait : Cluster -> World -> outcome bool * World;
  shutdown : Cluster -> World -> outcome unit * World;
  job_result : Job -> World -> str;
  job_state : Job -> World -> job_status;
  sleep : Z -> World -> World
}.

Variable dispy : Backend.
Variable options : Options.

(** A [JobServer] object in its world. *)
Record state : Type := {
  cluster : option Cluster;     (* self.cluster: None or a dispy.JobCluster *)
  tested : bool;                (* self.tested *)
  world : World;
  log : list event
}.

(** A computation over [state]: [None] when the fuel of a loop ran out before
    the computation ended. *)
Definition M (A : Type) : Type := state -> option (outcome A * state).

Definition ret {A : Type} (a : A) : M A := fun s => Some (Ret a, s).

Definition raise {A : Type} (e : exn) : M A := fun s => Some (Raise e, s).

Definition bind {A B : Type} (m : M A) (f : A -> M B) : M B :=
  fun s =>
    match m s with
    | Some (Ret a, s') => f a s'
    | Some (Raise e, s') => Some (Raise e, s')
    | None => None
    end.

Notation "x <- m ;; k" := (bind m (fun x => k))
  (at level 61, m at next level, right associativity).
Notation "m ;; k" := (bind m (fun _ => k))
  (at level 61, right associativity).

(** [try: m  except ...: h]: [h e] is the clause that catches [e], if any. *)
Definition try_except {A : Type} (m : M A) (h : exn -> option (M A)) : M A :=
  fun s =>
    match m s with
    | Some (Raise e, s') =>
        match h e with
        | Some k => k s'
        | None => Some (Raise e, s')
        end
    | r => r
    end.

(** [try: m  finally: f]: an exception of [f] replaces the outcome of [m]. *)
Definition try_finally {A : Type} (m : M A) (f : M unit) : M A :=
  fun s =>
    match m s with
    | Some (r, s') =>
        match f s' with
        | Some (Ret _, s'') => Some (r, s'')
        | Some (Raise e, s'') => Some (Raise e, s'')
        | None => None
        end
    | None => None
    end.

Definition emit (ev : event) : M unit :=
  fun s => Some (Ret tt, {| cluster := cluster s; tested := tested s;
                            world := world s; log := log s ++ [ev] |}).

Definition debug (m : message) : M unit := emit (Debug m).
Definition error (m : message) : M unit := emit (Error m).

(** A call of the backend: logged, then run on the world. *)
Definition call {A : Type} (ev : event) (f : World -> outcome A * World) : M A :=
  fun s =>
    let (r, w) := f (world s) in
    Some (r, {| cluster := cluster s; tested := tested s;
                world := w; log := log s ++ [ev] |}).

Definition set_cluster (c : option Cluster) : M unit :=
  fun s => Some (Ret tt, {| cluster := c; tested := tested s;
                            world := world s; log := log s |}).

Definition set_tested (b : bool) : M unit :=
  fun s => Some (Ret tt, {| cluster := cluster s; tested := b;
                            world := world s; log := log s |}).

Definition get_cluster : M (option Cluster) := fun s => Some (Ret (cluster s), s).
Definition get_tested : M bool := fun s => Some (Ret (tested s), s).

(** [self.cluster.<method>]: an AttributeError when [self.cluster] is None. *)
Definition the_cluster : M Cluster :=
  c <- get_cluster ;;
  match c with
  | Some h => ret h
  | None => raise (OtherException "AttributeError" (lit "'NoneType' object has no attribute"))
  end.

(** [self.options['head_node']] and [int(self.options['ping_interval'])]. *)
Definition get_head_node : M str :=
  match head_node options with
  | Some h => ret h
  | None => raise (OtherException "KeyError" (lit "'head_node'"))
  end.

Definition int_ping_interval : M Z :=
  match ping_interval options with
  | Some n => ret n
  | None => raise (OtherException "ValueError" (lit "ping_interval"))
  end.

(** [time.sleep(ms / 1000)]: a ValueError on a negative length. *)
Definition time_sleep (ms : Z) : M unit :=
  if (ms <? 0)%Z
  then raise (OtherException "ValueError" (lit "sleep length must be non-negative"))
  else call (Sleep ms) (fun w => (Ret tt, sleep dispy ms w)).

Fixpoint for_each {A : Type} (l : list A) (body : A -> M unit) : M unit :=
  match l with
  | [] => ret tt
  | x :: l' => body x ;; for_each l' body
  end.

(** [sys.exit(1)] *)
Definition sys_exit {A : Type} : M A := raise (SystemExit 1).

(** The two clauses that close [connect] and [cluster_test]:
    [except ConnectionError as e: logger.error(e); sys.exit(1)] and
    [except Exception as e: logger.error('Uncaught Exception: ...'); sys.exit(1)]. *)
Definition exit_clauses {A : Type} (e : exn) : option (M A) :=
  match e with
  | ConnectionError _ => Some (error (StrOf e) ;; sys_exit)
  | OtherException _ _ => Some (error (Uncaught e) ;; sys_exit)
  | SystemExit _ | BaseExc _ => None
  end.

(** [JobServer.connect(compute)].  The function [compute] the jobs run is
    the backend's business and is not modelled. *)
Definition connect : M unit :=
  try_except
    (debug (Text (lit "Testing out the cluster.")) ;;
     ip <- get_head_node ;;
     ping <- int_ping_interval ;;
     c <- call (NewCluster ip ping) (JobCluster dispy ip ping) ;;
     set_cluster (Some c) ;;
     for_each (node_list options) (fun node =>
       h <- the_cluster ;;
       call (Discover node) (discover_nodes dispy h node) ;;
       n <- int_ping_interval ;;
       debug (Waiting (2 * n)) ;;
       n' <- int_ping_interval ;;
       time_sleep (2000 * n')))
    exit_clauses.

(** The job id ['InitialTest-{}'.format(node)]. *)
Definition job_id (node : str) : str := lit "InitialTest-" ++ node.

(** Lines 503-507: one submission per node, the handles appended to [jobs]. *)
Fixpoint submit_all (nodes : list str) (jobs : list (option Job)) : M (list (option Job)) :=
  match nodes with
  | [] => ret jobs
  | node :: nodes' =>
      debug (Text (lit "Sending job to " ++ node)) ;;
      h <- the_cluster ;;
      job <- call (Submit (job_id node) node) (submit_job_id_node dispy h (job_id node) node) ;;
      submit_all nodes' (jobs ++ [job])
  end.

(** Lines 495-507: the start of the [try] block, up to the end of the
    submission loop. *)
Definition submit_probes : M (list (option Job)) :=
  debug (Text (lit "Testing out the cluster.")) ;;
  connect ;;
  submit_all (node_list options) [].

Definition is_None {A : Type} (o : option A) : bool :=
  match o with
  | None => true
  | Some _ => false
  end.

(** [jobs.index(None)], when [None in jobs]. *)
Fixpoint index_None {A : Type} (jobs : list (option A)) : nat :=
  match jobs with
  | [] => 0
  | None :: _ => 0
  | Some _ :: jobs' => S (index_None jobs')
  end.

Definition submit_error (node : str) : str :=
  lit "Error while submitting job.  The server may not be started on " ++ node ++ lit ".".

(** Lines 508-511. *)
Definition check_handles (jobs : list (option Job)) : M unit :=
  if existsb is_None jobs then
    match nth_error (node_list options) (index_None jobs) with
    | Some node => raise (ConnectionError (submit_error node))
    | None => raise (OtherException "IndexError" (lit "list index out of range"))
    end
  else ret tt.

(** Lines 513-514: [while not self.cluster.wait(): time.sleep(0.1)], at most
    [fuel] polls. *)
Fixpoint wait_loop (fuel : nat) : M unit :=
  match fuel with
  | O => fun _ => None
  | S fuel' =>
      h <- the_cluster ;;
      done <- call Wait (wait dispy h) ;;
      if done then ret tt else time_sleep 100 ;; wait_loop fuel'
  end.

(** Lines 516-522: the reading of the results and the verdict.  The two
    readings of the clock around the wait serve the first message only. *)
Definition report (jobs : list (option Job)) : M unit :=
  debug JobsTook ;;
  for_each jobs (fun j =>
    match j with
    | Some h =>
        fun s => debug (Text (lit "Node worked! " ++ job_result dispy h (world s) ++ lit ".")) s
    | None => raise (OtherException "AttributeError" (lit "'NoneType' object has no attribute 'result'"))
    end) ;;
  for_each (node_list options) (fun node =>
    debug (Text (lit "Sending files to " ++ node ++ lit "."))) ;;
  debug (Text (lit "Started a Dispy job and it worked :D")) ;;
  set_tested true.

(** Lines 529-532: the [finally] block of [cluster_test]. *)
Definition release : M unit :=
  debug (Text (lit "Shutting down cluster.")) ;;
  c <- get_cluster ;;
  match c with
  | Some h => call Shutdown (shutdown dispy h)
  | None => ret tt
  end.

(** Lines 495-522: the [try] block of [cluster_test]. *)
Definition test_body (fuel : nat) : M unit :=
  jobs <- submit_probes ;;
  check_handles jobs ;;
  wait_loop fuel ;;
  report jobs.

(** [JobServer.cluster_test()] *)
Definition cluster_test (fuel : nat) : M unit :=
  try_finally (try_except (test_body fuel) exit_clauses) release.

(** [JobServer.__init__(options)] *)
Definition __init__ (fuel : nat) : M unit :=
  set_cluster None ;;
  set_tested false ;;
  cluster_test fuel ;;
  t <- get_tested ;;
  if t then ret tt
  else raise (ConnectionError (lit "Connection failed in JobServer.__init__")).

(** [JobServer.__del__()] *)
Definition __del__ : M unit :=
  try_except
    (debug (Text (lit "Attempting to shut down the cluster.")) ;;
     c <- get_cluster ;;
     match c with
     | Some h =>
         call Shutdown (shutdown dispy h) ;;
         debug (Text (lit "Cluster successfully shut down."))
     | None => debug (Text (lit "Cluster was not started."))
     end)
    (fun e =>
       if is_Exception e then Some (error (Uncaught e) ;; sys_exit) else None).

(** ** Notions the statements use *)

(** [s] with more events in its log, and with another world. *)
Definition logged (s : state) (evs : list event) : state :=
  {| cluster := cluster s; tested := tested s; world := world s; log := log s ++ evs |}.

Definition in_world (s : state) (w : World) : state :=
  {| cluster := cluster s; tested := tested s; world := w; log := log s |}.

(** The world after [k] polls that found jobs unfinished, each followed by
    its sleep of 0.1 s. *)
Fixpoint after_polls (h : Cluster) (k : nat) (w : World) : World :=
  match k with
  | O => w
  | S k' => after_polls h k' (sleep dispy 100 (snd (wait dispy h w)))
  end.

(** The events of [k] such polls. *)
Fixpoint poll_events (k : nat) : list event :=
  match k with
  | O => []
  | S k' => Wait :: Sleep 100 :: poll_events k'
  end.

(** The lines [report] logs for handles [js] read in world [w]. *)
Definition report_events (js : list Job) (w : World) : list event :=
  Debug JobsTook
  :: List.map (fun j => Debug (Text (lit "Node worked! " ++ job_result dispy j w ++ lit "."))) js
  ++ List.map (fun node => Debug (Text (lit "Sending files to " ++ node ++ lit ".")))
       (node_list options)
  ++ [Debug (Text (lit "Started a Dispy job and it worked :D"))].

(** The number of [shutdown] calls the backend received. *)
Definition is_Shutdown (ev : event) : bool :=
  match ev with
  | Shutdown => true
  | _ => false
  end.

Definition shutdown_calls (l : list event) : nat := List.length (filter is_Shutdown l).

(** The grammars as the specification words them.  First, the four fields a
    filename embeds. *)
Record fields : Type := {
  station : str;      (* 4 word characters *)
  doy : str;          (* 3 digits *)
  session : str;      (* 1 word character *)
  year : str          (* 2 digits *)
}.

(** The fields have the lengths of the grammar; the characters of the
    station code and of the session are word characters and those of the
    day and the year are digits, as [\w] and [\d] of the patterns have it. *)
Definition well_formed (f : fields) : bool :=
  Nat.eqb (List.length (station f)) 4 && forallb is_word (station f)
  && Nat.eqb (List.length (doy f)) 3 && forallb is_digit (doy f)
  && Nat.eqb (List.length (session f)) 1 && forallb is_word (session f)
  && Nat.eqb (List.length (year f)) 2 && forallb is_digit (year f).

(** The common prefix: station, day of year, session, ".", year. *)
Definition stem (f : fields) : str :=
  station f ++ doy f ++ session f ++ lit "." ++ year f.

Definition compressed_name (f : fields) : str := stem f ++ lit "d.Z".
Definition plain_name (f : fields) : str := stem f ++ lit "o".

(** The tuple [re.findall] builds from the five groups. *)
Definition tuple_of (f : fields) (kind : string) : list str :=
  [station f; doy f; session f; year f; lit kind].

(** Anchored at both ends: the whole filename is a name of the grammar. *)
Definition anchored_compressed (s : str) : Prop :=
  exists f, well_formed f = true /\ s = compressed_name f.

Definition anchored_plain (s : str) : Prop :=
  exists f, well_formed f = true /\ s = plain_name f.

(** Anchored at the end only: a name of the grammar closes the filename, but
    for one final newline. *)
Definition ends_with (name_of : fields -> str) (s : str) : Prop :=
  exists pre f suf,
    well_formed f = true /\ s = pre ++ name_of f ++ suf /\ (suf = [] \/ suf = [newline]).

(** The five groups and two literals shared by both patterns. *)
Definition stem_pattern (tail : pattern) : pattern :=
  Group W 4 :: Group D 3 :: Group W 1 :: Plain (Ch dot) :: Group D 2 :: tail.

(** [s[start : start + len]] *)
Definition substring (start len : nat) (s : str) : str := firstn len (skipn start s).

(** The entries the scan keeps. *)
Definition kept (e : DirEntry) : bool := matches_compressed (name e).

(** A computation leaves a component of the state as it found it, however
    it ends. *)
Definition preserves {X A : Type} (proj : state -> X) (m : M A) : Prop :=
  forall s r s', m s = Some (r, s') -> proj s' = proj s.

(** ** Facts about the matcher *)

Lemma take_cls_some k n s g r :
  take_cls k n s = Some (g, r) ->
  s = g ++ r /\ List.length g = n /\ forallb (in_cls k) g = true.
Proof.
  revert s g r. induction n as [|n IH]; intros s g r H; simpl in H.
  - inversion H; subst. auto.
  - destruct s as [|c s']; [discriminate|].
    destruct (in_cls k c) eqn:Hc; [|discriminate].
    destruct (take_cls k n s') as [[g' r']|] eqn:Ht; [|discriminate].
    inversion H; subst. apply IH in Ht as (-> & <- & Hall).
    simpl. rewrite Hc, Hall. auto.
Qed.

Lemma take_cls_app k n g r :
  List.length g = n -> forallb (in_cls k) g = true ->
  take_cls k n (g ++ r) = Some (g, r).
Proof.
  intros <-. induction g as [|c g IH]; simpl; intros H; [reflexivity|].
  apply andb_true_iff in H as [Hc Hg]. rewrite Hc, (IH Hg). reflexivity.
Qed.

Lemma at_end_cases s : at_end s = true <-> s = [] \/ s = [newline].
Proof.
  destruct s as [|c [|d s]]; simpl; split; intros H.
  - auto.
  - reflexivity.
  - apply N.eqb_eq in H. subst. auto.
  - destruct H as [H|H]; [discriminate|]. inversion H. apply N.eqb_refl.
  - discriminate.
  - destruct H; discriminate.
Qed.

Lemma singleton_of_class c g :
  List.length g = 1 -> forallb (in_cls (Ch c)) g = true -> g = [c].
Proof.
  destruct g as [|x [|y g]]; simpl; intros Hl Hc; try discriminate.
  rewrite andb_true_r in Hc. apply N.eqb_eq in Hc. congruence.
Qed.

(** The first tuple of [findall] is the match at the leftmost position that
    has one. *)
Lemma findall_head p s :
  hd_error (findall_from p 0 s) =
  match match_here p s with
  | Some (gs, _) => Some gs
  | None =>
      match s with
      | [] => None
      | _ :: r => hd_error (findall_from p 0 r)
      end
  end.
Proof.
  destruct s as [|c s]; simpl; destruct (match_here p _) as [[gs rest]|]; reflexivity.
Qed.

Lemma findall_head_sound p s gs :
  hd_error (findall_from p 0 s) = Some gs ->
  exists pre suf rest, s = pre ++ suf /\ match_here p suf = Some (gs, rest).
Proof.
  induction s as [|c s IH]; rewrite findall_head.
  - destruct (match_here p []) as [[g r]|] eqn:E; [|discriminate].
    intros H; inversion H; subst. exists [], [], r. auto.
  - destruct (match_here p (c :: s)) as [[g r]|] eqn:E.
    + intros H; inversion H; subst. exists [], (c :: s), r. auto.
    + intros H. destruct (IH H) as (pre & suf & rest & -> & Hm).
      exists (c :: pre), suf, rest. auto.
Qed.

Lemma findall_head_complete p pre suf gs rest :
  match_here p suf = Some (gs, rest) ->
  exists gs', hd_error (findall_from p 0 (pre ++ suf)) = Some gs'.
Proof.
  intros Hm. induction pre as [|c pre IH]; rewrite findall_head; simpl.
  - rewrite Hm. eauto.
  - destruct (match_here p (c :: pre ++ suf)) as [[g r]|]; eauto.
Qed.

Lemma well_formed_iff f :
  well_formed f = true <->
  (List.length (station f) = 4 /\ forallb is_word (station f) = true) /\
  (List.length (doy f) = 3 /\ forallb is_digit (doy f) = true) /\
  (List.length (session f) = 1 /\ forallb is_word (session f) = true) /\
  (List.length (year f) = 2 /\ forallb is_digit (year f) = true).
Proof.
  unfold well_formed. rewrite !andb_true_iff, !Nat.eqb_eq. tauto.
Qed.

Lemma match_stem_some tail s gs rest :
  match_here (stem_pattern tail) s = Some (gs, rest) ->
  exists f gs' r,
    well_formed f = true /\ s = stem f ++ r /\
    gs = station f :: doy f :: session f :: year f :: gs' /\
    match_here tail r = Some (gs', rest).
Proof.
  unfold stem_pattern. cbn [match_here]. intros H.
  destruct (take_cls W 4 s) as [[g1 r1]|] eqn:E1; [|discriminate].
  destruct (take_cls D 3 r1) as [[g2 r2]|] eqn:E2; [|discriminate].
  destruct (take_cls W 1 r2) as [[g3 r3]|] eqn:E3; [|discriminate].
  destruct r3 as [|c r3]; [discriminate|].
  destruct (in_cls (Ch dot) c) eqn:Ec; [|discriminate].
  destruct (take_cls D 2 r3) as [[g4 r4]|] eqn:E4; [|discriminate].
  destruct (match_here tail r4) as [[gs' r']|] eqn:E5; [|discriminate].
  inversion H; subst; clear H.
  apply take_cls_some in E1 as (-> & L1 & C1), E2 as (-> & L2 & C2),
    E3 as (-> & L3 & C3), E4 as (-> & L4 & C4).
  simpl in Ec. apply N.eqb_eq in Ec. subst c.
  exists {| station := g1; doy := g2; session := g3; year := g4 |}, gs', r4.
  repeat split; auto.
  - apply well_formed_iff. simpl. auto.
  - unfold stem. simpl. rewrite <- !app_assoc. reflexivity.
Qed.

Lemma match_stem_app tail f r :
  well_formed f = true ->
  match_here (stem_pattern tail) (stem f ++ r) =
  match match_here tail r with
  | Some (gs', rest) => Some (station f :: doy f :: session f :: year f :: gs', rest)
  | None => None
  end.
Proof.
  intros Hf. apply well_formed_iff in Hf as ((L1 & C1) & (L2 & C2) & (L3 & C3) & (L4 & C4)).
  unfold stem_pattern, stem. cbn [match_here]. rewrite <- !app_assoc.
  rewrite (take_cls_app W _ _ _ L1 C1), (take_cls_app D _ _ _ L2 C2),
    (take_cls_app W _ _ _ L3 C3).
  change (lit "." ++ year f ++ r) with (dot :: year f ++ r).
  cbn [in_cls]. rewrite N.eqb_refl.
  rewrite (take_cls_app D _ _ _ L4 C4).
  destruct (match_here tail r) as [[gs' rest]|]; reflexivity.
Qed.

Lemma match_crinex_some s gs rest :
  match_here crinex_pattern s = Some (gs, rest) ->
  exists f, well_formed f = true /\ s = compressed_name f ++ rest /\
            gs = tuple_of f "d" /\ at_end rest = true.
Proof.
  intros H. apply match_stem_some in H as (f & gs' & r & Hf & -> & -> & Ht).
  cbn [match_here] in Ht.
  destruct (take_cls (Ch 100) 1 r) as [[g r1]|] eqn:E1; [|discriminate].
  destruct r1 as [|c1 r1]; [discriminate|].
  destruct (in_cls (Ch dot) c1) eqn:Ec1; [|discriminate].
  destruct r1 as [|c2 r1]; [discriminate|].
  destruct (in_cls (Ch 90) c2) eqn:Ec2; [|discriminate].
  destruct (at_end r1) eqn:Ee; [|discriminate].
  inversion Ht; subst; clear Ht.
  apply take_cls_some in E1 as (-> & L & C).
  apply singleton_of_class in C; [|exact L]. subst g.
  simpl in Ec1, Ec2. apply N.eqb_eq in Ec1, Ec2. subst.
  exists f. repeat split; auto.
  unfold compressed_name. rewrite <- app_assoc. reflexivity.
Qed.

Lemma match_rinex_some s gs rest :
  match_here rinex_pattern s = Some (gs, rest) ->
  exists f, well_formed f = true /\ s = plain_name f ++ rest /\
            gs = tuple_of f "o" /\ at_end rest = true.
Proof.
  intros H. apply match_stem_some in H as (f & gs' & r & Hf & -> & -> & Ht).
  cbn [match_here] in Ht.
  destruct (take_cls (Ch 111) 1 r) as [[g r1]|] eqn:E1; [|discriminate].
  destruct (at_end r1) eqn:Ee; [|discriminate].
  inversion Ht; subst; clear Ht.
  apply take_cls_some in E1 as (-> & L & C).
  apply singleton_of_class in C; [|exact L]. subst g.
  exists f. repeat split; auto.
  unfold plain_name. rewrite <- app_assoc. reflexivity.
Qed.

Lemma match_crinex_app f suf :
  well_formed f = true -> at_end suf = true ->
  match_here crinex_pattern (compressed_name f ++ suf) = Some (tuple_of f "d", suf).
Proof.
  intros Hf He. unfold compressed_name. rewrite <- app_assoc.
  change crinex_pattern with
    (stem_pattern [Group (Ch 100) 1; Plain (Ch dot); Plain (Ch 90); Eos]).
  rewrite (match_stem_app _ _ _ Hf).
  change (lit "d.Z" ++ suf) with (100%N :: dot :: 90%N :: suf).
  cbn [match_here take_cls in_cls]. rewrite !N.eqb_refl, He. reflexivity.
Qed.

Lemma match_rinex_app f suf :
  well_formed f = true -> at_end suf = true ->
  match_here rinex_pattern (plain_name f ++ suf) = Some (tuple_of f "o", suf).
Proof.
  intros Hf He. unfold plain_name. rewrite <- app_assoc.
  change rinex_pattern with (stem_pattern [Group (Ch 111) 1; Eos]).
  rewrite (match_stem_app _ _ _ Hf).
  change (lit "o" ++ suf) with (111%N :: suf).
  cbn [match_here take_cls in_cls]. rewrite !N.eqb_refl, He. reflexivity.
Qed.

Lemma app_same_length {A : Type} (x x' y y' : list A) :
  x ++ y = x' ++ y' -> List.length x = List.length x' -> x = x' /\ y = y'.
Proof.
  revert x'. induction x as [|a x IH]; intros [|a' x'] H L; try discriminate.
  - auto.
  - simpl in H, L. inversion H; subst.
    destruct (IH x' H2) as [-> ->]; [lia|]. auto.
Qed.

Lemma stem_length f : well_formed f = true -> List.length (stem f) = 11.
Proof.
  intros Hf. apply well_formed_iff in Hf as ((L1 & _) & (L2 & _) & (L3 & _) & (L4 & _)).
  unfold stem. rewrite !length_app, L1, L2, L3, L4. reflexivity.
Qed.

(** A stem determines its fields. *)
Lemma stem_inj f g x y :
  well_formed f = true -> well_formed g = true ->
  stem f ++ x = stem g ++ y -> f = g /\ x = y.
Proof.
  intros Hf Hg H.
  apply app_same_length in H as [H ->];
    [|rewrite (stem_length _ Hf), (stem_length _ Hg); reflexivity].
  split; [|reflexivity].
  apply well_formed_iff in Hf as ((L1 & _) & (L2 & _) & (L3 & _) & (L4 & _)).
  apply well_formed_iff in Hg as ((M1 & _) & (M2 & _) & (M3 & _) & (M4 & _)).
  unfold stem in H.
  apply app_same_length in H as [E1 H]; [|congruence].
  apply app_same_length in H as [E2 H]; [|congruence].
  apply app_same_length in H as [E3 H]; [|congruence].
  apply app_same_length in H as [_ E4]; [|reflexivity].
  destruct f, g; simpl in *; congruence.
Qed.

Lemma app_same_length_r {A : Type} (x x' y y' : list A) :
  x ++ y = x' ++ y' -> List.length y = List.length y' -> x = x' /\ y = y'.
Proof.
  intros H L. apply app_same_length; [exact H|].
  apply (f_equal (@List.length A)) in H. rewrite !length_app in H. lia.
Qed.

(** The name that closes a filename is unique: a match that ends before a
    final newline and one that ends at the very end exclude each other,
    because a name of either grammar does not end in a newline. *)
Lemma closing_name_unique body z pre f suf pre' f' suf' :
  z <> newline ->
  well_formed f = true -> well_formed f' = true ->
  at_end suf = true -> at_end suf' = true ->
  pre ++ (stem f ++ body ++ [z]) ++ suf = pre' ++ (stem f' ++ body ++ [z]) ++ suf' ->
  f = f'.
Proof.
  intros Hz Hf Hf' He He' H.
  apply at_end_cases in He, He'.
  assert (Hsame : pre ++ stem f = pre' ++ stem f' -> f = f').
  { intros E. apply app_same_length_r in E as [_ E].
    - rewrite <- (app_nil_r (stem f)), <- (app_nil_r (stem f')) in E.
      apply stem_inj in E; tauto.
    - rewrite (stem_length _ Hf), (stem_length _ Hf'). reflexivity. }
  destruct He as [-> | ->], He' as [-> | ->].
  - rewrite !app_nil_r, !app_assoc in H. apply app_inj_tail in H as [H _].
    apply app_inv_tail in H. auto.
  - rewrite !app_nil_r, !app_assoc in H. apply app_inj_tail in H as [_ H]. contradiction.
  - rewrite !app_nil_r, !app_assoc in H. apply app_inj_tail in H as [_ H].
    symmetry in H. contradiction.
  - rewrite !app_assoc in H. apply app_inj_tail in H as [H _].
    apply app_inj_tail in H as [H _]. apply app_inv_tail in H. auto.
Qed.

(** [findall] on a filename closed by a compressed name returns that name's
    fields, whatever precedes it. *)
Lemma crinex_closing_name pre f suf :
  well_formed f = true -> at_end suf = true ->
  hd_error (findall_from crinex_pattern 0 (pre ++ compressed_name f ++ suf))
  = Some (tuple_of f "d").
Proof.
  intros Hf He.
  destruct (findall_head_complete crinex_pattern pre _ _ _ (match_crinex_app f suf Hf He))
    as [gs Hh].
  rewrite Hh. f_equal.
  apply findall_head_sound in Hh as (pre' & suf' & rest' & Hs & Hm).
  apply match_crinex_some in Hm as (f' & Hf' & -> & -> & He').
  f_equal. symmetry.
  apply (closing_name_unique [100%N; dot] 90%N pre f suf pre' f' rest'); auto.
  discriminate.
Qed.

Lemma rinex_closing_name pre f suf :
  well_formed f = true -> at_end suf = true ->
  hd_error (findall_from rinex_pattern 0 (pre ++ plain_name f ++ suf))
  = Some (tuple_of f "o").
Proof.
  intros Hf He.
  destruct (findall_head_complete rinex_pattern pre _ _ _ (match_rinex_app f suf Hf He))
    as [gs Hh].
  rewrite Hh. f_equal.
  apply findall_head_sound in Hh as (pre' & suf' & rest' & Hs & Hm).
  apply match_rinex_some in Hm as (f' & Hf' & -> & -> & He').
  f_equal. symmetry.
  apply (closing_name_unique [] 111%N pre f suf pre' f' rest'); auto.
  discriminate.
Qed.

(** What the two functions return, read off the first tuple of [findall]. *)
Lemma parse_crinex_str s :
  parse_crinex_filename (PyStr s) =
  match hd_error (findall_from crinex_pattern 0 s) with
  | Some t => Ret (VTuple t)
  | None => Ret VNone
  end.
Proof.
  unfold parse_crinex_filename, re_findall.
  destruct (findall_from crinex_pattern 0 s); reflexivity.
Qed.

Lemma parse_rinex_str s :
  parse_rinex_filename (PyStr s) =
  match hd_error (findall_from rinex_pattern 0 s) with
  | Some t => Ret (VTuple t)
  | None => Ret VEmptyList
  end.
Proof.
  unfold parse_rinex_filename, re_findall.
  destruct (findall_from rinex_pattern 0 s); reflexivity.
Qed.

Lemma stem_substrings f tail :
  well_formed f = true ->
  let s := stem f ++ tail in
  station f = substring 0 4 s /\ doy f = substring 4 3 s /\
  session f = substring 7 1 s /\ year f = substring 9 2 s.
Proof.
  intros Hf. apply well_formed_iff in Hf as ((L1 & _) & (L2 & _) & (L3 & _) & (L4 & _)).
  destruct f as [a b c d]; simpl in *.
  destruct a as [|a1 [|a2 [|a3 [|a4 [|? ?]]]]]; try discriminate.
  destruct b as [|b1 [|b2 [|b3 [|? ?]]]]; try discriminate.
  destruct c as [|c1 [|? ?]]; try discriminate.
  destruct d as [|d1 [|d2 [|? ?]]]; try discriminate.
  repeat split.
Qed.

(** [findall] finds the pattern exactly in the filenames that a name of the
    grammar closes. *)
Lemma crinex_found_iff s :
  (exists t, hd_error (findall_from crinex_pattern 0 s) = Some t)
  <-> ends_with compressed_name s.
Proof.
  split.
  - intros [t E].
    apply findall_head_sound in E as (pre & suf & rest & -> & Hm).
    apply match_crinex_some in Hm as (f & Hf & -> & _ & He).
    exists pre, f, rest. apply at_end_cases in He. auto.
  - intros (pre & f & suf & Hf & -> & He). apply at_end_cases in He.
    rewrite (crinex_closing_name pre f suf Hf He). eauto.
Qed.

Lemma rinex_found_iff s :
  (exists t, hd_error (findall_from rinex_pattern 0 s) = Some t)
  <-> ends_with plain_name s.
Proof.
  split.
  - intros [t E].
    apply findall_head_sound in E as (pre & suf & rest & -> & Hm).
    apply match_rinex_some in Hm as (f & Hf & -> & _ & He).
    exists pre, f, rest. apply at_end_cases in He. auto.
  - intros (pre & f & suf & Hf & -> & He). apply at_end_cases in He.
    rewrite (rinex_closing_name pre f suf Hf He). eauto.
Qed.

(** ** Theorems on the filename grammars *)

(** C6, as amended.  The two grammars are anchored at the end of the filename
    only: [parse_crinex_filename] (resp. [parse_rinex_filename]) reports a
    match exactly when a name of the compressed (resp. plain) grammar closes
    the filename, possibly followed by one final newline; what precedes that
    name is free.  The tuple returned is then the one of the closing name,
    with the station code as it is written (no case folding). *)
Theorem parse_anchored_at_end_only (s : str) :
  ((exists t, parse_crinex_filename (PyStr s) = Ret (VTuple t))
     <-> ends_with compressed_name s) /\
  ((exists t, parse_rinex_filename (PyStr s) = Ret (VTuple t))
     <-> ends_with plain_name s) /\
  (forall pre f suf,
     well_formed f = true -> (suf = [] \/ suf = [newline]) ->
     parse_crinex_filename (PyStr (pre ++ compressed_name f ++ suf))
       = Ret (VTuple (tuple_of f "d")) /\
     parse_rinex_filename (PyStr (pre ++ plain_name f ++ suf))
       = Ret (VTuple (tuple_of f "o"))).
Proof.
  split; [|split].
  - rewrite <- crinex_found_iff, parse_crinex_str.
    destruct (hd_error (findall_from crinex_pattern 0 s)) as [gs|]; split;
      intros [t H]; first [discriminate | eauto].
  - rewrite <- rinex_found_iff, parse_rinex_str.
    destruct (hd_error (findall_from rinex_pattern 0 s)) as [gs|]; split;
      intros [t H]; first [discriminate | eauto].
  - intros pre f suf Hf He. apply at_end_cases in He.
    rewrite parse_crinex_str, parse_rinex_str,
      (crinex_closing_name pre f suf Hf He), (rinex_closing_name pre f suf Hf He).
    auto.
Qed.


(** C8.  On every string, the empty one and strings of unexpected characters
    included, both functions return: the tuple of five fields, or the
    no-match value ([None], resp. [[]]).  [re.findall] returns on every
    string, so the [except] clause of [parse_crinex_filename] is not entered.
    Being functions of the string alone, the results are deterministic and
    free of side effects. *)
Theorem parse_total (s : str) :
  (parse_crinex_filename (PyStr s) = Ret VNone \/
   exists t, List.length t = 5 /\ parse_crinex_filename (PyStr s) = Ret (VTuple t)) /\
  (parse_rinex_filename (PyStr s) = Ret VEmptyList \/
   exists t, List.length t = 5 /\ parse_rinex_filename (PyStr s) = Ret (VTuple t)) /\
  (exists l, re_findall crinex_pattern (PyStr s) = Ret l) /\
  (exists l, re_findall rinex_pattern (PyStr s) = Ret l).
Proof.
  rewrite parse_crinex_str, parse_rinex_str. repeat apply conj.
  - destruct (hd_error (findall_from crinex_pattern 0 s)) as [gs|] eqn:E; [right|left; auto].
    apply findall_head_sound in E as (pre & suf & rest & _ & Hm).
    apply match_crinex_some in Hm as (f & _ & _ & -> & _).
    exists (tuple_of f "d"). split; reflexivity.
  - destruct (hd_error (findall_from rinex_pattern 0 s)) as [gs|] eqn:E; [right|left; auto].
    apply findall_head_sound in E as (pre & suf & rest & _ & Hm).
    apply match_rinex_some in Hm as (f & _ & _ & -> & _).
    exists (tuple_of f "o"). split; reflexivity.
  - simpl. eauto.
  - simpl. eauto.
Qed.

(** The handler of [parse_crinex_filename] is there for arguments that are
    not strings: it turns the TypeError of [re.findall] into an exit, where
    [parse_rinex_filename] lets it through. *)
Lemma parse_not_str (c : string) :
  parse_crinex_filename (PyNotStr c) = Raise (SystemExit 1) /\
  exists e, parse_rinex_filename (PyNotStr c) = Raise e /\ is_Exception e = true.
Proof.
  split; [reflexivity|]. eexists. split; reflexivity.
Qed.

(** ** Theorems on the archive scan *)

Lemma fsnode_nested_ind (P : fsnode -> Prop) :
  (forall n, P (File n)) ->
  (forall n cause, P (Locked n cause)) ->
  (forall n children, Forall P children -> P (Dir n children)) ->
  forall x, P x.
Proof.
  intros HF HL HD. fix IH 1. intros [n|n children|n cause].
  - apply HF.
  - apply HD. induction children as [|c cs IHcs]; constructor; [apply IH | exact IHcs].
  - apply HL.
Qed.

Lemma scan_dir rootdir n children :
  scan_archive_struct rootdir (Dir n children)
  = exit_on_exception (scan_loop rootdir children []).
Proof.
  simpl. f_equal.
  match goal with
  | |- ?loop children [] = _ =>
      enough (H : forall file, loop children file = scan_loop rootdir children file)
        by apply H
  end.
  induction children as [|c cs IH]; intros file; [reflexivity|].
  cbn [scan_loop]. cbv zeta. cbn [path name].
  destruct (isdir c).
  - destruct (scan_archive_struct (path_join rootdir (node_name c)) c); [apply IH|reflexivity].
  - destruct (parse_crinex_filename (PyStr (node_name c))) as [v|e]; [|reflexivity].
    destruct (truthy v); apply IH.
Qed.

Lemma matches_compressed_iff s :
  matches_compressed s = true <-> ends_with compressed_name s.
Proof.
  rewrite <- crinex_found_iff. unfold matches_compressed.
  destruct (hd_error (findall_from crinex_pattern 0 s)); split; intros H;
    eauto; try discriminate.
  destruct H; discriminate.
Qed.

(** The test [elif self.parse_crinex_filename(entry.name)]. *)
Lemma parse_crinex_truthy s :
  exists v, parse_crinex_filename (PyStr s) = Ret v /\ truthy v = matches_compressed s.
Proof.
  rewrite parse_crinex_str. unfold matches_compressed.
  destruct (hd_error (findall_from crinex_pattern 0 s)) as [gs|] eqn:E.
  - apply findall_head_sound in E as (pre & suf & rest & _ & Hm).
    apply match_crinex_some in Hm as (f & _ & _ & -> & _). eexists. split; reflexivity.
  - eexists. split; reflexivity.
Qed.

(** What a scan of a directory comes to: an exit as soon as a directory that
    cannot be listed lies below it, the kept files otherwise. *)
Lemma scan_outcome x :
  forall rootdir, isdir x = true ->
  scan_archive_struct rootdir x =
  if unreadable x then Raise (SystemExit 1)
  else Ret (filter kept (files_under rootdir x)).
Proof.
  induction x as [n|n cause|n children IH] using fsnode_nested_ind;
    intros rootdir Hd; [discriminate|reflexivity|].
  rewrite scan_dir. cbn [unreadable files_under].
  enough (H : forall file,
             scan_loop rootdir children file =
             if existsb unreadable children then Raise (SystemExit 1)
             else Ret (file ++ filter kept
                         (flat_map (fun c =>
                            let p := path_join rootdir (node_name c) in
                            if isdir c then files_under p c
                            else [{| name := node_name c; path := p |}]) children))).
  { rewrite H. destruct (existsb unreadable children); reflexivity. }
  clear Hd. induction IH as [|c cs Hc _ IHcs]; intros file.
  - simpl. rewrite app_nil_r. reflexivity.
  - cbn [scan_loop existsb flat_map]. cbv zeta. cbn [path name].
    destruct (isdir c) eqn:Ec.
    + rewrite (Hc _ eq_refl). destruct (unreadable c); [reflexivity|].
      cbn [orb]. rewrite IHcs. destruct (existsb unreadable cs); [reflexivity|].
      rewrite filter_app, app_assoc. reflexivity.
    + assert (Hu : unreadable c = false) by (destruct c; [reflexivity|discriminate..]).
      rewrite Hu. cbn [orb].
      destruct (parse_crinex_truthy (node_name c)) as (v & -> & ->).
      rewrite filter_app. cbn [filter].
      change (kept {| name := node_name c; path := path_join rootdir (node_name c) |})
        with (matches_compressed (node_name c)).
      destruct (matches_compressed (node_name c)); rewrite IHcs;
        destruct (existsb unreadable cs); try reflexivity.
      rewrite <- app_assoc. reflexivity.
Qed.

Lemma Permutation_filter_kept (l l' : list DirEntry) :
  Permutation l l' -> Permutation (filter kept l) (filter kept l').
Proof.
  induction 1 as [|a l l' _ IH|a b l|l l' l'' _ IH1 _ IH2]; simpl.
  - constructor.
  - destruct (kept a); [constructor|]; exact IH.
  - destruct (kept a), (kept b); try apply Permutation_refl. constructor.
  - eapply Permutation_trans; eassumption.
Qed.

(** C4, as amended.  When a directory that cannot be listed lies in the tree,
    at any depth, the scan does not return: it ends the process with exit
    status 1.  No entry is returned and no error is recorded. *)
Theorem scan_exits_on_unreadable (rootdir : str) (x : fsnode) :
  unreadable x = true ->
  scan_archive_struct rootdir x = Raise (SystemExit 1).
Proof.
  intros Hu. rewrite scan_outcome, Hu; [reflexivity|].
  destruct x; [discriminate|reflexivity..].
Qed.


(** ** Facts about the computations of [JobServer] *)

Lemma bind_inv {A B : Type} (m : M A) (f : A -> M B) s r s' :
  bind m f s = Some (r, s') ->
  (exists a s1, m s = Some (Ret a, s1) /\ f a s1 = Some (r, s')) \/
  (exists e, m s = Some (Raise e, s') /\ r = Raise e).
Proof.
  unfold bind. destruct (m s) as [[[a|e] s1]|]; intros H; try discriminate.
  - left. eauto.
  - right. inversion H; subst. eauto.
Qed.

Lemma bind_ret_inv {A B : Type} (m : M A) (f : A -> M B) s b s' :
  bind m f s = Some (Ret b, s') ->
  exists a s1, m s = Some (Ret a, s1) /\ f a s1 = Some (Ret b, s').
Proof.
  intros H. apply bind_inv in H as [H|(e & _ & H)]; [exact H|discriminate].
Qed.

Lemma bind_ret {A B : Type} (m : M A) (f : A -> M B) s a s1 :
  m s = Some (Ret a, s1) -> bind m f s = f a s1.
Proof. unfold bind. intros ->. reflexivity. Qed.

Lemma bind_raise {A B : Type} (m : M A) (f : A -> M B) s e s1 :
  m s = Some (Raise e, s1) -> bind m f s = Some (Raise e, s1).
Proof. unfold bind. intros ->. reflexivity. Qed.

Lemma preserves_ret {X A : Type} (proj : state -> X) (a : A) : preserves proj (ret a).
Proof. intros s r s' H. inversion H. reflexivity. Qed.

Lemma preserves_raise {X A : Type} (proj : state -> X) e : preserves proj (@raise A e).
Proof. intros s r s' H. inversion H. reflexivity. Qed.

Lemma preserves_bind {X A B : Type} (proj : state -> X) (m : M A) (f : A -> M B) :
  preserves proj m -> (forall a, preserves proj (f a)) -> preserves proj (bind m f).
Proof.
  intros Hm Hf s r s' H.
  apply bind_inv in H as [(a & s1 & H1 & H2)|(e & H1 & _)].
  - rewrite (Hf _ _ _ _ H2). eapply Hm, H1.
  - eapply Hm, H1.
Qed.

Lemma preserves_try_except {X A : Type} (proj : state -> X) (m : M A) h :
  preserves proj m -> (forall e k, h e = Some k -> preserves proj k) ->
  preserves proj (try_except m h).
Proof.
  intros Hm Hh s r s' H. unfold try_except in H.
  destruct (m s) as [[[a|e] s1]|] eqn:E; try discriminate.
  - inversion H; subst. eapply Hm, E.
  - destruct (h e) as [k|] eqn:Ek.
    + rewrite (Hh _ _ Ek _ _ _ H). eapply Hm, E.
    + inversion H; subst. eapply Hm, E.
Qed.

Lemma preserves_try_finally {X A : Type} (proj : state -> X) (m : M A) f :
  preserves proj m -> preserves proj f -> preserves proj (try_finally m f).
Proof.
  intros Hm Hf s r s' H. unfold try_finally in H.
  destruct (m s) as [[r1 s1]|] eqn:E; [|discriminate].
  destruct (f s1) as [[[u|e] s2]|] eqn:E2; try discriminate;
    inversion H; subst; rewrite (Hf _ _ _ E2); eapply Hm, E.
Qed.

Lemma preserves_for_each {X A : Type} (proj : state -> X) (l : list A) body :
  (forall a, preserves proj (body a)) -> preserves proj (for_each l body).
Proof.
  intros Hb. induction l as [|a l IH]; simpl.
  - apply preserves_ret.
  - apply preserves_bind; auto.
Qed.

(** The primitive steps, one by one. *)
Ltac step_preserves :=
  let s := fresh "s" in let r := fresh "r" in let s' := fresh "s'" in
  let H := fresh "H" in
  intros s r s' H; cbv beta delta [emit debug error call set_cluster set_tested
    get_cluster get_tested ret raise] in H;
  repeat match type of H with
         | context [let (_, _) := ?x in _] => destruct x
         end;
  inversion H; reflexivity.

Lemma emit_tested ev : preserves tested (emit ev).
Proof. step_preserves. Qed.
Lemma emit_cluster ev : preserves cluster (emit ev).
Proof. step_preserves. Qed.
Lemma emit_world ev : preserves world (emit ev).
Proof. step_preserves. Qed.
Lemma call_tested {A : Type} ev (f : World -> outcome A * World) : preserves tested (call ev f).
Proof. step_preserves. Qed.
Lemma call_cluster {A : Type} ev (f : World -> outcome A * World) : preserves cluster (call ev f).
Proof. step_preserves. Qed.
Lemma set_cluster_tested c : preserves tested (set_cluster c).
Proof. step_preserves. Qed.
Lemma get_cluster_any {X : Type} (proj : state -> X) : preserves proj get_cluster.
Proof. step_preserves. Qed.
Lemma get_tested_any {X : Type} (proj : state -> X) : preserves proj get_tested.
Proof. step_preserves. Qed.

Create HintDb pres.
#[local] Hint Resolve preserves_ret preserves_raise preserves_bind preserves_try_except
  preserves_try_finally preserves_for_each emit_tested emit_cluster emit_world
  call_tested call_cluster set_cluster_tested get_cluster_any get_tested_any : pres.
#[local] Hint Unfold debug error sys_exit : pres.

Lemma the_cluster_any {X : Type} (proj : state -> X) : preserves proj the_cluster.
Proof.
  unfold the_cluster. apply preserves_bind; [auto with pres|].
  intros [h|]; auto with pres.
Qed.

Lemma get_head_node_any {X : Type} (proj : state -> X) : preserves proj get_head_node.
Proof. unfold get_head_node. destruct (head_node options); auto with pres. Qed.

Lemma int_ping_interval_any {X : Type} (proj : state -> X) : preserves proj int_ping_interval.
Proof. unfold int_ping_interval. destruct (ping_interval options); auto with pres. Qed.

Lemma time_sleep_tested ms : preserves tested (time_sleep ms).
Proof. unfold time_sleep. destruct (ms <? 0)%Z; auto with pres. Qed.

Lemma time_sleep_cluster ms : preserves cluster (time_sleep ms).
Proof. unfold time_sleep. destruct (ms <? 0)%Z; auto with pres. Qed.

#[local] Hint Resolve the_cluster_any get_head_node_any int_ping_interval_any
  time_sleep_tested time_sleep_cluster : pres.

Lemma exit_clauses_tested {A : Type} e (k : M A) :
  exit_clauses e = Some k -> preserves tested k.
Proof.
  destruct e; simpl; intros H; inversion H; subst; unfold error, sys_exit; auto with pres.
Qed.

Lemma exit_clauses_cluster {A : Type} e (k : M A) :
  exit_clauses e = Some k -> preserves cluster k.
Proof.
  destruct e; simpl; intros H; inversion H; subst; unfold error, sys_exit; auto with pres.
Qed.

Lemma connect_tested : preserves tested connect.
Proof.
  unfold connect, debug.
  apply preserves_try_except; [|apply @exit_clauses_tested].
  repeat (apply preserves_bind; [auto with pres|intros]).
  apply preserves_for_each. intros node.
  repeat (apply preserves_bind; [auto with pres|intros]). auto with pres.
Qed.

Lemma submit_all_tested nodes jobs : preserves tested (submit_all nodes jobs).
Proof.
  revert jobs. induction nodes as [|node nodes IH]; intros jobs; simpl; [auto with pres|].
  unfold debug. repeat (apply preserves_bind; [auto with pres|intros]). apply IH.
Qed.

Lemma submit_all_cluster nodes jobs : preserves cluster (submit_all nodes jobs).
Proof.
  revert jobs. induction nodes as [|node nodes IH]; intros jobs; simpl; [auto with pres|].
  unfold debug. repeat (apply preserves_bind; [auto with pres|intros]). apply IH.
Qed.

Lemma submit_probes_tested : preserves tested submit_probes.
Proof.
  unfold submit_probes, debug.
  repeat (apply preserves_bind; [auto using connect_tested with pres|intros]).
  apply submit_all_tested.
Qed.

Lemma check_handles_any {X : Type} (proj : state -> X) jobs : preserves proj (check_handles jobs).
Proof.
  unfold check_handles. destruct (existsb is_None jobs); [|auto with pres].
  destruct (nth_error _ _); auto with pres.
Qed.

Lemma wait_loop_tested fuel : preserves tested (wait_loop fuel).
Proof.
  induction fuel as [|fuel IH]; simpl.
  - intros s r s' H. discriminate.
  - repeat (apply preserves_bind; [auto with pres|intros]).
    destruct a0; auto with pres.
Qed.

Lemma wait_loop_cluster fuel : preserves cluster (wait_loop fuel).
Proof.
  induction fuel as [|fuel IH]; simpl.
  - intros s r s' H. discriminate.
  - repeat (apply preserves_bind; [auto with pres|intros]).
    destruct a0; auto with pres.
Qed.

Lemma release_tested : preserves tested release.
Proof.
  unfold release, debug. repeat (apply preserves_bind; [auto with pres|intros]).
  destruct a0; auto with pres.
Qed.

Lemma release_cluster : preserves cluster release.
Proof.
  unfold release, debug. repeat (apply preserves_bind; [auto with pres|intros]).
  destruct a0; auto with pres.
Qed.

Lemma logged_nil s : logged s [] = s.
Proof. destruct s. unfold logged. simpl. rewrite app_nil_r. reflexivity. Qed.

Lemma logged_logged s a b : logged (logged s a) b = logged s (a ++ b).
Proof. unfold logged. simpl. rewrite app_assoc. reflexivity. Qed.

Lemma emit_logged ev s : emit ev s = Some (Ret tt, logged s [ev]).
Proof. reflexivity. Qed.

Lemma for_each_debug {A : Type} (l : list A) (g : A -> message) s :
  for_each l (fun x => debug (g x)) s
  = Some (Ret tt, logged s (List.map (fun x => Debug (g x)) l)).
Proof.
  revert s. induction l as [|x l IH]; intros s; simpl.
  - unfold ret. rewrite logged_nil. reflexivity.
  - unfold bind, debug at 1. rewrite emit_logged, IH, logged_logged. reflexivity.
Qed.

(** With a handle for every node, [report] reads every handle's result, in
    the order of submission, and sets [tested]. *)
Lemma report_handles (js : list Job) s :
  report (List.map Some js) s
  = Some (Ret tt, {| cluster := cluster s; tested := true; world := world s;
                     log := log s ++ report_events js (world s) |}).
Proof.
  unfold report, report_events.
  assert (Hjobs : forall s0,
            for_each (List.map Some js)
              (fun j => match j with
                        | Some h => fun s1 =>
                            debug (Text (lit "Node worked! " ++ job_result dispy h (world s1)
                                         ++ lit ".")) s1
                        | None => raise (OtherException "AttributeError"
                                    (lit "'NoneType' object has no attribute 'result'"))
                        end) s0
            = Some (Ret tt, logged s0
                (List.map (fun j => Debug (Text (lit "Node worked! "
                                     ++ job_result dispy j (world s0) ++ lit "."))) js))).
  { induction js as [|j js IH]; intros s0; simpl.
    - unfold ret. rewrite logged_nil. reflexivity.
    - unfold bind, debug at 1. rewrite emit_logged, IH, logged_logged. reflexivity. }
  unfold bind, debug at 1. rewrite emit_logged, Hjobs, for_each_debug.
  unfold debug, emit, set_tested, logged. simpl.
  rewrite <- !app_assoc. reflexivity.
Qed.

Lemma report_outcome jobs s r s' :
  report jobs s = Some (r, s') ->
  (r = Ret tt /\ tested s' = true) \/ (exists e, r = Raise e /\ tested s' = tested s).
Proof.
  unfold report. intros H.
  assert (P1 : preserves tested
            (for_each jobs (fun j => match j with
               | Some h => fun s1 =>
                   debug (Text (lit "Node worked! " ++ job_result dispy h (world s1)
                                ++ lit ".")) s1
               | None => raise (OtherException "AttributeError"
                           (lit "'NoneType' object has no attribute 'result'"))
               end))).
  { apply preserves_for_each. intros [h|]; [|auto with pres].
    intros s0 r0 s0' H0. unfold debug in H0. eapply emit_tested, H0. }
  apply bind_inv in H as [(u1 & s1 & H1 & H)|(e & H1 & ->)];
    [|right; eexists; split; [reflexivity|eapply emit_tested, H1]].
  apply bind_inv in H as [(u2 & s2 & H2 & H)|(e & H2 & ->)];
    [|right; eexists; split; [reflexivity|]; rewrite (P1 _ _ _ H2); eapply emit_tested, H1].
  apply bind_inv in H as [(u3 & s3 & H3 & H)|(e & H3 & ->)].
  2:{ rewrite for_each_debug in H3. discriminate. }
  apply bind_inv in H as [(u4 & s4 & H4 & H)|(e & H4 & ->)]; [|discriminate].
  left. unfold set_tested in H. inversion H; subst. destruct u4. auto.
Qed.

(** What [release] does: nothing on the backend without a cluster, one call
    of its [shutdown] with one, whose outcome becomes the block's. *)
Lemma release_run s :
  release s =
  match cluster s with
  | None => Some (Ret tt, logged s [Debug (Text (lit "Shutting down cluster."))])
  | Some h =>
      Some (fst (shutdown dispy h (world s)),
            in_world (logged s [Debug (Text (lit "Shutting down cluster.")); Shutdown])
                     (snd (shutdown dispy h (world s))))
  end.
Proof.
  unfold release, bind, debug, emit, get_cluster, call, logged, in_world. simpl.
  destruct (cluster s) as [h|]; [|reflexivity]. simpl.
  destruct (shutdown dispy h (world s)) as [r w]. simpl.
  rewrite <- app_assoc. reflexivity.
Qed.

Lemma exit_clauses_run {A : Type} e (k : M A) s :
  exit_clauses e = Some k ->
  k s = Some (Raise (SystemExit 1),
              logged s [Error (match e with
                               | ConnectionError _ => StrOf e
                               | _ => Uncaught e
                               end)]).
Proof. destruct e; simpl; intros H; inversion H; reflexivity. Qed.

(** A [try] closed by the two exit clauses returns only if its body does. *)
Lemma try_exit_ret {A : Type} (m : M A) s a s' :
  try_except m exit_clauses s = Some (Ret a, s') -> m s = Some (Ret a, s').
Proof.
  unfold try_except. destruct (m s) as [[[x|e] s1]|]; intros H; try discriminate.
  - exact H.
  - destruct (exit_clauses e) as [k|] eqn:Ek; [|discriminate].
    rewrite (exit_clauses_run _ _ s1 Ek) in H. discriminate.
Qed.

(** After a [connect] that returned, [self.cluster] is a cluster. *)
Lemma connect_ret_cluster s s1 :
  connect s = Some (Ret tt, s1) -> exists h, cluster s1 = Some h.
Proof.
  intros H. apply try_exit_ret in H.
  apply bind_ret_inv in H as (u & s2 & _ & H).
  apply bind_ret_inv in H as (ip & s3 & _ & H).
  apply bind_ret_inv in H as (ping & s4 & _ & H).
  apply bind_ret_inv in H as (c & s5 & _ & H).
  apply bind_ret_inv in H as (u' & s6 & Hset & H).
  exists c. unfold set_cluster in Hset. inversion Hset; subst.
  assert (P : preserves cluster
            (for_each (node_list options) (fun node =>
               h <- the_cluster ;;
               call (Discover node) (discover_nodes dispy h node) ;;
               n <- int_ping_interval ;;
               debug (Waiting (2 * n)) ;;
               n' <- int_ping_interval ;;
               time_sleep (2000 * n')))).
  { apply preserves_for_each. intros node. unfold debug.
    repeat (apply preserves_bind; [auto with pres|intros]). auto with pres. }
  rewrite (P _ _ _ H). reflexivity.
Qed.

Lemma submit_all_length nodes jobs s js s' :
  submit_all nodes jobs s = Some (Ret js, s') ->
  List.length js = List.length jobs + List.length nodes.
Proof.
  revert jobs s. induction nodes as [|node nodes IH]; intros jobs s H; simpl in H.
  - inversion H; subst. simpl. lia.
  - apply bind_ret_inv in H as (u & s1 & _ & H).
    apply bind_ret_inv in H as (h & s2 & _ & H).
    apply bind_ret_inv in H as (job & s3 & _ & H).
    apply IH in H. rewrite length_app in H. simpl in *. lia.
Qed.

(** After the submissions returned, there is a cluster and one entry of
    [jobs] per node. *)
Lemma submit_probes_ret s jobs s1 :
  submit_probes s = Some (Ret jobs, s1) ->
  (exists h, cluster s1 = Some h) /\
  List.length jobs = List.length (node_list options).
Proof.
  intros H. unfold submit_probes in H.
  apply bind_ret_inv in H as (u & s2 & _ & H).
  apply bind_ret_inv in H as (u' & s3 & Hc & H).
  destruct u'. apply connect_ret_cluster in Hc as [h Hc]. split.
  - exists h. rewrite (submit_all_cluster _ _ _ _ _ H). exact Hc.
  - apply submit_all_length in H. exact H.
Qed.

Lemma existsb_is_None_map_Some {A : Type} (js : list A) :
  existsb is_None (List.map Some js) = false.
Proof. induction js; simpl; auto. Qed.

Lemma no_None_map_Some {A : Type} (jobs : list (option A)) :
  existsb is_None jobs = false -> exists js, jobs = List.map Some js.
Proof.
  induction jobs as [|[j|] jobs IH]; simpl; intros H.
  - exists []. reflexivity.
  - destruct (IH H) as [js ->]. exists (j :: js). reflexivity.
  - discriminate.
Qed.

(** [jobs.index(None)] is the first position that holds [None]. *)
Lemma index_None_first {A : Type} (jobs : list (option A)) :
  existsb is_None jobs = true ->
  nth_error jobs (index_None jobs) = Some None /\
  index_None jobs < List.length jobs /\
  forall k, k < index_None jobs -> exists j, nth_error jobs k = Some (Some j).
Proof.
  induction jobs as [|[j|] jobs IH]; simpl; intros H.
  - discriminate.
  - destruct (IH H) as (H1 & H2 & H3). repeat split; [exact H1|lia|].
    intros [|k] Hk; simpl; [eauto|]. apply H3. lia.
  - repeat split; [lia|]. intros k Hk. lia.
Qed.

Lemma check_handles_run jobs s :
  check_handles jobs s =
  if existsb is_None jobs then
    match nth_error (node_list options) (index_None jobs) with
    | Some node => Some (Raise (ConnectionError (submit_error node)), s)
    | None => Some (Raise (OtherException "IndexError" (lit "list index out of range")), s)
    end
  else Some (Ret tt, s).
Proof.
  unfold check_handles. destruct (existsb is_None jobs); [|reflexivity].
  destruct (nth_error _ _); reflexivity.
Qed.

(** The [try] block returns exactly when the connection is made, every
    submission yields a handle and the wait ends; [tested] is then set. *)
Lemma test_body_ret fuel s s3 :
  test_body fuel s = Some (Ret tt, s3) <->
  exists js s1 s2,
    submit_probes s = Some (Ret (List.map Some js), s1) /\
    wait_loop fuel s1 = Some (Ret tt, s2) /\
    s3 = {| cluster := cluster s2; tested := true; world := world s2;
            log := log s2 ++ report_events js (world s2) |}.
Proof.
  unfold test_body. split.
  - intros H.
    apply bind_ret_inv in H as (jobs & s1 & Hs & H).
    apply bind_ret_inv in H as (u & s1' & Hc & H).
    rewrite check_handles_run in Hc.
    destruct (existsb is_None jobs) eqn:En.
    { destruct (nth_error _ _); discriminate. }
    inversion Hc; subst s1'. clear Hc.
    apply no_None_map_Some in En as [js ->].
    apply bind_ret_inv in H as (u' & s2 & Hw & H).
    rewrite report_handles in H. inversion H; subst.
    exists js, s1, s2. destruct u'. auto.
  - intros (js & s1 & s2 & Hs & Hw & ->).
    rewrite (bind_ret _ _ _ _ _ Hs).
    assert (Hc : check_handles (List.map Some js) s1 = Some (Ret tt, s1)).
    { rewrite check_handles_run, existsb_is_None_map_Some. reflexivity. }
    rewrite (bind_ret _ _ _ _ _ Hc), (bind_ret _ _ _ _ _ Hw).
    apply report_handles.
Qed.

(** However the [try] block ends, [tested] is set only by a normal end. *)
Lemma test_body_tested fuel s r s' :
  test_body fuel s = Some (r, s') ->
  (r = Ret tt /\ tested s' = true) \/ (exists e, r = Raise e /\ tested s' = tested s).
Proof.
  unfold test_body. intros H.
  apply bind_inv in H as [(jobs & s1 & Hs & H)|(e & Hs & ->)];
    [|right; eexists; split; [reflexivity|eapply submit_probes_tested, Hs]].
  apply submit_probes_tested in Hs.
  apply bind_inv in H as [(u & s2 & Hc & H)|(e & Hc & ->)];
    [|right; eexists; split; [reflexivity|];
      rewrite (check_handles_any tested _ _ _ _ Hc); exact Hs].
  apply (check_handles_any tested) in Hc.
  apply bind_inv in H as [(u' & s3 & Hw & H)|(e & Hw & ->)];
    [|right; eexists; split; [reflexivity|];
      rewrite (wait_loop_tested _ _ _ _ Hw); congruence].
  apply wait_loop_tested in Hw.
  apply report_outcome in H as [H|(e & -> & H)]; [left; exact H|].
  right. eexists. split; [reflexivity|congruence].
Qed.

(** How [cluster_test] ends, from how its [try] block ends. *)
Lemma cluster_test_inv fuel s r s' :
  cluster_test fuel s = Some (r, s') ->
  exists rb sb,
    test_body fuel s = Some (rb, sb) /\
    tested s' = tested sb /\
    (r = Ret tt -> rb = Ret tt).
Proof.
  unfold cluster_test, try_finally. intros H.
  destruct (try_except (test_body fuel) exit_clauses s) as [[r0 s0]|] eqn:E; [|discriminate].
  destruct (release s0) as [[[u|e] s1]|] eqn:Er; try discriminate;
    inversion H; subst; clear H; apply release_tested in Er; rewrite Er.
  - unfold try_except in E.
    destruct (test_body fuel s) as [[[x|e] sb]|] eqn:Eb; try discriminate.
    + inversion E; subst. exists (Ret x), s0. destruct x. auto.
    + exists (Raise e), sb. split; [reflexivity|]. split.
      * destruct (exit_clauses e) as [k|] eqn:Ek.
        -- apply (exit_clauses_tested _ _ Ek) in E. exact E.
        -- inversion E; subst. reflexivity.
      * intros ->. destruct (exit_clauses e) as [k|] eqn:Ek.
        -- rewrite (exit_clauses_run _ _ sb Ek) in E. discriminate.
        -- discriminate.
  - unfold try_except in E.
    destruct (test_body fuel s) as [[[x|e0] sb]|] eqn:Eb; try discriminate.
    + inversion E; subst. exists (Ret x), s0. repeat split. discriminate.
    + exists (Raise e0), sb. split; [reflexivity|]. split; [|discriminate].
      destruct (exit_clauses e0) as [k|] eqn:Ek.
      * apply (exit_clauses_tested _ _ Ek) in E. exact E.
      * inversion E; subst. reflexivity.
Qed.

Lemma cluster_test_ret_tested fuel s s' :
  cluster_test fuel s = Some (Ret tt, s') -> tested s' = true.
Proof.
  intros H. apply cluster_test_inv in H as (rb & sb & Hb & Ht & Hr).
  rewrite Ht, (Hr eq_refl) in *.
  apply test_body_tested in Hb as [[_ Hb]|(e & He & _)]; [exact Hb|discriminate].
Qed.

(** ** Theorems on the cluster test *)

(** C10.  Whenever [cluster_test] returns normally, [tested] is True; and
    [__init__] ends exactly as the [cluster_test] it runs on the fresh object
    ends, so its own [raise ConnectionError] is never executed. *)
Theorem cluster_test_returns_tested (fuel : nat) (s : state) :
  (forall s', cluster_test fuel s = Some (Ret tt, s') -> tested s' = true) /\
  (forall s', __init__ fuel s = Some (Ret tt, s') -> tested s' = true) /\
  __init__ fuel s
  = cluster_test fuel {| cluster := None; tested := false; world := world s; log := log s |}.
Proof.
  assert (Hinit : __init__ fuel s
    = cluster_test fuel {| cluster := None; tested := false; world := world s; log := log s |}).
  { unfold __init__, bind, set_cluster, set_tested, get_tested. simpl.
    destruct (cluster_test fuel _) as [[[u|e] s1]|] eqn:E; try reflexivity.
    destruct u. rewrite (cluster_test_ret_tested _ _ _ E). reflexivity. }
  split; [|split].
  - apply cluster_test_ret_tested.
  - rewrite Hinit. apply cluster_test_ret_tested.
  - exact Hinit.
Qed.

(** C1, as amended.  [cluster_test] sets [tested] to True exactly when the
    connection is made, every node's submission yields a job handle and the
    wait for the jobs ends; how the jobs themselves ended is not looked at.
    When [tested] is not set, the run does not return a verdict: it ends in
    an exception (the exit of the process, in the cases the handlers cover). *)
Theorem tested_iff_handles_and_wait (fuel : nat) (s : state) r s' :
  tested s = false ->
  cluster_test fuel s = Some (r, s') ->
  (tested s' = true <->
   exists js s1 s2,
     submit_probes s = Some (Ret (List.map Some js), s1) /\
     wait_loop fuel s1 = Some (Ret tt, s2)) /\
  (tested s' = false -> exists e, r = Raise e).
Proof.
  intros Hs H. split.
  - apply cluster_test_inv in H as (rb & sb & Hb & Ht & _). rewrite Ht. split.
    + intros Htrue.
      destruct (test_body_tested _ _ _ _ Hb) as [[-> _]|(e & _ & He)]; [|congruence].
      apply test_body_ret in Hb as (js & s1 & s2 & H1 & H2 & _). eauto.
    + intros (js & s1 & s2 & H1 & H2).
      assert (Hb' : test_body fuel s
                = Some (Ret tt, {| cluster := cluster s2; tested := true; world := world s2;
                                   log := log s2 ++ report_events js (world s2) |})).
      { apply test_body_ret. eauto 6. }
      rewrite Hb' in Hb. inversion Hb; subst. reflexivity.
  - intros Hf. destruct r as [[]|e]; [|eauto].
    apply cluster_test_ret_tested in H. congruence.
Qed.


Lemma the_cluster_run s h : cluster s = Some h -> the_cluster s = Some (Ret h, s).
Proof. unfold the_cluster, bind, get_cluster. intros ->. reflexivity. Qed.

(** One turn of the [while] loop. *)
Lemma wait_loop_step fuel s h :
  cluster s = Some h ->
  wait_loop (S fuel) s =
  match fst (wait dispy h (world s)) with
  | Ret true => Some (Ret tt, in_world (logged s [Wait]) (snd (wait dispy h (world s))))
  | Ret false =>
      wait_loop fuel (in_world (logged s [Wait; Sleep 100])
                        (sleep dispy 100 (snd (wait dispy h (world s)))))
  | Raise e => Some (Raise e, in_world (logged s [Wait]) (snd (wait dispy h (world s))))
  end.
Proof.
  intros Hh. cbn [wait_loop]. rewrite (bind_ret _ _ _ _ _ (the_cluster_run _ _ Hh)).
  unfold bind at 1. unfold call.
  destruct (wait dispy h (world s)) as [[[|]|e] w]; simpl; try reflexivity.
  unfold bind, time_sleep, call, in_world, logged. simpl.
  rewrite <- app_assoc. reflexivity.
Qed.

(** If the first [k] polls find jobs unfinished and the next one finds none,
    the loop ends there once it has fuel for [k + 1] polls. *)
Lemma wait_loop_ends k :
  forall fuel s h,
    cluster s = Some h -> k < fuel ->
    (forall i, i < k -> fst (wait dispy h (after_polls h i (world s))) = Ret false) ->
    fst (wait dispy h (after_polls h k (world s))) = Ret true ->
    wait_loop fuel s
    = Some (Ret tt, in_world (logged s (poll_events k ++ [Wait]))
                      (snd (wait dispy h (after_polls h k (world s))))).
Proof.
  induction k as [|k IH]; intros fuel s h Hh Hk Hbefore Hat;
    (destruct fuel as [|fuel]; [lia|]); rewrite (wait_loop_step _ _ _ Hh).
  - simpl in Hat. rewrite Hat. reflexivity.
  - pose proof (Hbefore 0 ltac:(lia)) as H0. simpl in H0. rewrite H0.
    rewrite (IH fuel _ h); [| exact Hh | lia | | exact Hat].
    + unfold in_world, logged. simpl. rewrite <- app_assoc. reflexivity.
    + intros i Hi. apply (Hbefore (S i)). lia.
Qed.

(** Conversely, a loop that ended went through such polls. *)
Lemma wait_loop_ended fuel :
  forall s h s',
    cluster s = Some h ->
    wait_loop fuel s = Some (Ret tt, s') ->
    exists k, k < fuel /\
      (forall i, i < k -> fst (wait dispy h (after_polls h i (world s))) = Ret false) /\
      fst (wait dispy h (after_polls h k (world s))) = Ret true.
Proof.
  induction fuel as [|fuel IH]; intros s h s' Hh H; [discriminate|].
  rewrite (wait_loop_step _ _ _ Hh) in H.
  destruct (fst (wait dispy h (world s))) as [[|]|e] eqn:E; [| |discriminate].
  - exists 0. repeat split; [lia| |exact E]. intros i Hi. lia.
  - apply (IH _ h) in H as (k & Hk & Hbefore & Hat); [|exact Hh].
    exists (S k). repeat split; [lia| |exact Hat].
    intros [|i] Hi; [exact E|]. apply Hbefore. lia.
Qed.

Lemma wait_loop_stuck fuel :
  forall s h,
    cluster s = Some h ->
    (forall i, fst (wait dispy h (after_polls h i (world s))) = Ret false) ->
    wait_loop fuel s = None.
Proof.
  induction fuel as [|fuel IH]; intros s h Hh Hall; [reflexivity|].
  pose proof (Hall 0) as H0. simpl in H0.
  rewrite (wait_loop_step _ _ _ Hh), H0.
  apply (IH _ h); [exact Hh|]. intros i. apply (Hall (S i)).
Qed.

(** C3, as amended.  The wait has no deadline.  It returns only once the
    backend's [wait] reports that the jobs are finished, having polled it
    every 0.1 s until then, and it does so as soon as it may poll that often;
    while the backend keeps reporting unfinished jobs it does not return,
    however long it runs, and records no handle as timed out.  Once it has
    returned, a result is read for every handle, none left out. *)
Theorem wait_has_no_deadline (s : state) (h : Cluster) :
  cluster s = Some h ->
  (forall fuel s',
     wait_loop fuel s = Some (Ret tt, s') ->
     exists k, k < fuel /\
       (forall i, i < k -> fst (wait dispy h (after_polls h i (world s))) = Ret false) /\
       fst (wait dispy h (after_polls h k (world s))) = Ret true /\
       s' = in_world (logged s (poll_events k ++ [Wait]))
                     (snd (wait dispy h (after_polls h k (world s))))) /\
  (forall k fuel,
     k < fuel ->
     (forall i, i < k -> fst (wait dispy h (after_polls h i (world s))) = Ret false) ->
     fst (wait dispy h (after_polls h k (world s))) = Ret true ->
     wait_loop fuel s
     = Some (Ret tt, in_world (logged s (poll_events k ++ [Wait]))
                       (snd (wait dispy h (after_polls h k (world s)))))) /\
  ((forall i, fst (wait dispy h (after_polls h i (world s))) = Ret false) ->
   forall fuel, wait_loop fuel s = None) /\
  (forall js s2,
     report (List.map Some js) s2
     = Some (Ret tt, {| cluster := cluster s2; tested := true; world := world s2;
                        log := log s2 ++ report_events js (world s2) |})).
Proof.
  intros Hh. split; [|split; [|split]].
  - intros fuel s' H.
    destruct (wait_loop_ended _ _ _ _ Hh H) as (k & Hk & Hbefore & Hat).
    exists k. repeat split; auto.
    rewrite (wait_loop_ends k fuel s h Hh Hk Hbefore Hat) in H. congruence.
  - intros k fuel Hk Hbefore Hat. apply wait_loop_ends; assumption.
  - intros Hall fuel. apply (wait_loop_stuck fuel s h Hh Hall).
  - intros js s2. apply report_handles.
Qed.

(** A run whose wait does not end does not end. *)
Lemma cluster_test_waiting fuel s js s1 :
  submit_probes s = Some (Ret (List.map Some js), s1) ->
  wait_loop fuel s1 = None ->
  cluster_test fuel s = None.
Proof.
  intros Hs Hw. unfold cluster_test, try_finally, try_except, test_body.
  rewrite (bind_ret _ _ _ _ _ Hs).
  assert (Hc : check_handles (List.map Some js) s1 = Some (Ret tt, s1)).
  { rewrite check_handles_run, existsb_is_None_map_Some. reflexivity. }
  rewrite (bind_ret _ _ _ _ _ Hc). unfold bind. rewrite Hw. reflexivity.
Qed.

(** What [__del__] does. *)
Lemma del_run s :
  __del__ s =
  match cluster s with
  | None =>
      Some (Ret tt, logged s [Debug (Text (lit "Attempting to shut down the cluster."));
                              Debug (Text (lit "Cluster was not started."))])
  | Some h =>
      let s1 := in_world
                  (logged s [Debug (Text (lit "Attempting to shut down the cluster."));
                             Shutdown])
                  (snd (shutdown dispy h (world s))) in
      match fst (shutdown dispy h (world s)) with
      | Ret _ => Some (Ret tt, logged s1 [Debug (Text (lit "Cluster successfully shut down."))])
      | Raise e =>
          if is_Exception e
          then Some (Raise (SystemExit 1), logged s1 [Error (Uncaught e)])
          else Some (Raise e, s1)
      end
  end.
Proof.
  unfold __del__, try_except, bind, debug, error, emit, get_cluster, call, sys_exit, raise,
    logged, in_world. simpl.
  destruct (cluster s) as [h|]; simpl.
  - destruct (shutdown dispy h (world s)) as [[u|e] w]; simpl.
    + rewrite <- !app_assoc. reflexivity.
    + destruct (is_Exception e); simpl; rewrite <- ?app_assoc; reflexivity.
  - rewrite <- app_assoc. reflexivity.
Qed.

Lemma shutdown_calls_app l l' :
  shutdown_calls (l ++ l') = shutdown_calls l + shutdown_calls l'.
Proof. unfold shutdown_calls. rewrite filter_app, length_app. reflexivity. Qed.

(** C9, as amended.  On an object that never connected ([self.cluster] is
    None), both the [finally] block of [cluster_test] and [__del__] return
    without calling the backend: they only log.  On an object that
    connected, every invocation calls the backend's [shutdown] on the same
    handle, which stays in [self.cluster]: so does a second invocation in a
    row.  The invocation returns exactly when that call returns; when the
    call raises, the [finally] block raises the same, and [__del__] exits
    the process if it is an [Exception]. *)
Theorem shutdown_reaches_backend_each_time (s : state) :
  (cluster s = None ->
   release s = Some (Ret tt, logged s [Debug (Text (lit "Shutting down cluster."))]) /\
   __del__ s
   = Some (Ret tt, logged s [Debug (Text (lit "Attempting to shut down the cluster."));
                             Debug (Text (lit "Cluster was not started."))])) /\
  (forall h,
     cluster s = Some h ->
     (exists r s1,
        release s = Some (r, s1) /\
        cluster s1 = Some h /\
        world s1 = snd (shutdown dispy h (world s)) /\
        shutdown_calls (log s1) = S (shutdown_calls (log s)) /\
        r = fst (shutdown dispy h (world s))) /\
     (exists r s1,
        __del__ s = Some (r, s1) /\
        cluster s1 = Some h /\
        world s1 = snd (shutdown dispy h (world s)) /\
        shutdown_calls (log s1) = S (shutdown_calls (log s)) /\
        r = match fst (shutdown dispy h (world s)) with
            | Ret _ => Ret tt
            | Raise e => if is_Exception e then Raise (SystemExit 1) else Raise e
            end)).
Proof.
  split.
  - intros Hn. rewrite release_run, del_run, Hn. auto.
  - intros h Hh. rewrite release_run, del_run, Hh. split.
    + eexists _, _. split; [reflexivity|]. simpl.
      rewrite shutdown_calls_app. unfold shutdown_calls at 2. simpl.
      repeat split; auto. lia.
    + cbv zeta.
      destruct (fst (shutdown dispy h (world s))) as [u|e];
        [| destruct (is_Exception e)];
        (eexists _, _; split; [reflexivity|]; simpl;
         rewrite <- ?app_assoc, shutdown_calls_app; unfold shutdown_calls at 2; simpl;
         repeat split; auto; lia).
Qed.

(** * More of [JobServer]: the traces of its runs *)

(** One turn of the loop of [connect]: the discovery of a node and the
    settle delay of [2 * ping_interval] seconds. *)
Definition settle (node : str) : M unit :=
  h <- the_cluster ;;
  call (Discover node) (discover_nodes dispy h node) ;;
  n <- int_ping_interval ;;
  debug (Waiting (2 * n)) ;;
  n' <- int_ping_interval ;;
  time_sleep (2000 * n').

(** What [connect] leaves in the log when it returns. *)
Definition settle_events (p : Z) (nodes : list str) : list event :=
  flat_map (fun node => [Discover node; Debug (Waiting (2 * p)); Sleep (2000 * p)]) nodes.

Definition connect_events (ip : str) (p : Z) : list event :=
  Debug (Text (lit "Testing out the cluster.")) :: NewCluster ip p
  :: settle_events p (node_list options).

(** What the submission loop leaves in the log. *)
Definition submit_events (nodes : list str) : list event :=
  flat_map (fun node => [Debug (Text (lit "Sending job to " ++ node));
                         Submit (job_id node) node]) nodes.

(** The milliseconds slept, and the calls of each kind, in a log. *)
Fixpoint slept (l : list event) : Z :=
  match l with
  | [] => 0
  | Sleep ms :: l' => ms + slept l'
  | _ :: l' => slept l'
  end.

Definition is_NewCluster (ev : event) : bool :=
  match ev with
  | NewCluster _ _ => true
  | _ => false
  end.

Definition is_Submit (ev : event) : bool :=
  match ev with
  | Submit _ _ => true
  | _ => false
  end.

Definition is_backend_call (ev : event) : bool :=
  match ev with
  | Debug _ | Error _ => false
  | _ => true
  end.

Definition calls (kind : event -> bool) (l : list event) : nat :=
  List.length (filter kind l).

(** Lines 359-366 of [ReadOptions.__init__]: the object is built, which tests
    the cluster, and tested once more; an [Exception] ends the process. *)
Definition jobserver_check (fuel : nat) : M unit :=
  try_except
    (debug (Text (lit "Testing JobServer connection.")) ;;
     __init__ fuel ;;
     cluster_test fuel ;;
     debug (Text (lit "JobServer connected.")))
    (fun e => if is_Exception e then Some (error (Uncaught e) ;; sys_exit) else None).

(** ** Steps run forward *)

Lemma call_run {A : Type} ev (f : World -> outcome A * World) s :
  call ev f s = Some (fst (f (world s)), in_world (logged s [ev]) (snd (f (world s)))).
Proof. unfold call. destruct (f (world s)). reflexivity. Qed.

Lemma get_head_node_run s :
  get_head_node s =
  match head_node options with
  | Some ip => Some (Ret ip, s)
  | None => Some (Raise (OtherException "KeyError" (lit "'head_node'")), s)
  end.
Proof. unfold get_head_node. destruct (head_node options); reflexivity. Qed.

Lemma int_ping_interval_run s :
  int_ping_interval s =
  match ping_interval options with
  | Some n => Some (Ret n, s)
  | None => Some (Raise (OtherException "ValueError" (lit "ping_interval")), s)
  end.
Proof. unfold int_ping_interval. destruct (ping_interval options); reflexivity. Qed.

Lemma time_sleep_run ms s :
  time_sleep ms s =
  if (ms <? 0)%Z
  then Some (Raise (OtherException "ValueError" (lit "sleep length must be non-negative")), s)
  else Some (Ret tt, in_world (logged s [Sleep ms]) (sleep dispy ms (world s))).
Proof. unfold time_sleep. destruct (ms <? 0)%Z; reflexivity. Qed.

Lemma in_world_logged s evs w evs' :
  logged (in_world (logged s evs) w) evs' = in_world (logged s (evs ++ evs')) w.
Proof. unfold logged, in_world. simpl. rewrite app_assoc. reflexivity. Qed.

(** One turn of the loop of [connect], run forward. *)
Lemma settle_run node s h p :
  cluster s = Some h ->
  ping_interval options = Some p ->
  settle node s =
  let w := snd (discover_nodes dispy h node (world s)) in
  match fst (discover_nodes dispy h node (world s)) with
  | Ret _ =>
      if (2000 * p <? 0)%Z
      then Some (Raise (OtherException "ValueError"
                          (lit "sleep length must be non-negative")),
                 in_world (logged s [Discover node; Debug (Waiting (2 * p))]) w)
      else Some (Ret tt,
                 in_world (logged s [Discover node; Debug (Waiting (2 * p));
                                     Sleep (2000 * p)])
                          (sleep dispy (2000 * p) w))
  | Raise e => Some (Raise e, in_world (logged s [Discover node]) w)
  end.
Proof.
  intros Hh Hp. unfold settle.
  rewrite (bind_ret _ _ _ _ _ (the_cluster_run _ _ Hh)).
  unfold bind at 1. rewrite call_run.
  destruct (discover_nodes dispy h node (world s)) as [[u|e] w]; cbn [fst snd]; [|reflexivity].
  unfold bind at 1. rewrite int_ping_interval_run, Hp.
  unfold bind at 1, debug. rewrite emit_logged.
  unfold bind at 1. rewrite int_ping_interval_run, Hp.
  rewrite time_sleep_run.
  destruct (2000 * p <? 0)%Z; unfold in_world, logged; simpl;
    rewrite <- ?app_assoc; reflexivity.
Qed.

(** The loop of [connect], when it returns. *)
Lemma settle_loop_ret nodes :
  forall s s' h p,
    cluster s = Some h ->
    ping_interval options = Some p ->
    for_each nodes settle s = Some (Ret tt, s') ->
    (nodes = [] \/ (0 <= p)%Z) /\
    cluster s' = Some h /\ tested s' = tested s /\
    log s' = log s ++ settle_events p nodes.
Proof.
  induction nodes as [|node nodes IH]; intros s s' h p Hh Hp H.
  - inversion H; subst. rewrite app_nil_r. auto.
  - cbn [for_each] in H. apply bind_ret_inv in H as (u & s1 & H1 & H).
    rewrite (settle_run _ _ _ _ Hh Hp) in H1. cbv zeta in H1.
    destruct (fst (discover_nodes dispy h node (world s))); [|discriminate].
    destruct (2000 * p <? 0)%Z eqn:Ep; [discriminate|].
    inversion H1; subst s1; clear H1.
    apply (IH _ _ h p) in H as (_ & Hc & Ht & Hl); [|exact Hh|exact Hp].
    repeat split; auto.
    + right. apply Z.ltb_ge in Ep. lia.
    + rewrite Hl. unfold settle_events. simpl. rewrite <- app_assoc. reflexivity.
Qed.

Lemma slept_app l l' : slept (l ++ l') = (slept l + slept l')%Z.
Proof.
  induction l as [|ev l IH]; simpl; [reflexivity|].
  destruct ev; rewrite IH; lia.
Qed.

Lemma slept_settle_events p nodes :
  slept (settle_events p nodes) = (2000 * p * Z.of_nat (List.length nodes))%Z.
Proof.
  induction nodes as [|node nodes IH]; [simpl; lia|].
  change (settle_events p (node :: nodes))
    with ([Discover node; Debug (Waiting (2 * p)); Sleep (2000 * p)] ++ settle_events p nodes).
  rewrite slept_app, IH. cbn [slept List.length]. lia.
Qed.

Lemma connect_unfold :
  connect =
  try_except
    (debug (Text (lit "Testing out the cluster.")) ;;
     ip <- get_head_node ;;
     ping <- int_ping_interval ;;
     c <- call (NewCluster ip ping) (JobCluster dispy ip ping) ;;
     set_cluster (Some c) ;;
     for_each (node_list options) settle)
    exit_clauses.
Proof. reflexivity. Qed.

(** A return of [connect], read backwards. *)
Lemma connect_ret_inv (s s' : state) :
  connect s = Some (Ret tt, s') ->
  exists ip p h,
    head_node options = Some ip /\
    ping_interval options = Some p /\
    (node_list options = [] \/ (0 <= p)%Z) /\
    fst (JobCluster dispy ip p (world s)) = Ret h /\
    cluster s' = Some h /\
    tested s' = tested s /\
    log s' = log s ++ connect_events ip p.
Proof.
  rewrite connect_unfold. intros H. apply try_exit_ret in H.
  apply bind_ret_inv in H as (u & s1 & Ea & H).
  unfold debug in Ea. rewrite emit_logged in Ea. injection Ea as Es1. subst s1.
  apply bind_ret_inv in H as (ip & s2 & Eb & H).
  rewrite get_head_node_run in Eb.
  destruct (head_node options) as [ip'|] eqn:Eip; [|discriminate].
  injection Eb as Eip' Es2. subst ip' s2.
  apply bind_ret_inv in H as (p & s3 & Ec & H).
  rewrite int_ping_interval_run in Ec.
  destruct (ping_interval options) as [p'|] eqn:Ep; [|discriminate].
  injection Ec as Ep' Es3. subst p' s3.
  apply bind_ret_inv in H as (h & s4 & Ed & H).
  rewrite call_run in Ed. injection Ed as Hh Hs4.
  apply bind_ret_inv in H as (u' & s5 & Ee & H).
  unfold set_cluster in Ee. injection Ee as Es5. subst s5.
  apply (settle_loop_ret _ _ _ h p) in H as (Hn & Hc & Ht & Hl);
    [|reflexivity|exact Ep].
  exists ip, p, h. subst s4. simpl in *.
  repeat split; auto.
  rewrite Hl. unfold connect_events. rewrite <- !app_assoc. reflexivity.
Qed.

(** X1.  When [connect] returns, the options hold a head node and an integer
    ping interval; the backend was asked for one cluster, which is now
    [self.cluster], and then, for each node of the list in order, to discover
    it, each request followed by a sleep of twice the ping interval: the
    time slept is [2 * ping_interval] seconds per node.  With a node to
    discover, the ping interval is not negative. *)
Theorem connect_trace (s s' : state) :
  connect s = Some (Ret tt, s') ->
  exists ip p h,
    head_node options = Some ip /\
    ping_interval options = Some p /\
    (node_list options = [] \/ (0 <= p)%Z) /\
    fst (JobCluster dispy ip p (world s)) = Ret h /\
    cluster s' = Some h /\
    tested s' = tested s /\
    log s' = log s ++ connect_events ip p /\
    slept (log s')
    = (slept (log s) + 2000 * p * Z.of_nat (List.length (node_list options)))%Z.
Proof.
  intros H. apply connect_ret_inv in H as (ip & p & h & Hip & Hp & Hn & Hh & Hc & Ht & Hl).
  exists ip, p, h. repeat (split; [assumption|]).
  rewrite Hl, slept_app. unfold connect_events. cbn [slept].
  rewrite slept_settle_events. reflexivity.
Qed.

(** The submission loop, when it returns: one submission per node, in the
    order of the list. *)
Lemma submit_all_ret nodes :
  forall jobs s js s',
    submit_all nodes jobs s = Some (Ret js, s') ->
    log s' = log s ++ submit_events nodes /\
    exists answers, js = jobs ++ answers /\ List.length answers = List.length nodes.
Proof.
  induction nodes as [|node nodes IH]; intros jobs s js s' H; simpl in H.
  - injection H as Ejs Es. subst. rewrite !app_nil_r. split; [reflexivity|].
    exists []. rewrite app_nil_r. auto.
  - apply bind_ret_inv in H as (u & s1 & Ea & H).
    unfold debug in Ea. rewrite emit_logged in Ea. injection Ea as Es1. subst s1.
    apply bind_ret_inv in H as (h & s2 & Eb & H).
    pose proof (the_cluster_any (fun x => x) _ _ _ Eb) as Es2. simpl in Es2. subst s2.
    apply bind_ret_inv in H as (job & s3 & Ec & H).
    rewrite call_run in Ec. injection Ec as _ Es3. subst s3.
    apply IH in H as (Hl & answers & -> & Hlen). split.
    + rewrite Hl. unfold submit_events. simpl. rewrite <- !app_assoc. reflexivity.
    + exists (job :: answers). rewrite <- app_assoc. simpl. auto.
Qed.

(** A return of [cluster_test], read backwards. *)
Lemma cluster_test_ret_inv (fuel : nat) (s s' : state) :
  cluster_test fuel s = Some (Ret tt, s') ->
  exists ip p h js k w,
    head_node options = Some ip /\
    ping_interval options = Some p /\
    List.length js = List.length (node_list options) /\
    k < fuel /\
    cluster s' = Some h /\
    tested s' = true /\
    log s' = log s
             ++ Debug (Text (lit "Testing out the cluster."))
             :: connect_events ip p
             ++ submit_events (node_list options)
             ++ poll_events k ++ [Wait]
             ++ report_events js w
             ++ [Debug (Text (lit "Shutting down cluster.")); Shutdown].
Proof.
  intros H. unfold cluster_test, try_finally in H.
  destruct (try_except (test_body fuel) exit_clauses s) as [[r0 s0]|] eqn:E; [|discriminate].
  rewrite release_run in H.
  assert (Hr0 : r0 = Ret tt).
  { destruct (cluster s0).
    - destruct (fst (shutdown dispy c (world s0))); [|discriminate].
      injection H as Hr _. exact Hr.
    - injection H as Hr _. exact Hr. }
  subst r0. apply try_exit_ret in E.
  apply test_body_ret in E as (js & s1 & s2 & Hs & Hw & ->).
  unfold submit_probes in Hs.
  apply bind_ret_inv in Hs as (u & sa & Ea & Hs).
  unfold debug in Ea. rewrite emit_logged in Ea. injection Ea as Esa. subst sa.
  apply bind_ret_inv in Hs as ([] & sb & Hc & Hs).
  apply connect_ret_inv in Hc as (ip & p & h & Hip & Hp & _ & _ & Hcl & _ & Hlc).
  pose proof (submit_all_cluster _ _ _ _ _ Hs) as Hcl1. rewrite Hcl in Hcl1.
  apply submit_all_ret in Hs as (Hls & answers & Hjs & Hlen).
  simpl in Hjs. subst answers. rewrite length_map in Hlen.
  destruct (wait_loop_ended _ _ _ _ Hcl1 Hw) as (k & Hk & Hbefore & Hat).
  rewrite (wait_loop_ends k fuel s1 h Hcl1 Hk Hbefore Hat) in Hw.
  injection Hw as Es2. subst s2. cbn [cluster in_world logged] in H. rewrite Hcl1 in H.
  cbn [world in_world logged] in H.
  destruct (fst (shutdown dispy h (snd (wait dispy h (after_polls h k (world s1))))));
    [|discriminate].
  injection H as Es'. subst s'.
  exists ip, p, h, js, k, (snd (wait dispy h (after_polls h k (world s1)))).
  cbn [cluster tested log in_world logged]. repeat split; auto.
  rewrite Hls, Hlc. cbn [log logged]. rewrite <- !app_assoc. reflexivity.
Qed.

Lemma slept_submit_events nodes : slept (submit_events nodes) = 0%Z.
Proof. induction nodes as [|node nodes IH]; [reflexivity|exact IH]. Qed.

Lemma slept_poll_events k : slept (poll_events k) = (100 * Z.of_nat k)%Z.
Proof.
  induction k as [|k IH]; [reflexivity|].
  cbn [poll_events slept]. rewrite IH. lia.
Qed.

Lemma slept_debug_lines {A : Type} (g : A -> message) (l : list A) :
  slept (List.map (fun x => Debug (g x)) l) = 0%Z.
Proof. induction l as [|x l IH]; [reflexivity|exact IH]. Qed.

Lemma slept_report_events js w : slept (report_events js w) = 0%Z.
Proof.
  unfold report_events. cbn [slept]. rewrite !slept_app.
  rewrite (slept_debug_lines
             (fun j => Text (lit "Node worked! " ++ job_result dispy j w ++ lit "."))),
    (slept_debug_lines (fun node => Text (lit "Sending files to " ++ node ++ lit "."))).
  reflexivity.
Qed.

(** X2.  The whole of a run that [cluster_test] returns from, as the log and
    the backend saw it: the connection (one cluster, each node discovered and
    waited for), one submission per node in the order of the list under the
    id [InitialTest-<node>], the polls of the wait with 0.1 s between them,
    one result line per handle, and one [shutdown] at the end.  The time
    slept is [2 * ping_interval] seconds per node and 0.1 s per poll that
    found the jobs unfinished. *)
Theorem successful_run_trace (fuel : nat) (s s' : state) :
  cluster_test fuel s = Some (Ret tt, s') ->
  exists ip p h js k w,
    head_node options = Some ip /\
    ping_interval options = Some p /\
    List.length js = List.length (node_list options) /\
    k < fuel /\
    cluster s' = Some h /\
    tested s' = true /\
    log s' = log s
             ++ Debug (Text (lit "Testing out the cluster."))
             :: connect_events ip p
             ++ submit_events (node_list options)
             ++ poll_events k ++ [Wait]
             ++ report_events js w
             ++ [Debug (Text (lit "Shutting down cluster.")); Shutdown] /\
    slept (log s')
    = (slept (log s) + 2000 * p * Z.of_nat (List.length (node_list options))
       + 100 * Z.of_nat k)%Z.
Proof.
  intros H.
  apply cluster_test_ret_inv in H
    as (ip & p & h & js & k & w & Hip & Hp & Hlen & Hk & Hc & Ht & Hl).
  exists ip, p, h, js, k, w. repeat (split; [assumption|]).
  rewrite Hl. unfold connect_events.
  rewrite !slept_app. cbn [slept]. rewrite !slept_app. cbn [slept].
  rewrite slept_settle_events, slept_submit_events, slept_poll_events, slept_report_events.
  cbn [slept]. lia.
Qed.

(** ** Runs that fail before the first submission *)

Lemma exit_clauses_none {A : Type} e :
  @exit_clauses A e = None <-> is_Exception e = false.
Proof. destruct e; simpl; split; intros H; congruence. Qed.

Definition error_line (e : exn) : message :=
  match e with
  | ConnectionError _ => StrOf e
  | _ => Uncaught e
  end.

(** A [try] closed by the two exit clauses, whose body raises. *)
Lemma try_exit_raise {A : Type} (m : M A) s e s1 :
  m s = Some (Raise e, s1) ->
  try_except m exit_clauses s =
  if is_Exception e
  then Some (Raise (SystemExit 1), logged s1 [Error (error_line e)])
  else Some (Raise e, s1).
Proof.
  intros H. unfold try_except. rewrite H.
  destruct e; reflexivity.
Qed.

(** [connect], run forward up to the creation of the cluster. *)
Lemma connect_run s :
  connect s =
  let s0 := logged s [Debug (Text (lit "Testing out the cluster."))] in
  match head_node options with
  | None =>
      Some (Raise (SystemExit 1),
            logged s0 [Error (Uncaught (OtherException "KeyError" (lit "'head_node'")))])
  | Some ip =>
      match ping_interval options with
      | None =>
          Some (Raise (SystemExit 1),
                logged s0 [Error (Uncaught (OtherException "ValueError" (lit "ping_interval")))])
      | Some p =>
          let s1 := in_world (logged s0 [NewCluster ip p])
                             (snd (JobCluster dispy ip p (world s))) in
          match fst (JobCluster dispy ip p (world s)) with
          | Raise e =>
              if is_Exception e
              then Some (Raise (SystemExit 1), logged s1 [Error (error_line e)])
              else Some (Raise e, s1)
          | Ret h =>
              try_except
                (for_each (node_list options) settle)
                exit_clauses
                {| cluster := Some h; tested := tested s1; world := world s1; log := log s1 |}
          end
      end
  end.
Proof.
  rewrite connect_unfold. cbv zeta. unfold try_except at 1.
  unfold bind at 1, debug. rewrite emit_logged.
  unfold bind at 1. rewrite get_head_node_run.
  destruct (head_node options) as [ip|]; [|reflexivity].
  unfold bind at 1. rewrite int_ping_interval_run.
  destruct (ping_interval options) as [p|]; [|reflexivity].
  unfold bind at 1. rewrite call_run. cbn [world logged].
  destruct (fst (JobCluster dispy ip p (world s))) as [h|e].
  - unfold bind at 1, set_cluster. reflexivity.
  - destruct e; reflexivity.
Qed.

(** [cluster_test] when [connect] has ended the process. *)
Lemma cluster_test_connect_exit fuel s c s1 :
  connect (logged s [Debug (Text (lit "Testing out the cluster."))])
  = Some (Raise (SystemExit c), s1) ->
  cluster_test fuel s =
  match release s1 with
  | Some (Ret _, s2) => Some (Raise (SystemExit c), s2)
  | Some (Raise e, s2) => Some (Raise e, s2)
  | None => None
  end.
Proof.
  intros H.
  assert (Hb : test_body fuel s = Some (Raise (SystemExit c), s1)).
  { unfold test_body, submit_probes. apply bind_raise.
    unfold bind at 1, debug. rewrite emit_logged. apply bind_raise. exact H. }
  unfold cluster_test, try_finally. rewrite (try_exit_raise _ _ _ _ Hb). reflexivity.
Qed.

Lemma calls_app kind l l' : calls kind (l ++ l') = calls kind l + calls kind l'.
Proof. unfold calls. rewrite filter_app, length_app. reflexivity. Qed.

(** X3.  Without a head node or without an integer ping interval in the
    options, a fresh [JobServer] ends the process with status 1 before any
    call of the backend: the world is as it was, and no cluster is held. *)
Theorem missing_option_no_backend_call (fuel : nat) (s : state) :
  cluster s = None ->
  head_node options = None \/ ping_interval options = None ->
  exists s',
    cluster_test fuel s = Some (Raise (SystemExit 1), s') /\
    world s' = world s /\
    cluster s' = None /\
    tested s' = tested s /\
    calls is_backend_call (log s') = calls is_backend_call (log s).
Proof.
  intros Hc Hmiss.
  assert (H : exists ev,
             connect (logged s [Debug (Text (lit "Testing out the cluster."))])
             = Some (Raise (SystemExit 1),
                     logged s [Debug (Text (lit "Testing out the cluster."));
                               Debug (Text (lit "Testing out the cluster."));
                               Error ev])).
  { rewrite connect_run. cbv zeta. rewrite !logged_logged.
    destruct (head_node options) as [ip|]; [|eexists; reflexivity].
    destruct Hmiss as [Hm|Hm]; [discriminate|]. rewrite Hm. eexists. reflexivity. }
  destruct H as [ev H].
  rewrite (cluster_test_connect_exit _ _ _ _ H), release_run.
  cbn [cluster logged]. rewrite Hc. eexists. split; [reflexivity|].
  cbn [world cluster tested log logged]. repeat split; auto.
  rewrite <- app_assoc, calls_app. unfold calls at 2. simpl. lia.
Qed.

(** X4.  When the backend refuses the cluster with an [Exception], a fresh
    [JobServer] logs it and ends the process with status 1; it holds no
    cluster, so that the [finally] block calls no [shutdown]: the one call
    the backend saw is the refused creation. *)
Theorem cluster_creation_failure (fuel : nat) (s : state) ip p e :
  cluster s = None ->
  head_node options = Some ip ->
  ping_interval options = Some p ->
  fst (JobCluster dispy ip p (world s)) = Raise e ->
  is_Exception e = true ->
  cluster_test fuel s
  = Some (Raise (SystemExit 1),
          in_world
            (logged s [Debug (Text (lit "Testing out the cluster."));
                       Debug (Text (lit "Testing out the cluster."));
                       NewCluster ip p;
                       Error (error_line e);
                       Debug (Text (lit "Shutting down cluster."))])
            (snd (JobCluster dispy ip p (world s)))).
Proof.
  intros Hc Hip Hp He Hexc.
  assert (H : connect (logged s [Debug (Text (lit "Testing out the cluster."))])
              = Some (Raise (SystemExit 1),
                      in_world
                        (logged s [Debug (Text (lit "Testing out the cluster."));
                                   Debug (Text (lit "Testing out the cluster."));
                                   NewCluster ip p;
                                   Error (error_line e)])
                        (snd (JobCluster dispy ip p (world s))))).
  { rewrite connect_run. cbv zeta. rewrite Hip, Hp. cbn [world logged].
    rewrite He, Hexc. unfold in_world, logged. cbn [cluster tested world log].
    rewrite <- !app_assoc. reflexivity. }
  rewrite (cluster_test_connect_exit _ _ _ _ H), release_run.
  cbn [cluster logged in_world]. rewrite Hc.
  unfold in_world, logged. cbn [cluster tested world log].
  rewrite <- !app_assoc. reflexivity.
Qed.


(** ** What leaves [cluster_test] *)

Lemma try_exit_raises {A : Type} (m : M A) s e s' :
  try_except m exit_clauses s = Some (Raise e, s') -> is_Exception e = false.
Proof.
  unfold try_except. destruct (m s) as [[[a|e0] s1]|] eqn:E; intros H; try discriminate.
  destruct (exit_clauses e0) as [k|] eqn:Ek.
  - rewrite (exit_clauses_run _ _ s1 Ek) in H. injection H as He _. subst e. reflexivity.
  - injection H as He _. subst e. apply exit_clauses_none in Ek. exact Ek.
Qed.

(** X6.  No [Exception] of the connection, the submissions, the wait or the
    report leaves [cluster_test]: each is logged and turned into the exit of
    the process.  An [Exception] that does leave it was raised by the
    backend's [shutdown] in the [finally] block. *)
Theorem only_shutdown_exceptions_escape (fuel : nat) (s : state) e s' :
  cluster_test fuel s = Some (Raise e, s') ->
  is_Exception e = true ->
  exists h s0,
    cluster s0 = Some h /\
    fst (shutdown dispy h (world s0)) = Raise e /\
    s' = in_world (logged s0 [Debug (Text (lit "Shutting down cluster.")); Shutdown])
                  (snd (shutdown dispy h (world s0))).
Proof.
  unfold cluster_test, try_finally. intros H He.
  destruct (try_except (test_body fuel) exit_clauses s) as [[r0 s0]|] eqn:E; [|discriminate].
  rewrite release_run in H.
  destruct (cluster s0) as [h|] eqn:Ec.
  - destruct (fst (shutdown dispy h (world s0))) as [u|e'] eqn:Es.
    + injection H as Hr _. subst r0. apply try_exit_raises in E. congruence.
    + injection H as He' Hs'. subst e'. exists h, s0. auto.
  - injection H as Hr _. subst r0. apply try_exit_raises in E. congruence.
Qed.

(** ** The check of [ReadOptions] *)

Lemma init_is_cluster_test fuel s :
  __init__ fuel s
  = cluster_test fuel {| cluster := None; tested := false; world := world s; log := log s |}.
Proof.
  unfold __init__, bind, set_cluster, set_tested, get_tested. simpl.
  destruct (cluster_test fuel _) as [[[u|e] s1]|] eqn:E; try reflexivity.
  destruct u. rewrite (cluster_test_ret_tested _ _ _ E). reflexivity.
Qed.

Lemma calls_settle_events kind p nodes :
  kind (Debug (Waiting (2 * p))) = false ->
  (forall node, kind (Discover node) = false) ->
  kind (Sleep (2000 * p)) = false ->
  calls kind (settle_events p nodes) = 0.
Proof.
  intros H1 H2 H3. unfold calls. induction nodes as [|node nodes IH]; [reflexivity|].
  unfold settle_events in *. cbn [flat_map app filter]. rewrite H1, H2, H3. exact IH.
Qed.

Lemma calls_submit_events nodes :
  calls is_Submit (submit_events nodes) = List.length nodes /\
  calls is_NewCluster (submit_events nodes) = 0 /\
  calls is_Shutdown (submit_events nodes) = 0.
Proof.
  unfold calls. induction nodes as [|node nodes (IH1 & IH2 & IH3)]; [auto|].
  simpl. rewrite IH1. auto.
Qed.

Lemma calls_poll_events kind k :
  kind Wait = false -> kind (Sleep 100) = false -> calls kind (poll_events k) = 0.
Proof.
  intros H1 H2. unfold calls. induction k as [|k IH]; [reflexivity|].
  simpl. rewrite H1, H2. exact IH.
Qed.

Lemma calls_debug_lines kind {A : Type} (g : A -> message) (l : list A) :
  (forall m, kind (Debug m) = false) ->
  calls kind (List.map (fun x => Debug (g x)) l) = 0.
Proof.
  intros H. unfold calls. induction l as [|x l IH]; [reflexivity|].
  simpl. rewrite H. exact IH.
Qed.

Lemma calls_report_events kind js w :
  (forall m, kind (Debug m) = false) -> calls kind (report_events js w) = 0.
Proof.
  intros H. unfold report_events.
  change (Debug JobsTook :: ?l) with ([Debug JobsTook] ++ l).
  rewrite !calls_app, !calls_debug_lines by exact H.
  unfold calls. simpl. rewrite !H. reflexivity.
Qed.

Definition count_if (b : bool) : nat := if b then 1 else 0.

Lemma calls_cons kind ev l : calls kind (ev :: l) = count_if (kind ev) + calls kind l.
Proof. unfold calls. simpl. destruct (kind ev); reflexivity. Qed.

Lemma calls_run_events kind ip p nodes k js w :
  (forall m, kind (Debug m) = false) ->
  (forall node, kind (Discover node) = false) ->
  (forall ms, kind (Sleep ms) = false) ->
  kind Wait = false ->
  calls kind (Debug (Text (lit "Testing out the cluster."))
              :: (Debug (Text (lit "Testing out the cluster.")) :: NewCluster ip p
                  :: settle_events p nodes)
              ++ submit_events nodes
              ++ poll_events k ++ [Wait]
              ++ report_events js w
              ++ [Debug (Text (lit "Shutting down cluster.")); Shutdown])
  = count_if (kind (NewCluster ip p)) + calls kind (submit_events nodes)
    + count_if (kind Shutdown).
Proof.
  intros Hd Hn Hs Hw.
  cbn [app]. repeat (rewrite ?calls_cons, ?calls_app).
  rewrite calls_settle_events, calls_poll_events, calls_report_events; auto.
  rewrite !Hd, Hw. unfold calls at 2. simpl. lia.
Qed.

(** The calls of a run that returns: one cluster, one submission per node,
    one shutdown. *)
Lemma successful_run_calls fuel s s' :
  cluster_test fuel s = Some (Ret tt, s') ->
  calls is_NewCluster (log s') = calls is_NewCluster (log s) + 1 /\
  calls is_Submit (log s') = calls is_Submit (log s) + List.length (node_list options) /\
  calls is_Shutdown (log s') = calls is_Shutdown (log s) + 1 /\
  exists h, cluster s' = Some h.
Proof.
  intros H.
  apply cluster_test_ret_inv in H
    as (ip & p & h & js & k & w & _ & _ & _ & _ & Hc & _ & Hl).
  destruct (calls_submit_events (node_list options)) as (S1 & S2 & S3).
  unfold connect_events in Hl.
  rewrite Hl, !calls_app, !calls_run_events, S1, S2, S3 by reflexivity.
  simpl. repeat split; try lia. eauto.
Qed.

Lemma calls_one_debug kind m : kind (Debug m) = false -> calls kind [Debug m] = 0.
Proof. intros H. unfold calls. simpl. rewrite H. reflexivity. Qed.


(** X8.  The job ids of a run are pairwise distinct exactly when the node
    names of the list are. *)
Theorem job_ids_distinct (nodes : list str) :
  NoDup (List.map job_id nodes) <-> NoDup nodes.
Proof.
  assert (Hinj : forall a b, job_id a = job_id b -> a = b).
  { intros a b H. unfold job_id in H. apply app_inv_head in H. exact H. }
  induction nodes as [|n nodes IH]; simpl; split; intros H; try constructor;
    inversion H as [|x l Hn Hd]; subst.
  - intros Hin. apply Hn. apply in_map. exact Hin.
  - apply IH. exact Hd.
  - intros Hin. apply in_map_iff in Hin as (m & Hm & Hin). apply Hinj in Hm. subst m. auto.
  - apply IH. exact Hd.
Qed.

(** * More of the filename grammars and of the scan *)

Lemma findall_skip p k :
  forall s, k <= List.length s -> findall_from p k s = findall_from p 0 (skipn k s).
Proof.
  induction k as [|k IH]; intros s Hk; [reflexivity|].
  destruct s as [|c r]; [simpl in Hk; lia|].
  cbn [findall_from skipn]. apply IH. simpl in Hk. lia.
Qed.

Lemma compressed_name_length f :
  well_formed f = true -> List.length (compressed_name f) = 14.
Proof.
  intros Hf. unfold compressed_name. rewrite length_app, (stem_length _ Hf). reflexivity.
Qed.

Lemma plain_name_length f :
  well_formed f = true -> List.length (plain_name f) = 12.
Proof.
  intros Hf. unfold plain_name. rewrite length_app, (stem_length _ Hf). reflexivity.
Qed.

(** A pattern whose matches have a fixed length of two characters or more
    and end where [$] holds is found at most once. *)
Lemma findall_at_most_one p n :
  (forall t gs rest,
     match_here p t = Some (gs, rest) ->
     exists body, t = body ++ rest /\ List.length body = S (S n) /\ at_end rest = true) ->
  forall s, List.length (findall_from p 0 s) <= 1.
Proof.
  intros Hm.
  assert (Hshort : forall t, List.length t <= 1 -> match_here p t = None).
  { intros t Ht. destruct (match_here p t) as [[gs rest]|] eqn:E; [|reflexivity].
    apply Hm in E as (body & -> & Hb & _). rewrite length_app in Ht. lia. }
  assert (Hrest : forall rest, at_end rest = true -> findall_from p 0 rest = []).
  { intros rest He. apply at_end_cases in He as [-> | ->].
    - simpl. rewrite Hshort by (simpl; lia). reflexivity.
    - cbn [findall_from]. rewrite !Hshort by (simpl; lia). reflexivity. }
  induction s as [|c r IH].
  - simpl. rewrite Hshort by (simpl; lia). simpl. lia.
  - cbn [findall_from].
    destruct (match_here p (c :: r)) as [[gs rest]|] eqn:E; [|exact IH].
    apply Hm in E as (body & Hb & Hl & He).
    destruct body as [|c' body]; [discriminate|].
    simpl in Hb. injection Hb as _ Hr. subst r. simpl in Hl.
    cbn [List.length]. rewrite length_app.
    replace (S (List.length body + List.length rest) - List.length rest - 1)
      with (List.length body) by lia.
    rewrite findall_skip by (rewrite length_app; lia).
    rewrite skipn_app, skipn_all, Nat.sub_diag. simpl skipn.
    cbn [app]. rewrite (Hrest _ He). simpl. lia.
Qed.

(** X9.  [findall] finds either pattern at most once in a filename, so that
    taking the first tuple, as both functions do, leaves none behind. *)
Theorem one_tuple_at_most (s : str) :
  List.length (findall_from crinex_pattern 0 s) <= 1 /\
  List.length (findall_from rinex_pattern 0 s) <= 1.
Proof.
  split.
  - apply (findall_at_most_one crinex_pattern 12). intros t gs rest E.
    apply match_crinex_some in E as (f & Hf & -> & _ & He).
    exists (compressed_name f). rewrite (compressed_name_length _ Hf). auto.
  - apply (findall_at_most_one rinex_pattern 10). intros t gs rest E.
    apply match_rinex_some in E as (f & Hf & -> & _ & He).
    exists (plain_name f). rewrite (plain_name_length _ Hf). auto.
Qed.

Lemma last_char_differs (a b : str) (x y : N) (suf suf' : str) :
  x <> y -> x <> newline -> y <> newline ->
  at_end suf = true -> at_end suf' = true ->
  (a ++ [x]) ++ suf = (b ++ [y]) ++ suf' -> False.
Proof.
  intros Hxy Hx Hy He He' H. apply at_end_cases in He, He'.
  destruct He as [-> | ->], He' as [-> | ->]; rewrite ?app_nil_r in H.
  - apply app_inj_tail in H as [_ H]. contradiction.
  - apply app_inj_tail in H as [_ H]. contradiction.
  - apply app_inj_tail in H as [_ H]. symmetry in H. contradiction.
  - apply app_inj_tail in H as [H _]. apply app_inj_tail in H as [_ H]. contradiction.
Qed.

(** X10.  No filename is matched by both patterns: when
    [parse_crinex_filename] returns a tuple, [parse_rinex_filename] returns
    the empty list, and the other way round. *)
Theorem grammars_exclude_each_other (s : str) (t : list str) :
  (parse_crinex_filename (PyStr s) = Ret (VTuple t) ->
   parse_rinex_filename (PyStr s) = Ret VEmptyList) /\
  (parse_rinex_filename (PyStr s) = Ret (VTuple t) ->
   parse_crinex_filename (PyStr s) = Ret VNone).
Proof.
  assert (Hex : ends_with compressed_name s -> ends_with plain_name s -> False).
  { intros (pre & f & suf & Hf & -> & He) (pre' & f' & suf' & Hf' & H & He').
    apply at_end_cases in He, He'.
    unfold compressed_name, plain_name in H.
    change (lit "d.Z") with ([100; 46] ++ [90])%N in H.
    change (lit "o") with ([111])%N in H.
    rewrite !app_assoc in H.
    apply (last_char_differs ((pre ++ stem f) ++ [100; 46]%N) (pre' ++ stem f')
             90%N 111%N suf suf'); try discriminate; assumption. }
  rewrite parse_crinex_str, parse_rinex_str. split; intros H.
  - destruct (hd_error (findall_from rinex_pattern 0 s)) as [g|] eqn:Er; [|reflexivity].
    destruct (hd_error (findall_from crinex_pattern 0 s)) as [g'|] eqn:Ec; [|discriminate].
    exfalso. apply Hex; [apply crinex_found_iff | apply rinex_found_iff]; eauto.
  - destruct (hd_error (findall_from crinex_pattern 0 s)) as [g|] eqn:Ec; [|reflexivity].
    destruct (hd_error (findall_from rinex_pattern 0 s)) as [g'|] eqn:Er; [|discriminate].
    exfalso. apply Hex; [apply crinex_found_iff | apply rinex_found_iff]; eauto.
Qed.

(** No name of an entry at or below [x] begins with the separator (on disk,
    a name holds no separator at all). *)
Fixpoint names_ok (x : fsnode) : bool :=
  negb (startswith_sep (node_name x))
  && match x with
     | Dir _ children => forallb names_ok children
     | File _ | Locked _ _ => true
     end.

Lemma path_join_shape a b :
  startswith_sep b = false -> exists mid, path_join a b = a ++ mid ++ b.
Proof.
  intros Hb. unfold path_join. rewrite Hb.
  destruct (Nat.eqb (List.length a) 0 || endswith_sep a)%bool.
  - exists []. reflexivity.
  - exists [slash]. reflexivity.
Qed.

Lemma files_under_paths x :
  forall rootdir e,
    match x with
    | Dir _ children => forallb names_ok children = true
    | _ => True
    end ->
    In e (files_under rootdir x) ->
    exists mid, path e = rootdir ++ mid ++ name e.
Proof.
  induction x as [n|n cause|n children IH] using fsnode_nested_ind;
    intros rootdir e Hok Hin; [contradiction..|].
  cbn [files_under] in Hin. apply in_flat_map in Hin as (c & Hc & Hin).
  rewrite Forall_forall in IH. rewrite forallb_forall in Hok.
  pose proof (Hok c Hc) as Hcok.
  assert (Hname : startswith_sep (node_name c) = false).
  { destruct c; cbn [names_ok node_name] in *;
      apply andb_true_iff in Hcok as [Hname _]; apply negb_true_iff in Hname; exact Hname. }
  destruct (path_join_shape rootdir (node_name c) Hname) as [mid Hmid].
  cbv zeta in Hin. destruct (isdir c) eqn:Ed.
  - apply (IH c Hc) in Hin as [mid' Hp].
    + exists (mid ++ node_name c ++ mid'). rewrite Hp, Hmid, <- !app_assoc. reflexivity.
    + destruct c; [exact I| |exact I]. cbn [names_ok] in Hcok.
      apply andb_true_iff in Hcok as [_ Hsub]. exact Hsub.
  - destruct Hin as [<-|[]]. exists mid. exact Hmid.
Qed.

(** X11.  Every entry a scan returns lies under the directory scanned: its
    path begins with [rootdir] and ends with the entry's name, provided no
    name in the tree begins with the separator. *)
Theorem scan_paths_under_root (rootdir : str) (n : str) (children : list fsnode) found :
  forallb names_ok children = true ->
  scan_archive_struct rootdir (Dir n children) = Ret found ->
  forall e, In e found -> exists mid, path e = rootdir ++ mid ++ name e.
Proof.
  intros Hok Hscan e Hin.
  rewrite scan_outcome in Hscan by reflexivity.
  destruct (unreadable (Dir n children)); [discriminate|].
  injection Hscan as <-. apply filter_In in Hin as [Hin _].
  apply (files_under_paths (Dir n children) rootdir e Hok Hin).
Qed.

End Gpys.

Arguments cluster {World Cluster} s.
Arguments tested {World Cluster} s.
Arguments world {World Cluster} s.
Arguments log {World Cluster} s.
Arguments logged {World Cluster} s evs.
Arguments in_world {World Cluster} s w.
Arguments connect {World Cluster Job} dispy options _.
Arguments submit_probes {World Cluster Job} dispy options _.
Arguments wait_loop {World Cluster Job} dispy fuel _.
Arguments report {World Cluster Job} dispy options jobs _.
Arguments release {World Cluster Job} dispy _.
Arguments test_body {World Cluster Job} dispy options fuel _.
Arguments cluster_test {World Cluster Job} dispy options fuel _.
Arguments __init__ {World Cluster Job} dispy options fuel _.
Arguments __del__ {World Cluster Job} dispy _.
Arguments job_state {World Cluster Job} b _ _.
Arguments wait {World Cluster Job} b _ _.
Arguments shutdown {World Cluster Job} b _ _.

(** * Concrete filenames, trees and backends *)

(** A Unicode database with nothing beyond ASCII.  The names below are
    ASCII, for which the database is not consulted. *)
Definition ascii_only : N -> bool := fun _ => false.

(** ** Filenames *)

Definition abcd001a21 : fields :=
  {| station := lit "abcd"; doy := lit "001"; session := lit "a"; year := lit "21" |}.

Example classify_compressed :
  parse_crinex_filename ascii_only ascii_only (PyStr (lit "abcd001a.21d.Z"))
  = Ret (VTuple [lit "abcd"; lit "001"; lit "a"; lit "21"; lit "d"]).
Proof. vm_compute. reflexivity. Qed.

Example classify_plain :
  parse_rinex_filename ascii_only ascii_only (PyStr (lit "abcd001a.21o"))
  = Ret (VTuple [lit "abcd"; lit "001"; lit "a"; lit "21"; lit "o"]).
Proof. vm_compute. reflexivity. Qed.

Example classify_readme :
  parse_crinex_filename ascii_only ascii_only (PyStr (lit "readme.txt")) = Ret VNone /\
  parse_rinex_filename ascii_only ascii_only (PyStr (lit "readme.txt")) = Ret VEmptyList.
Proof. split; vm_compute; reflexivity. Qed.

Example classify_empty :
  parse_crinex_filename ascii_only ascii_only (PyStr []) = Ret VNone /\
  parse_rinex_filename ascii_only ascii_only (PyStr []) = Ret VEmptyList.
Proof. split; reflexivity. Qed.

(** The letters of the grammar are matched as written: an upper-case [D]
    is not the [d] of the compressed form, while the station code is
    returned in the case it has. *)
Example classify_case :
  parse_crinex_filename ascii_only ascii_only (PyStr (lit "abcd001a.21D.Z")) = Ret VNone /\
  parse_crinex_filename ascii_only ascii_only (PyStr (lit "ABCD001a.21d.Z"))
  = Ret (VTuple [lit "ABCD"; lit "001"; lit "a"; lit "21"; lit "d"]).
Proof. split; vm_compute; reflexivity. Qed.

(** C6, counterexample.  Two characters before a valid compressed name: the
    filename is not a name of the grammar, and [parse_crinex_filename]
    reports a match all the same. *)
Lemma leading_characters_still_match :
  parse_crinex_filename ascii_only ascii_only (PyStr (lit "xxabcd001a.21d.Z"))
  = Ret (VTuple [lit "abcd"; lit "001"; lit "a"; lit "21"; lit "d"]) /\
  ~ anchored_compressed ascii_only ascii_only (lit "xxabcd001a.21d.Z").
Proof.
  split; [vm_compute; reflexivity|].
  intros (f & Hf & E). apply (f_equal (@List.length N)) in E.
  unfold compressed_name in E. rewrite length_app, (stem_length _ _ _ Hf) in E.
  vm_compute in E. discriminate.
Qed.

(** C6, witness: a final newline after the name, and characters before it. *)
Lemma parse_anchored_at_end_only_witness :
  parse_crinex_filename ascii_only ascii_only
    (PyStr (lit "old-" ++ lit "abcd001a.21d.Z" ++ [newline]))
  = Ret (VTuple [lit "abcd"; lit "001"; lit "a"; lit "21"; lit "d"]).
Proof.
  destruct (parse_anchored_at_end_only ascii_only ascii_only []) as (_ & _ & H).
  destruct (H (lit "old-") abcd001a21 [newline] eq_refl (or_intror eq_refl)) as [Hc _].
  exact Hc.
Defined.


(** ** Trees *)

Definition entry_at (dir n : string) : DirEntry :=
  {| name := lit n; path := lit dir ++ slash :: lit n |}.

(** Three compressed files and two unrelated ones, in two nested
    directories. *)
Definition small_archive : fsnode :=
  Dir (lit "archive")
    [File (lit "readme.txt");
     Dir (lit "2021")
       [File (lit "abcd001a.21d.Z");
        Dir (lit "001")
          [File (lit "efgh001a.21d.Z"); File (lit "notes"); File (lit "ijkl001b.21d.Z")]]].

Example scan_small_archive :
  scan_archive_struct ascii_only ascii_only (lit "/archive") small_archive
  = Ret [entry_at "/archive/2021" "abcd001a.21d.Z";
         entry_at "/archive/2021/001" "efgh001a.21d.Z";
         entry_at "/archive/2021/001" "ijkl001b.21d.Z"].
Proof. vm_compute. reflexivity. Qed.

(** A readable directory beside one that cannot be listed. *)
Definition archive_with_locked : fsnode :=
  Dir (lit "archive")
    [Dir (lit "2021") [File (lit "abcd001a.21d.Z")];
     Locked (lit "private") (lit "Permission denied")].

(** C4, counterexample.  One subdirectory cannot be listed: the scan returns
    nothing at all, although the readable sibling holds an entry, which a
    scan of that sibling alone returns. *)
Lemma unreadable_directory_aborts_scan :
  scan_archive_struct ascii_only ascii_only (lit "/archive") archive_with_locked
  = Raise (SystemExit 1) /\
  scan_archive_struct ascii_only ascii_only (lit "/archive/2021")
    (Dir (lit "2021") [File (lit "abcd001a.21d.Z")])
  = Ret [entry_at "/archive/2021" "abcd001a.21d.Z"].
Proof. split; vm_compute; reflexivity. Qed.

(** C4, witness. *)
Lemma scan_exits_on_unreadable_witness :
  unreadable archive_with_locked = true /\
  scan_archive_struct ascii_only ascii_only (lit "/archive") archive_with_locked
  = Raise (SystemExit 1).
Proof.
  split; [reflexivity|].
  apply (scan_exits_on_unreadable ascii_only ascii_only (lit "/archive") archive_with_locked).
  reflexivity.
Defined.



(** ** Backends *)

(** The world of a scripted backend: the polls and the shutdowns it saw. *)
Record sim : Type := { polls_seen : nat; shutdowns_seen : nat }.

Fixpoint str_eqb (a b : str) : bool :=
  match a, b with
  | [], [] => true
  | x :: a', y :: b' => (x =? y)%N && str_eqb a' b'
  | _, _ => false
  end.

Definition among (l : list str) (x : str) : bool := existsb (str_eqb x) l.

(** A backend that accepts every connection and discovery, gives no handle
    for the nodes of [no_handle] and the node's name as handle for the
    others, lets the jobs on the nodes of [failing] end in an exception,
    reports the jobs finished from the poll number [ready_after] on (never,
    for [None]), and, when [close_once], refuses to shut down a second
    time. *)
Definition scripted (no_handle failing : list str) (ready_after : option nat)
    (close_once : bool) : Backend sim unit str :=
  {| JobCluster := fun _ _ w => (Ret tt, w);
     discover_nodes := fun _ _ w => (Ret tt, w);
     submit_job_id_node := fun _ _ node w =>
       (Ret (if among no_handle node then None else Some node), w);
     wait := fun _ w =>
       (Ret match ready_after with
            | Some n => Nat.leb n (polls_seen w)
            | None => false
            end,
        {| polls_seen := S (polls_seen w); shutdowns_seen := shutdowns_seen w |});
     shutdown := fun _ w =>
       if (close_once && negb (Nat.eqb (shutdowns_seen w) 0))%bool
       then (Raise (OtherException "RuntimeError" (lit "cluster is closed")), w)
       else (Ret tt, {| polls_seen := polls_seen w; shutdowns_seen := S (shutdowns_seen w) |});
     job_result := fun j _ => j;
     job_state := fun j _ => if among failing j then Terminated else Finished;
     sleep := fun _ w => w |}.

Definition three_nodes : Options :=
  {| head_node := Some (lit "10.0.0.1");
     ping_interval := Some 1%Z;
     node_list := [lit "a"; lit "b"; lit "c"] |}.

(** A [JobServer] before [__init__] has run. *)
Definition fresh : state sim unit :=
  {| cluster := None; tested := false;
     world := {| polls_seen := 0; shutdowns_seen := 0 |}; log := [] |}.

(** A [JobServer] that holds a cluster. *)
Definition connected : state sim unit :=
  {| cluster := Some tt; tested := false;
     world := {| polls_seen := 0; shutdowns_seen := 0 |}; log := [] |}.

Definition all_up : Backend sim unit str := scripted [] [] (Some 0) false.
Definition job_on_b_fails : Backend sim unit str := scripted [] [lit "b"] (Some 0) false.
Definition no_server_on_c : Backend sim unit str := scripted [lit "c"] [] (Some 0) false.
Definition never_done : Backend sim unit str := scripted [] [] None false.
Definition done_at_third_poll : Backend sim unit str := scripted [] [] (Some 2) false.
Definition closes_once : Backend sim unit str := scripted [] [] (Some 0) true.

(** C1, counterexample.  The job on node [b] ends in an exception; the run
    returns with [tested] set all the same. *)
Lemma verified_with_a_failed_job :
  exists s',
    cluster_test job_on_b_fails three_nodes 1 fresh = Some (Ret tt, s') /\
    tested s' = true /\
    job_state job_on_b_fails (lit "b") (world s') = Terminated.
Proof. eexists. split; [vm_compute; reflexivity|]. split; reflexivity. Qed.

(** C1, witness: three nodes that all answer. *)
Lemma tested_iff_handles_and_wait_witness :
  tested fresh = false /\
  exists r s',
    cluster_test all_up three_nodes 1 fresh = Some (r, s') /\
    ((tested s' = true <->
      exists js s1 s2,
        submit_probes all_up three_nodes fresh = Some (Ret (List.map Some js), s1) /\
        wait_loop all_up 1 s1 = Some (Ret tt, s2)) /\
     (tested s' = false -> exists e, r = Raise e)).
Proof.
  split; [reflexivity|].
  eexists _, _. split; [vm_compute; reflexivity|].
  apply (tested_iff_handles_and_wait sim unit str all_up three_nodes 1 fresh);
    [reflexivity | vm_compute; reflexivity].
Defined.

(** The state in which the submissions of [no_server_on_c] leave [fresh]. *)
Definition after_submissions : state sim unit :=
  Eval vm_compute in
    match submit_probes no_server_on_c three_nodes fresh with
    | Some (_, s) => s
    | None => fresh
    end.


(** The state in which the submissions of [never_done] leave [fresh]. *)
Definition all_submitted : state sim unit :=
  Eval vm_compute in
    match submit_probes never_done three_nodes fresh with
    | Some (_, s) => s
    | None => fresh
    end.

(** C3, counterexample.  The backend never reports the jobs finished: there
    is no number of polls, hence no deadline, after which the wait has
    returned, with or without a result; and the run that waits does not end
    either. *)
Lemma wait_outlasts_every_deadline :
  (~ exists fuel r s', wait_loop never_done fuel connected = Some (r, s')) /\
  (~ exists fuel r s', cluster_test never_done three_nodes fuel fresh = Some (r, s')).
Proof.
  split; intros (fuel & r & s' & H).
  - rewrite (wait_loop_stuck sim unit str never_done fuel connected tt) in H;
      [discriminate | reflexivity | intros i; reflexivity].
  - rewrite (cluster_test_waiting sim unit str never_done three_nodes fuel fresh
               [lit "a"; lit "b"; lit "c"] all_submitted) in H.
    + discriminate.
    + vm_compute. reflexivity.
    + apply (wait_loop_stuck sim unit str never_done fuel all_submitted tt);
        [reflexivity | intros i; reflexivity].
Qed.

(** C3, witness: the jobs are found finished at the third poll. *)
Lemma wait_has_no_deadline_witness :
  cluster connected = Some tt /\
  exists s',
    wait_loop done_at_third_poll 3 connected = Some (Ret tt, s') /\
    log s' = [Wait; Sleep 100; Wait; Sleep 100; Wait] /\
    wait_loop done_at_third_poll 2 connected = None.
Proof.
  split; [reflexivity|].
  destruct (wait_has_no_deadline sim unit str done_at_third_poll three_nodes connected tt eq_refl)
    as (_ & Hends & _ & _).
  eexists. split; [|split].
  - apply (Hends 2 3); [lia | | reflexivity].
    intros [|[|i]] Hi; [reflexivity | reflexivity | lia].
  - reflexivity.
  - reflexivity.
Defined.

(** C9, counterexample.  The run succeeds and its [finally] block shuts the
    cluster down; [__del__] then calls [shutdown] again, the backend raises,
    and [__del__] exits the process. *)
Lemma second_shutdown_reaches_backend :
  exists s1 s2,
    cluster_test closes_once three_nodes 1 fresh = Some (Ret tt, s1) /\
    shutdown_calls (log s1) = 1 /\
    __del__ closes_once s1 = Some (Raise (SystemExit 1), s2) /\
    shutdown_calls (log s2) = 2.
Proof.
  eexists _, _. split; [vm_compute; reflexivity|].
  split; [reflexivity|]. split; [vm_compute; reflexivity|]. reflexivity.
Qed.

(** C9, witness: never connected, and connected. *)
Lemma shutdown_reaches_backend_each_time_witness :
  cluster fresh = None /\
  __del__ all_up fresh
  = Some (Ret tt, logged fresh [Debug (Text (lit "Attempting to shut down the cluster."));
                                Debug (Text (lit "Cluster was not started."))]) /\
  cluster connected = Some tt /\
  exists r s1,
    __del__ all_up connected = Some (r, s1) /\
    cluster s1 = Some tt /\
    shutdown_calls (log s1) = 1.
Proof.
  destruct (shutdown_reaches_backend_each_time sim unit str all_up fresh) as [Hnone _].
  destruct (shutdown_reaches_backend_each_time sim unit str all_up connected) as [_ Hsome].
  split; [reflexivity|]. split; [apply (Hnone eq_refl)|]. split; [reflexivity|].
  destruct (Hsome tt eq_refl) as (_ & r & s1 & Hdel & Hc & _ & Hn & _).
  exists r, s1. auto.
Defined.

(** C10, witness: the sixth scenario of the specification. *)
Lemma cluster_test_returns_tested_witness :
  exists s',
    __init__ all_up three_nodes 1 fresh = Some (Ret tt, s') /\
    tested s' = true /\
    shutdown_calls (log s') = 1.
Proof.
  eexists. split; [vm_compute; reflexivity|]. split; [|reflexivity].
  apply (proj1 (proj2 (cluster_test_returns_tested sim unit str all_up three_nodes 1 fresh))).
  vm_compute. reflexivity.
Defined.

Arguments jobserver_check {World Cluster Job} dispy options fuel _.
Arguments settle {World Cluster Job} dispy options node _.
Arguments report_events {World Cluster Job} dispy options js w.

(** * More runs *)

Definition no_head_node : Options :=
  {| head_node := None; ping_interval := Some 1%Z; node_list := [lit "a"; lit "b"; lit "c"] |}.

Definition negative_ping : Options :=
  {| head_node := Some (lit "10.0.0.1"); ping_interval := Some (-1)%Z;
     node_list := [lit "a"; lit "b"; lit "c"] |}.

(** A backend that refuses every cluster. *)
Definition refusing : Backend sim unit str :=
  {| JobCluster := fun _ _ w => (Raise (ConnectionError (lit "connection refused")), w);
     discover_nodes := fun _ _ w => (Ret tt, w);
     submit_job_id_node := fun _ _ node w => (Ret (Some node), w);
     wait := fun _ w => (Ret true, w);
     shutdown := fun _ w => (Ret tt, w);
     job_result := fun j _ => j;
     job_state := fun _ _ => Finished;
     sleep := fun _ w => w |}.

(** X1, witness: three nodes and a ping interval of one second. *)
Lemma connect_trace_witness :
  exists s',
    connect all_up three_nodes fresh = Some (Ret tt, s') /\
    cluster s' = Some tt /\
    slept (log s') = 6000%Z.
Proof.
  assert (H : exists s', connect all_up three_nodes fresh = Some (Ret tt, s')).
  { eexists. vm_compute. reflexivity. }
  destruct H as [s' H]. exists s'. split; [exact H|].
  destruct (connect_trace sim unit str all_up three_nodes fresh s' H)
    as (ip & p & h & _ & Hp & _ & _ & Hc & _ & _ & Hs).
  destruct h. split; [exact Hc|].
  rewrite Hs. injection Hp as <-. reflexivity.
Defined.

(** X2, witness: the sixth scenario of the specification, in full. *)
Lemma successful_run_trace_witness :
  exists s' js w,
    cluster_test all_up three_nodes 1 fresh = Some (Ret tt, s') /\
    List.length js = 3 /\
    log s' = Debug (Text (lit "Testing out the cluster."))
             :: connect_events three_nodes (lit "10.0.0.1") 1
             ++ submit_events [lit "a"; lit "b"; lit "c"]
             ++ [Wait]
             ++ report_events all_up three_nodes js w
             ++ [Debug (Text (lit "Shutting down cluster.")); Shutdown].
Proof.
  assert (H : exists s', cluster_test all_up three_nodes 1 fresh = Some (Ret tt, s')).
  { eexists. vm_compute. reflexivity. }
  destruct H as [s' H].
  destruct (successful_run_trace sim unit str all_up three_nodes 1 fresh s' H)
    as (ip & p & h & js & k & w & Hip & Hp & Hlen & Hk & _ & _ & Hl & _).
  exists s', js, w. split; [exact H|]. split; [exact Hlen|].
  injection Hip as <-. injection Hp as <-.
  assert (k = 0) by lia. subst k. exact Hl.
Defined.

(** X3, witness: the options name no head node. *)
Lemma missing_option_no_backend_call_witness :
  exists s',
    cluster_test all_up no_head_node 1 fresh = Some (Raise (SystemExit 1), s') /\
    world s' = world fresh /\
    calls is_backend_call (log s') = 0.
Proof.
  destruct (missing_option_no_backend_call sim unit str all_up no_head_node 1 fresh
              eq_refl (or_introl eq_refl)) as (s' & H & Hw & _ & _ & Hc).
  exists s'. auto.
Defined.

(** X4, witness: the backend refuses the cluster. *)
Lemma cluster_creation_failure_witness :
  exists s',
    cluster_test refusing three_nodes 1 fresh = Some (Raise (SystemExit 1), s') /\
    cluster s' = None /\
    shutdown_calls (log s') = 0.
Proof.
  eexists. split.
  - apply (cluster_creation_failure sim unit str refusing three_nodes 1 fresh
             (lit "10.0.0.1") 1%Z (ConnectionError (lit "connection refused")));
      reflexivity.
  - split; reflexivity.
Defined.


(** The object after a first run on [closes_once]. *)
Definition ran_once : state sim unit :=
  Eval vm_compute in
    match cluster_test closes_once three_nodes 1 fresh with
    | Some (_, s) => s
    | None => fresh
    end.

(** X6, witness: the backend refuses the second shutdown, and its exception
    leaves the second run. *)
Lemma only_shutdown_exceptions_escape_witness :
  exists (s' s0 : state sim unit),
    cluster_test closes_once three_nodes 1 ran_once
    = Some (Raise (OtherException "RuntimeError" (lit "cluster is closed")), s') /\
    fst (shutdown closes_once tt (world s0))
    = Raise (OtherException "RuntimeError" (lit "cluster is closed")).
Proof.
  assert (H : exists s', cluster_test closes_once three_nodes 1 ran_once
                         = Some (Raise (OtherException "RuntimeError"
                                          (lit "cluster is closed")), s')).
  { eexists. vm_compute. reflexivity. }
  destruct H as [s' H].
  destruct (only_shutdown_exceptions_escape sim unit str closes_once three_nodes 1
              ran_once _ s' H eq_refl) as (h & s0 & _ & Hs & _).
  exists s', s0. destruct h. auto.
Defined.


(** X10, witness. *)
Lemma grammars_exclude_each_other_witness :
  parse_rinex_filename ascii_only ascii_only (PyStr (lit "abcd001a.21d.Z")) = Ret VEmptyList /\
  parse_crinex_filename ascii_only ascii_only (PyStr (lit "abcd001a.21o")) = Ret VNone.
Proof.
  split.
  - apply (proj1 (grammars_exclude_each_other ascii_only ascii_only (lit "abcd001a.21d.Z")
                    [lit "abcd"; lit "001"; lit "a"; lit "21"; lit "d"])).
    vm_compute. reflexivity.
  - apply (proj2 (grammars_exclude_each_other ascii_only ascii_only (lit "abcd001a.21o")
                    [lit "abcd"; lit "001"; lit "a"; lit "21"; lit "o"])).
    vm_compute. reflexivity.
Defined.

(** X11, witness: the paths of [small_archive]. *)
Lemma scan_paths_under_root_witness :
  exists found,
    scan_archive_struct ascii_only ascii_only (lit "/archive") small_archive = Ret found /\
    forall e, In e found -> exists mid, path e = lit "/archive" ++ mid ++ name e.
Proof.
  assert (H : exists found,
             scan_archive_struct ascii_only ascii_only (lit "/archive") small_archive
             = Ret found).
  { eexists. vm_compute. reflexivity. }
  destruct H as [found H]. exists found. split; [exact H|].
  refine (scan_paths_under_root ascii_only ascii_only (lit "/archive") (lit "archive") _
            found _ H).
  reflexivity.
Defined.

(** * The option [node_list] *)

Definition space : N := 32.
Definition comma : N := 44.

(** [s.lstrip(' ')], [s.rstrip(' ')] and [s.strip(' ')] *)
Fixpoint lstrip (s : str) : str :=
  match s with
  | c :: r => if (c =? space)%N then lstrip r else s
  | [] => []
  end.

Definition rstrip (s : str) : str := rev (lstrip (rev s)).

Definition strip (s : str) : str := rstrip (lstrip s).

(** [s.split(sep)] for a separator of one character: the pieces between the
    separators, the empty ones included. *)
Fixpoint split (sep : N) (s : str) : list str :=
  match s with
  | [] => [[]]
  | c :: r =>
      if (c =? sep)%N then [] :: split sep r
      else match split sep r with
           | piece :: pieces => (c :: piece) :: pieces
           | [] => [[c]]
           end
  end.

(** [sep.join(pieces)] *)
Fixpoint join (sep : N) (pieces : list str) : str :=
  match pieces with
  | [] => []
  | [piece] => piece
  | piece :: rest => piece ++ sep :: join sep rest
  end.

(** Line 349 of [ReadOptions.__init__]:
    [self.options['node_list'].strip(' ').split(',')]. *)
Definition read_node_list (option : str) : list str := split comma (strip option).

Lemma split_not_nil sep s : split sep s <> [].
Proof.
  destruct s as [|c r]; simpl; [discriminate|].
  destruct (c =? sep)%N; [discriminate|]. destruct (split sep r); discriminate.
Qed.

Lemma join_split sep s : join sep (split sep s) = s.
Proof.
  induction s as [|c r IH]; [reflexivity|]. simpl.
  destruct (c =? sep)%N eqn:E.
  - apply N.eqb_eq in E. subst c.
    destruct (split sep r) as [|p ps] eqn:Es; [exfalso; exact (split_not_nil _ _ Es)|].
    cbn [join]. cbn [join] in IH. rewrite IH. reflexivity.
  - destruct (split sep r) as [|p ps] eqn:Es; [exfalso; exact (split_not_nil _ _ Es)|].
    destruct ps as [|q qs]; cbn [join] in *; rewrite <- IH; reflexivity.
Qed.

Lemma split_no_sep sep s : Forall (fun piece => ~ In sep piece) (split sep s).
Proof.
  induction s as [|c r IH]; simpl.
  - constructor; [intros []|constructor].
  - destruct (c =? sep)%N eqn:E.
    + constructor; [intros []|exact IH].
    + destruct (split sep r) as [|p ps]; [constructor; [|constructor]|].
      * intros [H|[]]. subst. rewrite N.eqb_refl in E. discriminate.
      * inversion IH as [|x l Hp Hps]; subst. constructor; [|exact Hps].
        intros [H|H]; [subst; rewrite N.eqb_refl in E; discriminate|auto].
Qed.

Lemma split_length sep s :
  List.length (split sep s) = S (List.length (filter (N.eqb sep) s)).
Proof.
  induction s as [|c r IH]; [reflexivity|]. simpl.
  rewrite (N.eqb_sym sep c). destruct (c =? sep)%N.
  - simpl. rewrite IH. reflexivity.
  - destruct (split sep r) as [|p ps]; [simpl in IH; discriminate|]. exact IH.
Qed.

(** X12.  The node list read from the options is never empty, has one node
    more than the option has commas, holds no comma in any node, and gives
    back the option, stripped of its outer spaces, when joined with commas:
    whatever lies between two commas, spaces included, is a node name. *)
Theorem read_node_list_round_trip (option : str) :
  read_node_list option <> [] /\
  List.length (read_node_list option)
  = S (List.length (filter (N.eqb comma) (strip option))) /\
  Forall (fun node => ~ In comma node) (read_node_list option) /\
  join comma (read_node_list option) = strip option.
Proof.
  unfold read_node_list. split; [apply split_not_nil|].
  split; [apply split_length|]. split; [apply split_no_sep|apply join_split].
Qed.

Example read_node_list_spaces :
  read_node_list (lit " node1, node2,,node3 ")
  = [lit "node1"; lit " node2"; lit ""; lit "node3"].
Proof. vm_compute. reflexivity. Qed.

(** * The statements of [Connection] *)

(** ** [psycopg2.sql] *)

(** A [Composable]: a piece of SQL text, an identifier to be quoted, the
    placeholder of a value, or a sequence of these. *)
Inductive composable : Type :=
| SQL (text : str)
| Identifier (ident : str)
| Placeholder
| Composed (parts : list composable).

(** [sep.join(seq)] of [sql.SQL]. *)
Definition sql_join (sep : composable) (seq : list composable) : composable :=
  Composed match seq with
           | [] => []
           | x :: rest => x :: flat_map (fun y => [sep; y]) rest
           end.

(** A replacement field of a template: [{}], [{3}] or [{name}]. *)
Inductive field : Type :=
| Auto
| Numbered (n : nat)
| Named (s : str).

Definition lbrace : N := 123.
Definition rbrace : N := 125.

Definition is_ascii_digit (c : N) : bool := ((48 <=? c) && (c <=? 57))%N.

(** [int(name)] for a name of ASCII digits. *)
Definition int_of_digits (name : str) : nat :=
  fold_left (fun acc c => 10 * acc + (N.to_nat c - 48)) name 0.

Definition field_of (name : str) : field :=
  match name with
  | [] => Auto
  | _ => if forallb is_ascii_digit name then Numbered (int_of_digits name) else Named name
  end.

Definition value_error (msg : string) {A : Type} : outcome A :=
  Raise (OtherException "ValueError" (lit msg)).

Definition cons_piece {A : Type} (x : A) (r : outcome (list A)) : outcome (list A) :=
  match r with
  | Ret l => Ret (x :: l)
  | Raise e => Raise e
  end.

(** [string.Formatter().parse(template)]: the literal text before each field
    and the field, the doubled braces being literal braces.  A field with a
    conversion or a format specification is refused, as [SQL.format] refuses
    it (an empty specification, which it would let through, is refused
    too). *)
Fixpoint parse_text (s acc : str) : outcome (list (str * option field)) :=
  match s with
  | [] => Ret (match acc with [] => [] | _ => [(acc, None)] end)
  | c :: r =>
      if (c =? lbrace)%N then
        match r with
        | c' :: r' =>
            if (c' =? lbrace)%N then cons_piece (acc ++ [lbrace], None) (parse_text r' [])
            else parse_field r [] acc
        | [] => value_error "Single '{' encountered in format string"
        end
      else if (c =? rbrace)%N then
        match r with
        | c' :: r' =>
            if (c' =? rbrace)%N then cons_piece (acc ++ [rbrace], None) (parse_text r' [])
            else value_error "Single '}' encountered in format string"
        | [] => value_error "Single '}' encountered in format string"
        end
      else parse_text r (acc ++ [c])
  end
with parse_field (s name pre : str) : outcome (list (str * option field)) :=
  match s with
  | [] => value_error "expected '}' before end of string"
  | c :: r =>
      if (c =? rbrace)%N then cons_piece (pre, Some (field_of name)) (parse_text r [])
      else if ((c =? lbrace) || (c =? 33) || (c =? 58))%N
           then value_error "no format specification supported by SQL"
      else parse_field r (name ++ [c]) pre
  end.

(** The loop of [SQL.format] over its positional arguments; [autonum] is [None] once a numbered
    field was met. *)
Fixpoint fill (pieces : list (str * option field)) (args : list composable)
    (autonum : option nat) : outcome (list composable) :=
  match pieces with
  | [] => Ret []
  | (pre, fld) :: rest =>
      let text := match pre with [] => [] | _ => [SQL pre] end in
      match fld with
      | None =>
          match fill rest args autonum with
          | Ret l => Ret (text ++ l)
          | Raise e => Raise e
          end
      | Some (Numbered n) =>
          match autonum with
          | Some (S _) =>
              value_error "cannot switch from automatic field numbering to manual"
          | _ =>
              match nth_error args n with
              | Some a =>
                  match fill rest args None with
                  | Ret l => Ret (text ++ a :: l)
                  | Raise e => Raise e
                  end
              | None => Raise (OtherException "IndexError" (lit "tuple index out of range"))
              end
          end
      | Some Auto =>
          match autonum with
          | None => value_error "cannot switch from manual field numbering to automatic"
          | Some k =>
              match nth_error args k with
              | Some a =>
                  match fill rest args (Some (S k)) with
                  | Ret l => Ret (text ++ a :: l)
                  | Raise e => Raise e
                  end
              | None => Raise (OtherException "IndexError" (lit "tuple index out of range"))
              end
          end
      | Some (Named s) => Raise (OtherException "KeyError" s)
      end
  end.

(** [sql.SQL(template).format(...)] with positional arguments [args]. *)
Definition sql_format (template : str) (args : list composable) : outcome composable :=
  match parse_text template [] with
  | Ret pieces =>
      match fill pieces args (Some 0) with
      | Ret l => Ret (Composed l)
      | Raise e => Raise e
      end
  | Raise e => Raise e
  end.

Definition dquote : N := 34.

(** The identifier between double quotes, its own double quotes doubled. *)
Definition quote_ident (s : str) : str :=
  dquote :: flat_map (fun c => if (c =? dquote)%N then [dquote; dquote] else [c]) s
  ++ [dquote].

(** [c.as_string(connection)] *)
Fixpoint as_string (c : composable) : str :=
  match c with
  | SQL text => text
  | Identifier ident => quote_ident ident
  | Placeholder => lit "%s"
  | Composed parts =>
      (fix all (l : list composable) : str :=
         match l with
         | [] => []
         | x :: l' => as_string x ++ all l'
         end) parts
  end.

(** The placeholders of a statement, and the names it quotes, left to
    right. *)
Fixpoint placeholders (c : composable) : nat :=
  match c with
  | SQL _ | Identifier _ => 0
  | Placeholder => 1
  | Composed parts =>
      (fix all (l : list composable) : nat :=
         match l with
         | [] => 0
         | x :: l' => placeholders x + all l'
         end) parts
  end.

Fixpoint identifiers (c : composable) : list str :=
  match c with
  | SQL _ | Placeholder => []
  | Identifier ident => [ident]
  | Composed parts =>
      (fix all (l : list composable) : list str :=
         match l with
         | [] => []
         | x :: l' => identifiers x ++ all l'
         end) parts
  end.

Example format_insert_template :
  parse_text (lit "INSERT INTO {0} ({1}) VALUES ({2});") []
  = Ret [(lit "INSERT INTO ", Some (Numbered 0)); (lit " (", Some (Numbered 1));
         (lit ") VALUES (", Some (Numbered 2)); (lit ");", None)].
Proof. vm_compute. reflexivity. Qed.

(** [sep.join(pieces)] of [str], for any separator. *)
Fixpoint sep_by (sep : str) (pieces : list str) : str :=
  match pieces with
  | [] => []
  | [piece] => piece
  | piece :: rest => piece ++ sep ++ sep_by sep rest
  end.

Lemma as_string_Composed l : as_string (Composed l) = List.concat (List.map as_string l).
Proof. induction l as [|x l IH]; [reflexivity|]. simpl in *. rewrite IH. reflexivity. Qed.

Lemma placeholders_Composed l :
  placeholders (Composed l) = list_sum (List.map placeholders l).
Proof. induction l as [|x l IH]; [reflexivity|]. simpl in *. rewrite IH. reflexivity. Qed.

Lemma identifiers_Composed l : identifiers (Composed l) = flat_map identifiers l.
Proof. induction l as [|x l IH]; [reflexivity|]. simpl in *. rewrite IH. reflexivity. Qed.

Lemma as_string_join sep l :
  as_string (sql_join (SQL sep) l) = sep_by sep (List.map as_string l).
Proof.
  unfold sql_join. rewrite as_string_Composed. destruct l as [|x l]; [reflexivity|].
  revert x. induction l as [|y l IH]; intros x.
  - simpl. apply app_nil_r.
  - specialize (IH y). cbn [flat_map List.map List.concat app as_string] in *.
    rewrite IH. reflexivity.
Qed.

Lemma placeholders_join sep l :
  placeholders (sql_join (SQL sep) l) = list_sum (List.map placeholders l).
Proof.
  unfold sql_join. rewrite placeholders_Composed. destruct l as [|x l]; [reflexivity|].
  unfold list_sum. cbn [List.map fold_right]. f_equal.
  induction l as [|y l IH]; [reflexivity|].
  cbn [flat_map List.map fold_right app placeholders]. rewrite IH. reflexivity.
Qed.

Lemma identifiers_join sep l :
  identifiers (sql_join (SQL sep) l) = flat_map identifiers l.
Proof.
  unfold sql_join. rewrite identifiers_Composed. destruct l as [|x l]; [reflexivity|].
  cbn [flat_map]. f_equal.
  induction l as [|y l IH]; [reflexivity|].
  cbn [flat_map app identifiers]. rewrite IH. reflexivity.
Qed.

Lemma placeholders_repeat n : list_sum (List.map placeholders (repeat Placeholder n)) = n.
Proof. induction n as [|n IH]; [reflexivity|]. simpl. rewrite IH. reflexivity. Qed.

Lemma identifiers_repeat n : flat_map identifiers (repeat Placeholder n) = [].
Proof. induction n as [|n IH]; [reflexivity|]. exact IH. Qed.

Lemma as_string_repeat n :
  List.map as_string (repeat Placeholder n) = repeat (lit "%s") n.
Proof. induction n as [|n IH]; [reflexivity|]. simpl. rewrite IH. reflexivity. Qed.

Lemma placeholders_names {A : Type} (f : A -> str) l :
  list_sum (List.map placeholders (List.map (fun x => Identifier (f x)) l)) = 0.
Proof. induction l as [|x l IH]; [reflexivity|]. exact IH. Qed.

Lemma identifiers_names {A : Type} (f : A -> str) l :
  flat_map identifiers (List.map (fun x => Identifier (f x)) l) = List.map f l.
Proof. induction l as [|x l IH]; [reflexivity|]. simpl. rewrite IH. reflexivity. Qed.

Lemma as_string_names {A : Type} (f : A -> str) l :
  List.map as_string (List.map (fun x => Identifier (f x)) l)
  = List.map (fun x => quote_ident (f x)) l.
Proof. apply map_map. Qed.

Section Connection.

(** The values of Python, as far as [Connection] looks at them:
    [is_Decimal x] is [type(x) == Decimal], [float x] is [float(x)],
    [of_str] is a string as a value, [str_of x] is the text [str.format]
    puts for [x] and [format_i x] is ['%i' % x].  [repr_str] is Python's
    [repr] of a string and [repr_placeholder] is the [repr] of
    [sql.Placeholder()], whose text differs between the versions of
    psycopg2. *)
Variable Value : Type.
Variable is_Decimal : Value -> bool.
Variable float : Value -> Value.
Variable of_str : str -> Value.
Variable str_of : Value -> str.
Variable format_i : Value -> outcome str.
Variable repr_str : str -> str.
Variable repr_placeholder : str.

(** A key of the dictionary [_execute_wrapper] returns: a column name; an
    integer is what [print_summary] looks up. *)
Inductive dkey : Type :=
| KStr (s : str)
| KInt (z : Z).

Definition dkey_eqb (a b : dkey) : bool :=
  match a, b with
  | KStr x, KStr y => str_eqb x y
  | KInt x, KInt y => (x =? y)%Z
  | _, _ => false
  end.

(** A [defaultdict(list)], in the order of insertion. *)
Definition ddict := list (dkey * list Value).

(** A Python [dict] with string keys, in the order of insertion. *)
Definition record := list (str * Value).

(** What [_execute_wrapper] returns: [None], the list of the rows, or the
    dictionary of the columns. *)
Inductive result : Type :=
| RNone
| RRows (rows : list (list Value))
| RDict (d : ddict).

(** ** The statements *)

Definition comma_space : composable := SQL (lit ", ").

(** [insert]: lines 92-96.  [sql.Placeholder() * n] is the [Composed] of [n]
    placeholders, over which [join] iterates. *)
Definition insert_statement (table : str) (rec : record) : outcome composable :=
  match sql_format (lit "{}") [Identifier table] with
  | Ret x =>
      let y := sql_join comma_space (List.map (fun kv => Identifier (fst kv)) rec) in
      let z := sql_join comma_space (repeat Placeholder (List.length rec)) in
      sql_format (lit "INSERT INTO {0} ({1}) VALUES ({2});") [x; y; z]
  | Raise e => Raise e
  end.

(** [update]: lines 219-225. *)
Definition update_statement (table : str) (row rec : record) : outcome composable :=
  match sql_format (lit "{}") [Identifier table] with
  | Ret a =>
      let b := sql_join comma_space (List.map (fun kv => Identifier (fst kv)) rec) in
      let c := sql_join comma_space (repeat Placeholder (List.length rec)) in
      let d := sql_join comma_space (List.map (fun kv => Identifier (fst kv)) row) in
      let e := sql_join comma_space (repeat Placeholder (List.length row)) in
      sql_format (lit "UPDATE {0} SET ({1}) = ({2}) WHERE ({3}) LIKE ({4})") [a; b; c; d; e]
  | Raise e => Raise e
  end.

(** The values [update] passes: those of [record], then those of [row]. *)
Definition update_values (row rec : record) : list Value :=
  List.map snd rec ++ List.map snd row.

(** [update_locks], [clear_locked], [load_table], [load_tankstruct]. *)
Definition update_locks_statement : outcome composable :=
  sql_format (lit "DELETE FROM locks WHERE {} NOT LIKE {};")
    [Identifier (lit "NetworkCode"); Placeholder].

Definition clear_locked_statement (table : str) : outcome composable :=
  sql_format (lit "DELETE FROM {} WHERE {} LIKE {};")
    [Identifier table; Identifier (lit "NetworkCode"); Placeholder].

Definition load_table_statement (table : str) : outcome composable :=
  sql_format (lit "SELECT * FROM {}") [Identifier table].

Definition load_tankstruct_statement : outcome composable :=
  sql_format (lit "SELECT * FROM {0} INNER JOIN {1} USING ({2}) ORDER BY {3}")
    [Identifier (lit "rinex_tank_struct"); Identifier (lit "keys");
     Identifier (lit "KeyCode"); Identifier (lit "Level")].

(** [repr] of an [Identifier] and of a [Placeholder], which is what an
    f-string makes of them. *)
Definition repr_identifier (k : str) : str := lit "Identifier(" ++ repr_str k ++ lit ")".

(** One condition of [load_table_matching], an f-string: its text is the
    [repr] of the two objects around the operator. *)
Definition condition (op : string) (kv : str * Value) : composable :=
  SQL (repr_identifier (fst kv) ++ lit op ++ repr_placeholder).

(** [load_table_matching]: lines 235-245. *)
Definition load_table_matching_statement (table : str) (where_dict : record)
  : outcome composable :=
  match sql_format (lit "SELECT * FROM {}") [Identifier table] with
  | Ret select_statement =>
      let where_statement := SQL (lit "WHERE") in
      let like_statement :=
        if Nat.ltb 1 (List.length where_dict)
        then Ret (sql_join (SQL (lit " AND ")) (List.map (condition " = ") where_dict))
        else match List.map (condition " LIKE ") where_dict with
             | first :: _ => Ret first
             | [] => Raise (OtherException "IndexError" (lit "list index out of range"))
             end in
      match like_statement with
      | Ret like =>
          Ret (sql_join (SQL (lit " ")) [select_statement; where_statement; like])
      | Raise e => Raise e
      end
  | Raise e => Raise e
  end.

Lemma format_one x : sql_format (lit "{}") [x] = Ret (Composed [x]).
Proof. reflexivity. Qed.

Lemma format_insert x y z :
  sql_format (lit "INSERT INTO {0} ({1}) VALUES ({2});") [x; y; z]
  = Ret (Composed [SQL (lit "INSERT INTO "); x; SQL (lit " ("); y;
                   SQL (lit ") VALUES ("); z; SQL (lit ");")]).
Proof. reflexivity. Qed.

Lemma format_update a b c d e :
  sql_format (lit "UPDATE {0} SET ({1}) = ({2}) WHERE ({3}) LIKE ({4})") [a; b; c; d; e]
  = Ret (Composed [SQL (lit "UPDATE "); a; SQL (lit " SET ("); b; SQL (lit ") = ("); c;
                   SQL (lit ") WHERE ("); d; SQL (lit ") LIKE ("); e; SQL (lit ")")]).
Proof. reflexivity. Qed.

Lemma format_select x :
  sql_format (lit "SELECT * FROM {}") [x] = Ret (Composed [SQL (lit "SELECT * FROM "); x]).
Proof. reflexivity. Qed.

Ltac render :=
  repeat (rewrite ?as_string_Composed, ?placeholders_Composed, ?identifiers_Composed,
            ?as_string_join, ?placeholders_join, ?identifiers_join,
            ?placeholders_repeat, ?identifiers_repeat, ?as_string_repeat,
            ?placeholders_names, ?identifiers_names, ?as_string_names,
            ?app_nil_r, ?Nat.add_0_r;
          cbn [List.map List.concat flat_map list_sum fold_right app Nat.add
               as_string placeholders identifiers]).

(** X13.  [insert] builds a statement for every table and record, an empty
    record included: INSERT INTO, the quoted table, the quoted keys in the
    order of the record between parentheses, and as many placeholders as the
    record has values, which are passed in the same order. *)
Theorem insert_statement_shape (table : str) (rec : record) :
  exists stmt,
    insert_statement table rec = Ret stmt /\
    as_string stmt
    = lit "INSERT INTO " ++ quote_ident table ++ lit " ("
      ++ sep_by (lit ", ") (List.map (fun kv => quote_ident (fst kv)) rec)
      ++ lit ") VALUES (" ++ sep_by (lit ", ") (repeat (lit "%s") (List.length rec))
      ++ lit ");" /\
    placeholders stmt = List.length (List.map snd rec) /\
    identifiers stmt = table :: List.map fst rec.
Proof.
  unfold insert_statement, comma_space. rewrite format_one, format_insert.
  eexists. split; [reflexivity|]. split; [|split].
  - render. reflexivity.
  - render. rewrite length_map. reflexivity.
  - render. reflexivity.
Qed.

(** X14.  [update] builds a statement for every table, row and record: the
    keys of the record are quoted in the SET list and those of the row in
    the WHERE list, and the placeholders are as many as the values passed,
    those of the record first, then those of the row, as in the statement. *)
Theorem update_statement_shape (table : str) (row rec : record) :
  exists stmt,
    update_statement table row rec = Ret stmt /\
    as_string stmt
    = lit "UPDATE " ++ quote_ident table ++ lit " SET ("
      ++ sep_by (lit ", ") (List.map (fun kv => quote_ident (fst kv)) rec)
      ++ lit ") = (" ++ sep_by (lit ", ") (repeat (lit "%s") (List.length rec))
      ++ lit ") WHERE ("
      ++ sep_by (lit ", ") (List.map (fun kv => quote_ident (fst kv)) row)
      ++ lit ") LIKE (" ++ sep_by (lit ", ") (repeat (lit "%s") (List.length row))
      ++ lit ")" /\
    placeholders stmt = List.length (update_values row rec) /\
    identifiers stmt = table :: List.map fst rec ++ List.map fst row.
Proof.
  unfold update_statement, update_values, comma_space. rewrite format_one, format_update.
  eexists. split; [reflexivity|]. split; [|split].
  - render. reflexivity.
  - render. rewrite length_app, !length_map. reflexivity.
  - render. reflexivity.
Qed.

(** ** The database *)

(** psycopg2, as far as [Connection] uses it: the world the server lives
    in, the connection and cursor handles, and the calls.  [db_description]
    is the cursor's attribute [description]: the column names, or [None]
    when the statement gave no rows.  [db_dsn] is the attribute [dsn] of a
    connection. *)
Variables DWorld Conn Cursor : Type.

Record Database : Type := {
  db_connect : str -> DWorld -> outcome Conn * DWorld;
  db_dsn : Conn -> str;
  db_cursor : Conn -> DWorld -> outcome Cursor * DWorld;
  db_execute : Cursor -> composable -> option (list Value) -> DWorld -> outcome unit * DWorld;
  db_fetchall : Cursor -> DWorld -> outcome (list (list Value)) * DWorld;
  db_description : Cursor -> DWorld -> option (list str);
  db_close_cursor : Cursor -> DWorld -> outcome unit * DWorld;
  db_commit : Conn -> DWorld -> outcome unit * DWorld;
  db_close : Conn -> DWorld -> outcome unit * DWorld
}.

Variable db : Database.

(** What a [Connection] does that can be seen from outside: the calls of
    the database, the lines of its logger and the lines it prints. *)
Inductive dbevent : Type :=
| DbConnect (dsn : str)
| DbCursor
| DbExecute (statement : composable) (values : option (list Value))
| DbFetchall
| DbCloseCursor
| DbCommit
| DbClose
| DbLogDebug (msg : str)
| DbLogError (e : exn)         (* 'Uncaught exception: {}'.format(e) *)
| DbPrint (line : str)
| DbPrintError (e : exn).      (* print('Uncaught Exception: {} {}'.format(type(e), e)) *)

(** A [Connection] object in its world. *)
Record dbstate : Type := {
  conn : option Conn;           (* self.conn *)
  dworld : DWorld;
  dlog : list dbevent
}.

Definition DB (A : Type) : Type := dbstate -> outcome A * dbstate.

Definition dret {A : Type} (a : A) : DB A := fun s => (Ret a, s).

Definition dbind {A B : Type} (m : DB A) (f : A -> DB B) : DB B :=
  fun s =>
    match m s with
    | (Ret a, s') => f a s'
    | (Raise e, s') => (Raise e, s')
    end.

Notation "x <-- m ;; k" := (dbind m (fun x => k))
  (at level 61, m at next level, right associativity).
Notation "m ;;; k" := (dbind m (fun _ => k))
  (at level 61, right associativity).

(** A value computed without the database. *)
Definition lift {A : Type} (r : outcome A) : DB A := fun s => (r, s).

Definition dlogged (s : dbstate) (evs : list dbevent) : dbstate :=
  {| conn := conn s; dworld := dworld s; dlog := dlog s ++ evs |}.

Definition demit (ev : dbevent) : DB unit := fun s => (Ret tt, dlogged s [ev]).

(** A call of the database: logged, then run on the world. *)
Definition dcall {A : Type} (ev : dbevent) (f : DWorld -> outcome A * DWorld) : DB A :=
  fun s =>
    let (r, w) := f (dworld s) in
    (r, {| conn := conn s; dworld := w; dlog := dlog s ++ [ev] |}).

(** [self.conn = c] *)
Definition set_conn (c : option Conn) : DB unit :=
  fun s => (Ret tt, {| conn := c; dworld := dworld s; dlog := dlog s |}).

Definition attribute_error : exn :=
  OtherException "AttributeError" (lit "'NoneType' object has no attribute 'cursor'").

(** [self.conn.cursor]: an AttributeError when [self.conn] is None. *)
Definition the_conn : DB Conn :=
  fun s =>
    match conn s with
    | Some c => (Ret c, s)
    | None => (Raise attribute_error, s)
    end.

(** [with curs: body]: the cursor is closed however the body ends; an
    exception of the closing replaces the outcome of the body. *)
Definition with_cursor {A : Type} (curs : Cursor) (body : DB A) : DB A :=
  fun s =>
    let (r, s1) := body s in
    match dcall DbCloseCursor (db_close_cursor db curs) s1 with
    | (Ret _, s2) => (r, s2)
    | (Raise e, s2) => (Raise e, s2)
    end.

(** [except Exception as e: self.logger.error(...); sys.exit(1)] *)
Definition exit_on_error {A : Type} (m : DB A) : DB A :=
  fun s =>
    match m s with
    | (Raise e, s') =>
        if is_Exception e
        then (Raise (SystemExit 1), dlogged s' [DbLogError e])
        else (Raise e, s')
    | r => r
    end.

(** [d[key].append(x)] on a [defaultdict(list)]. *)
Fixpoint dd_append (key : dkey) (x : Value) (d : ddict) : ddict :=
  match d with
  | [] => [(key, [x])]
  | (k, l) :: d' =>
      if dkey_eqb k key then (k, l ++ [x]) :: d' else (k, l) :: dd_append key x d'
  end.

Fixpoint dd_lookup (key : dkey) (d : ddict) : option (list Value) :=
  match d with
  | [] => None
  | (k, l) :: d' => if dkey_eqb k key then Some l else dd_lookup key d'
  end.

(** [d[key]] on a [defaultdict(list)]: a missing key is inserted with the
    empty list, which is returned. *)
Definition dd_getitem (key : dkey) (d : ddict) : list Value * ddict :=
  match dd_lookup key d with
  | Some l => (l, d)
  | None => ([], d ++ [(key, [])])
  end.

(** Lines 78-81: [rec[n]] if it is not a [Decimal], [float(rec[n])] if it
    is. *)
Definition convert (x : Value) : Value := if is_Decimal x then float x else x.

Definition index_error (msg : string) : exn := OtherException "IndexError" (lit msg).

(** The inner loop, [for rec in qresults], for the column [n] named [key]. *)
Fixpoint fill_column (key : dkey) (n : nat) (qresults : list (list Value)) (d : ddict)
  : outcome ddict :=
  match qresults with
  | [] => Ret d
  | rec :: rest =>
      match nth_error rec n with
      | Some x => fill_column key n rest (dd_append key (convert x) d)
      | None => Raise (index_error "tuple index out of range")
      end
  end.

(** The outer loop, [for n, key in enumerate(keys)], from the column [n]
    on. *)
Fixpoint fill_dict (keys : list str) (n : nat) (qresults : list (list Value)) (d : ddict)
  : outcome ddict :=
  match keys with
  | [] => Ret d
  | key :: keys' =>
      match fill_column (KStr key) n qresults d with
      | Ret d' => fill_dict keys' (S n) qresults d'
      | Raise e => Raise e
      end
  end.

(** [[name[0] for name in curs.description]]: a TypeError when the
    description is None. *)
Definition column_names (curs : Cursor) : DB (list str) :=
  fun s =>
    match db_description db curs (dworld s) with
    | Some names => (Ret names, s)
    | None => (Raise (OtherException "TypeError"
                        (lit "'NoneType' object is not iterable")), s)
    end.

(** The block under [with], lines 67-85: it yields [Some v] where the
    source returns [v] from inside it, [None] where it runs to its end. *)
Definition with_block (sql_statement : composable) (values : option (list Value))
    (retval return_dict : bool) (curs : Cursor) : DB (option result) :=
  dcall (DbExecute sql_statement values) (db_execute db curs sql_statement values) ;;;
  if retval then
    if return_dict then
      qresults <-- dcall DbFetchall (db_fetchall db curs) ;;
      keys <-- column_names curs ;;
      d <-- lift (fill_dict keys 0 qresults []) ;;
      dret (Some (RDict d))
    else
      rows <-- dcall DbFetchall (db_fetchall db curs) ;;
      dret (Some (RRows rows))
  else dret None.

(** The block under [try], lines 66-86. *)
Definition try_block (sql_statement : composable) (values : option (list Value))
    (retval return_dict : bool) : DB result :=
  c <-- the_conn ;;
  curs <-- dcall DbCursor (db_cursor db c) ;;
  returned <-- with_cursor curs (with_block sql_statement values retval return_dict curs) ;;
  match returned with
  | Some v => dret v
  | None => dcall DbCommit (db_commit db c) ;;; dret RNone
  end.

(** [Connection._execute_wrapper(sql_statement, values, retval, return_dict)] *)
Definition _execute_wrapper (sql_statement : composable) (values : option (list Value))
    (retval return_dict : bool) : DB result :=
  exit_on_error (try_block sql_statement values retval return_dict).

(** [Connection.insert(table, record)] *)
Definition insert (table : str) (rec : record) : DB unit :=
  insert_statement' <-- lift (insert_statement table rec) ;;
  _execute_wrapper insert_statement' (Some (List.map snd rec)) false true ;;;
  dret tt.

(** [Connection.update(table, row, record)] *)
Definition update (table : str) (row rec : record) : DB unit :=
  insert_statement' <-- lift (update_statement table row rec) ;;
  _execute_wrapper insert_statement' (Some (update_values row rec)) false true ;;;
  dret tt.

(** [Connection.update_locks()] and [Connection.clear_locked(table)]: the one
    value is the pattern ['?%']. *)
Definition update_locks : DB unit :=
  clear_statement <-- lift update_locks_statement ;;
  _execute_wrapper clear_statement (Some [of_str (lit "?%")]) false true ;;;
  dret tt.

Definition clear_locked (table : str) : DB unit :=
  clear_statement <-- lift (clear_locked_statement table) ;;
  _execute_wrapper clear_statement (Some [of_str (lit "?%")]) false true ;;;
  dret tt.

(** [Connection.load_table(table)] and [Connection.load_tankstruct()] *)
Definition load_table (table : str) : DB result :=
  select_statement <-- lift (load_table_statement table) ;;
  _execute_wrapper select_statement None true true.

Definition load_tankstruct : DB result :=
  sql_statement <-- lift load_tankstruct_statement ;;
  _execute_wrapper sql_statement None true true.

(** [Connection.load_table_matching(table, where_dict)] *)
Definition load_table_matching (table : str) (where_dict : record) : DB result :=
  full_statement <-- lift (load_table_matching_statement table where_dict) ;;
  _execute_wrapper full_statement (Some (List.map snd where_dict)) true true.

(** [Connection.insert_event(event)], from the dictionary [event.db_dict()]
    gives. *)
Definition insert_event_statement (event_dict : record) : outcome composable :=
  let y := sql_join comma_space (List.map (fun kv => Identifier (fst kv)) event_dict) in
  let z := sql_join comma_space (repeat Placeholder (List.length event_dict)) in
  sql_format (lit "insert into {0} ({1}) VALUES ({2});") [Identifier (lit "events"); y; z].

Definition insert_event (event_dict : record) : DB unit :=
  insert_statement' <-- lift (insert_event_statement event_dict) ;;
  _execute_wrapper insert_statement' (Some (List.map snd event_dict)) false true ;;;
  dret tt.

(** [config[key]] *)
Fixpoint lookup (key : str) (config : record) : option Value :=
  match config with
  | [] => None
  | (k, x) :: config' => if str_eqb k key then Some x else lookup key config'
  end.

Definition key_error (key : str) : exn := OtherException "KeyError" (repr_str key).

Definition getitem (config : record) (key : string) : outcome Value :=
  match lookup (lit key) config with
  | Some x => Ret x
  | None => Raise (key_error (lit key))
  end.

(** Lines 38-41: the four settings are read in this order, then put in the
    text. *)
Definition dsn_of (database hostname username password : Value) : str :=
  lit "dbname=" ++ str_of database ++ lit " host=" ++ str_of hostname
  ++ lit " user=" ++ str_of username ++ lit " password=" ++ str_of password.

Definition connect_dsn (config : record) : outcome str :=
  match getitem config "database" with
  | Ret database =>
      match getitem config "hostname" with
      | Ret hostname =>
          match getitem config "username" with
          | Ret username =>
              match getitem config "password" with
              | Ret password => Ret (dsn_of database hostname username password)
              | Raise e => Raise e
              end
          | Raise e => Raise e
          end
      | Raise e => Raise e
      end
  | Raise e => Raise e
  end.

(** [Connection.__init__(config, parent_logger)] *)
Definition Connection__init__ (config : record) (parent_logger : str) : DB unit :=
  exit_on_error
    (demit (DbLogDebug (lit "Initializing Connection object.")) ;;;
     set_conn None ;;;
     dsn <-- lift (connect_dsn config) ;;
     c <-- dcall (DbConnect dsn) (db_connect db dsn) ;;
     set_conn (Some c) ;;;
     demit (DbLogDebug (lit "Connection established: " ++ db_dsn db c)) ;;;
     insert (lit "executions") [(lit "script", of_str parent_logger)]).

(** [Connection.__del__()]: a connection object is true. *)
Definition Connection__del__ : DB unit :=
  fun s =>
    match conn s with
    | Some c =>
        (dcall DbClose (db_close db c) ;;;
         demit (DbLogDebug (lit "Connection closed: " ++ db_dsn db c))) s
    | None => (Ret tt, s)
    end.

(** [x[0][0]] for a result of [_execute_wrapper]; the dictionary is the
    same object after it, with the key it may have got. *)
Definition item00 (x : result) : outcome Value * result :=
  match x with
  | RNone =>
      (Raise (OtherException "TypeError" (lit "'NoneType' object is not subscriptable")),
       x)
  | RRows rows =>
      (match rows with
       | [] => Raise (index_error "list index out of range")
       | row :: _ =>
           match row with
           | [] => Raise (index_error "tuple index out of range")
           | v :: _ => Ret v
           end
       end, x)
  | RDict d =>
      let (l, d') := dd_getitem (KInt 0) d in
      (match l with
       | [] => Raise (index_error "list index out of range")
       | v :: _ => Ret v
       end, RDict d')
  end.

(** The three characters of the argument of COUNT. *)
Definition star_in_parentheses : str := [40; 42; 41]%N.

Definition counter_template : str :=
  lit "SELECT COUNT" ++ star_in_parentheses
  ++ lit " AS cc FROM {0} WHERE {1} >= {2} AND {3} = {2}".

(** One count of [print_summary]: [self._execute_wrapper(counter,
    (st[0][0], kind), retval=True)]; the argument is computed before the
    call. *)
Definition count_events (counter : composable) (st : result) (kind : string)
  : DB (result * result) :=
  let (x, st') := item00 st in
  start <-- lift x ;;
  n <-- _execute_wrapper counter (Some [start; of_str (lit kind)]) true true ;;
  dret (n, st').

(** One line of the summary: [print(label % n[0][0])]. *)
Definition print_count (label : string) (n : result) : DB unit :=
  x <-- lift (fst (item00 n)) ;;
  text <-- lift (format_i x) ;;
  demit (DbPrint (lit label ++ text)).

(** [Connection.print_summary(script)] *)
Definition print_summary (script : Value) : DB unit :=
  script_start <-- lift (sql_format (lit "SELECT MAX({}) AS mx FROM {} WHERE {} = {}")
                           [Identifier (lit "exec_date"); Identifier (lit "executions");
                            Identifier (lit "script"); Placeholder]) ;;
  st <-- _execute_wrapper script_start (Some [script]) true true ;;
  counter <-- lift (sql_format counter_template
                      [Identifier (lit "events"); Identifier (lit "EventDate");
                       Placeholder; Identifier (lit "EventType")]) ;;
  info <-- count_events counter st "info" ;;
  erro <-- count_events counter (snd info) "error" ;;
  warn <-- count_events counter (snd erro) "warning" ;;
  demit (DbPrint (lit " >> Summary of events for this run:")) ;;;
  print_count " -- info    : " (fst info) ;;;
  print_count " -- errors  : " (fst erro) ;;;
  print_count " -- warnings: " (fst warn).

(** [except Exception as e: print('Uncaught Exception: ...'); sys.exit(1)] *)
Definition print_and_exit {A : Type} (m : DB A) : DB A :=
  fun s =>
    match m s with
    | (Raise e, s') =>
        if is_Exception e
        then (Raise (SystemExit 1), dlogged s' [DbPrintError e])
        else (Raise e, s')
    | r => r
    end.

(** [del conn], where [conn] is the only reference to the object: its
    [__del__] runs at once, and what it raises does not leave it. *)
Definition del_object (finalizer : DB unit) : DB unit :=
  fun s => let (_, s') := finalizer s in (Ret tt, s').

(** What [RinexArchive.__init__] keeps: [levels], [keys], [networks] and
    [stations]. *)
Record archive_tables : Type := {
  levels : result;
  keys : result;
  networks : result;
  stations : result
}.

(** [RinexArchive.__init__(archiveoptions)], from [archiveoptions.options];
    the connection is made with the default [parent_logger]. *)
Definition RinexArchive__init__ (options : record) : DB archive_tables :=
  print_and_exit
    (Connection__init__ options (lit "archive") ;;;
     levels' <-- load_tankstruct ;;
     keys' <-- load_table (lit "keys") ;;
     networks' <-- load_table (lit "networks") ;;
     stations' <-- load_table (lit "stations") ;;
     del_object Connection__del__ ;;;
     dret {| levels := levels'; keys := keys'; networks := networks';
             stations := stations' |}).

(** ** The dictionary of the columns *)

Lemma str_eqb_eq a b : str_eqb a b = true <-> a = b.
Proof.
  revert b. induction a as [|x a IH]; intros [|y b]; simpl; split; try congruence.
  - rewrite andb_true_iff, N.eqb_eq, IH. intros [-> ->]. reflexivity.
  - intros H. injection H as -> ->. rewrite N.eqb_refl. apply IH. reflexivity.
Qed.

Lemma str_eqb_refl a : str_eqb a a = true.
Proof. apply str_eqb_eq. reflexivity. Qed.

Lemma str_eqb_neq a b : a <> b -> str_eqb a b = false.
Proof.
  intros H. destruct (str_eqb a b) eqn:E; [|reflexivity].
  apply str_eqb_eq in E. contradiction.
Qed.

Lemma dkey_eqb_eq a b : dkey_eqb a b = true <-> a = b.
Proof.
  destruct a as [x|x], b as [y|y]; simpl; split; try congruence.
  - intros H. apply str_eqb_eq in H. congruence.
  - intros H. injection H as ->. apply str_eqb_refl.
  - intros H. apply Z.eqb_eq in H. congruence.
  - intros H. injection H as ->. apply Z.eqb_refl.
Qed.

Lemma dkey_eqb_refl a : dkey_eqb a a = true.
Proof. apply dkey_eqb_eq. reflexivity. Qed.

Lemma dkey_eqb_neq a b : a <> b -> dkey_eqb a b = false.
Proof.
  intros H. destruct (dkey_eqb a b) eqn:E; [|reflexivity].
  apply dkey_eqb_eq in E. contradiction.
Qed.

(** [d[key]] read without inserting: the list, empty for a missing key. *)
Definition dd_get (key : dkey) (d : ddict) : list Value :=
  match dd_lookup key d with
  | Some l => l
  | None => []
  end.

Lemma dd_lookup_append_same key x d :
  dd_lookup key (dd_append key x d) = Some (dd_get key d ++ [x]).
Proof.
  unfold dd_get. induction d as [|[k l] d IH]; simpl.
  - rewrite dkey_eqb_refl. reflexivity.
  - destruct (dkey_eqb k key) eqn:E; simpl; rewrite E; [reflexivity|exact IH].
Qed.

Lemma dd_lookup_append_other k key x d :
  k <> key -> dd_lookup k (dd_append key x d) = dd_lookup k d.
Proof.
  intros Hk. induction d as [|[k0 l] d IH]; simpl.
  - rewrite dkey_eqb_neq; [reflexivity|congruence].
  - destruct (dkey_eqb k0 key) eqn:E; simpl.
    + apply dkey_eqb_eq in E. subst k0. rewrite dkey_eqb_neq; [|congruence].
      reflexivity.
    + destruct (dkey_eqb k0 k); [reflexivity|exact IH].
Qed.

(** The column [n] of the rows, converted. *)
Definition column (n : nat) (rows : list (list Value)) : list Value :=
  flat_map (fun rec => match nth_error rec n with
                       | Some x => [convert x]
                       | None => []
                       end) rows.

Lemma fill_column_other key n rows : forall d d' k,
  fill_column key n rows d = Ret d' -> k <> key -> dd_lookup k d' = dd_lookup k d.
Proof.
  induction rows as [|rec rest IH]; intros d d' k H Hk; simpl in H.
  - congruence.
  - destruct (nth_error rec n) as [x|]; [|discriminate].
    rewrite (IH _ _ _ H Hk). apply dd_lookup_append_other. exact Hk.
Qed.

Lemma fill_column_run key n rows : forall d,
  Forall (fun rec => n < List.length rec) rows ->
  exists d', fill_column key n rows d = Ret d' /\
    dd_lookup key d' = match rows with
                       | [] => dd_lookup key d
                       | _ => Some (dd_get key d ++ column n rows)
                       end /\
    (rows = [] -> d' = d).
Proof.
  induction rows as [|rec rest IH]; intros d Hrows.
  - exists d. auto.
  - inversion Hrows as [|? ? Hrec Hrest]; subst.
    destruct (nth_error rec n) as [x|] eqn:Ex;
      [|apply nth_error_None in Ex; lia].
    destruct (IH (dd_append key (convert x) d) Hrest) as (d' & Hrun & Hkey & Hnil).
    exists d'. cbn [fill_column]. rewrite Ex. split; [exact Hrun|].
    split; [|discriminate]. rewrite Hkey. unfold column. cbn [flat_map]. rewrite Ex.
    destruct rest as [|rec' rest'].
    + rewrite dd_lookup_append_same. reflexivity.
    + unfold dd_get at 1. rewrite dd_lookup_append_same.
      rewrite <- app_assoc. reflexivity.
Qed.

Lemma fill_dict_other keys : forall n rows d d' k,
  fill_dict keys n rows d = Ret d' ->
  (forall key, In key keys -> k <> KStr key) ->
  dd_lookup k d' = dd_lookup k d.
Proof.
  induction keys as [|key keys IH]; intros n rows d d' k H Hk; simpl in H.
  - congruence.
  - destruct (fill_column (KStr key) n rows d) as [d1|e] eqn:E1; [|discriminate].
    rewrite (IH _ _ _ _ _ H); [|intros; apply Hk; right; assumption].
    apply (fill_column_other _ _ _ _ _ _ E1). apply Hk. left. reflexivity.
Qed.

(** The columns named [key], one after the other, from the column [n] on. *)
Fixpoint columns_named (key : str) (keys : list str) (n : nat) (rows : list (list Value))
  : list Value :=
  match keys with
  | [] => []
  | k :: keys' =>
      (if str_eqb k key then column n rows else [])
      ++ columns_named key keys' (S n) rows
  end.

Lemma dd_get_fill_column key n rows d d' k :
  Forall (fun rec => n < List.length rec) rows ->
  fill_column key n rows d = Ret d' ->
  dd_get k d' = dd_get k d ++ (if dkey_eqb key k then column n rows else []).
Proof.
  intros Hrows H. destruct (fill_column_run key n rows d Hrows) as (d2 & H2 & Hkey & Hnil).
  rewrite H in H2. injection H2 as <-.
  destruct (dkey_eqb key k) eqn:E.
  - apply dkey_eqb_eq in E. subst k. destruct rows as [|rec rest].
    + rewrite (Hnil eq_refl). symmetry. apply app_nil_r.
    + unfold dd_get at 1. rewrite Hkey. reflexivity.
  - unfold dd_get. rewrite (fill_column_other _ _ _ _ _ _ H).
    + symmetry. apply app_nil_r.
    + intros ->. rewrite dkey_eqb_refl in E. discriminate.
Qed.

Lemma fill_dict_run keys : forall n rows d,
  Forall (fun rec => n + List.length keys <= List.length rec) rows ->
  exists d', fill_dict keys n rows d = Ret d' /\
    (rows = [] -> d' = d) /\
    (forall key, dd_get (KStr key) d' = dd_get (KStr key) d ++ columns_named key keys n rows) /\
    (forall k, dd_lookup k d <> None -> dd_lookup k d' <> None) /\
    (rows <> [] -> forall key, In key keys -> dd_lookup (KStr key) d' <> None).
Proof.
  induction keys as [|key0 keys IH]; intros n rows d Hrows.
  - exists d. split; [reflexivity|]. split; [auto|]. split; [|split; [auto|intros _ ? []]].
    intros key. symmetry. apply app_nil_r.
  - assert (Forall (fun rec => n < List.length rec) rows) as Hn
      by (eapply Forall_impl; [|exact Hrows]; cbn [List.length]; intros; lia).
    assert (Forall (fun rec => S n + List.length keys <= List.length rec) rows) as HS
      by (eapply Forall_impl; [|exact Hrows]; cbn [List.length]; intros; lia).
    destruct (fill_column_run (KStr key0) n rows d Hn) as (d1 & H1 & Hkey1 & Hnil1).
    destruct (IH (S n) rows d1 HS) as (d' & H' & Hnil' & Hget' & Hmono' & Hin').
    exists d'. cbn [fill_dict]. rewrite H1. split; [exact H'|].
    split; [intros E; rewrite (Hnil' E); exact (Hnil1 E)|].
    assert (forall k, dd_lookup k d <> None -> dd_lookup k d1 <> None) as Hmono1.
    { intros k Hk. destruct (dkey_eqb k (KStr key0)) eqn:E.
      - apply dkey_eqb_eq in E. subst k. rewrite Hkey1.
        destruct rows; [exact Hk|discriminate].
      - rewrite (fill_column_other _ _ _ _ _ _ H1); [exact Hk|].
        intros ->. rewrite dkey_eqb_refl in E. discriminate. }
    split; [|split].
    + intros key. rewrite Hget', (dd_get_fill_column _ _ _ _ _ (KStr key) Hn H1).
      cbn [columns_named dkey_eqb]. rewrite <- app_assoc. reflexivity.
    + intros k Hk. apply Hmono', Hmono1, Hk.
    + intros Hne key [->|Hin]; [|exact (Hin' Hne key Hin)].
      apply Hmono'. rewrite Hkey1. destruct rows; [contradiction|discriminate].
Qed.

Lemma columns_named_notin key keys : forall n rows,
  ~ In key keys -> columns_named key keys n rows = [].
Proof.
  induction keys as [|k keys IH]; intros n rows Hin; [reflexivity|].
  cbn [columns_named]. rewrite str_eqb_neq; [|intros ->; apply Hin; left; reflexivity].
  apply IH. intros H. apply Hin. right. exact H.
Qed.

Lemma columns_named_nodup key keys : forall n i rows,
  NoDup keys -> nth_error keys i = Some key ->
  columns_named key keys n rows = column (n + i) rows.
Proof.
  induction keys as [|k keys IH]; intros n i rows Hnd Hi; [destruct i; discriminate|].
  inversion Hnd as [|? ? Hk Hnd']; subst. destruct i as [|i]; cbn [nth_error] in Hi.
  - injection Hi as ->. cbn [columns_named]. rewrite str_eqb_refl.
    rewrite (columns_named_notin _ _ _ _ Hk), app_nil_r, Nat.add_0_r. reflexivity.
  - cbn [columns_named]. rewrite str_eqb_neq.
    + rewrite (IH (S n) i rows Hnd' Hi). cbn [app]. f_equal. lia.
    + intros ->. apply Hk. eapply nth_error_In. exact Hi.
Qed.

Lemma column_length n rows :
  Forall (fun rec => n < List.length rec) rows ->
  List.length (column n rows) = List.length rows.
Proof.
  induction 1 as [|rec rest Hrec _ IH]; [reflexivity|].
  unfold column in *. cbn [flat_map]. destruct (nth_error rec n) eqn:E;
    [|apply nth_error_None in E; lia].
  cbn [app List.length]. rewrite IH. reflexivity.
Qed.

(** X15.  The dictionary [_execute_wrapper] builds from rows that have a
    value for every column: with no row it is empty, whatever the columns
    are; with rows, its keys are exactly the column names, and for column
    names that are distinct the list under a name holds the values of that
    column, one for each row in the order of the rows, each [Decimal]
    turned into a float. *)
Theorem dict_holds_the_columns (keys : list str) (rows : list (list Value)) :
  Forall (fun rec => List.length keys <= List.length rec) rows ->
  exists d,
    fill_dict keys 0 rows [] = Ret d /\
    (rows = [] -> d = []) /\
    (forall key, dd_lookup (KStr key) d = None <-> rows = [] \/ ~ In key keys) /\
    (forall z, dd_lookup (KInt z) d = None) /\
    (NoDup keys ->
     forall i key, nth_error keys i = Some key ->
       dd_get (KStr key) d = column i rows /\
       List.length (dd_get (KStr key) d) = List.length rows).
Proof.
  intros Hrows.
  destruct (fill_dict_run keys 0 rows [] Hrows) as (d & H & Hnil & Hget & _ & Hin).
  exists d. split; [exact H|]. split; [exact Hnil|]. split; [|split].
  - intros key. split.
    + intros Hnone. destruct rows as [|rec rest]; [left; reflexivity|]. right.
      intros Hk. apply (Hin ltac:(discriminate) key Hk). exact Hnone.
    + intros [->|Hk]; [rewrite (Hnil eq_refl); reflexivity|].
      rewrite (fill_dict_other _ _ _ _ _ _ H); [reflexivity|].
      intros key' Hk' E. injection E as ->. contradiction.
  - intros z. rewrite (fill_dict_other _ _ _ _ _ _ H); [reflexivity|discriminate].
  - intros Hnd i key Hi. rewrite Hget. cbn [dd_get dd_lookup app].
    rewrite (columns_named_nodup _ _ _ _ _ Hnd Hi). cbn [Nat.add].
    split; [reflexivity|]. apply column_length.
    eapply Forall_impl; [|exact Hrows]. intros rec Hrec. cbn beta in Hrec.
    assert (i < List.length keys) by (apply nth_error_Some; congruence). lia.
Qed.

(** ** What [_execute_wrapper] does *)

(** [s'] is [s] after the events [evs], on the same connection. *)
Definition extends (s s' : dbstate) (evs : list dbevent) : Prop :=
  conn s' = conn s /\ dlog s' = dlog s ++ evs.

Lemma extends_refl s : extends s s [].
Proof. split; [reflexivity|]. symmetry. apply app_nil_r. Qed.

Lemma extends_trans s s1 s2 l1 l2 :
  extends s s1 l1 -> extends s1 s2 l2 -> extends s s2 (l1 ++ l2).
Proof.
  intros [C1 L1] [C2 L2]. split; [congruence|]. rewrite L2, L1. symmetry. apply app_assoc.
Qed.

Lemma dbind_inv {A B : Type} (m : DB A) (f : A -> DB B) s r s' :
  dbind m f s = (r, s') ->
  (exists a s1, m s = (Ret a, s1) /\ f a s1 = (r, s')) \/
  (exists e, m s = (Raise e, s') /\ r = Raise e).
Proof.
  unfold dbind. destruct (m s) as [[a|e] s1]; intros H.
  - left. eauto.
  - right. injection H as Hr Hs. subst. eauto.
Qed.

Lemma dbind_ret_inv {A B : Type} (m : DB A) (f : A -> DB B) s b s' :
  dbind m f s = (Ret b, s') ->
  exists a s1, m s = (Ret a, s1) /\ f a s1 = (Ret b, s').
Proof.
  intros H. apply dbind_inv in H as [H|[e [_ H]]]; [exact H|discriminate].
Qed.

Lemma dcall_inv {A : Type} ev (f : DWorld -> outcome A * DWorld) s r s' :
  dcall ev f s = (r, s') ->
  r = fst (f (dworld s)) /\ dworld s' = snd (f (dworld s)) /\ extends s s' [ev].
Proof.
  unfold dcall. destruct (f (dworld s)) as [r0 w]. intros H. injection H as Hr Hs.
  subst. repeat split.
Qed.

Lemma the_conn_inv s r s' :
  the_conn s = (r, s') ->
  s' = s /\
  match conn s with
  | Some c => r = Ret c
  | None => r = Raise attribute_error
  end.
Proof. unfold the_conn. destruct (conn s); intros H; injection H as Hr Hs; subst; auto. Qed.

Lemma with_cursor_inv {A : Type} curs (body : DB A) s r s' :
  with_cursor curs body s = (r, s') ->
  exists rb s1, body s = (rb, s1) /\ dworld s' = snd (db_close_cursor db curs (dworld s1)) /\
    extends s1 s' [DbCloseCursor] /\
    match fst (db_close_cursor db curs (dworld s1)) with
    | Ret _ => r = rb
    | Raise e => r = Raise e
    end.
Proof.
  unfold with_cursor. destruct (body s) as [rb s1].
  destruct (dcall DbCloseCursor (db_close_cursor db curs) s1) as [rc s2] eqn:E.
  apply dcall_inv in E as (Hr & Hw & Hx). intros H. exists rb, s1.
  split; [reflexivity|]. rewrite <- Hr.
  destruct rc; injection H as H1 H2; subst; auto.
Qed.

Lemma exit_on_error_inv {A : Type} (m : DB A) s r s' :
  exit_on_error m s = (r, s') ->
  (m s = (r, s') /\ match r with Ret _ => True | Raise e => is_Exception e = false end) \/
  (exists e s1, m s = (Raise e, s1) /\ is_Exception e = true /\
     r = Raise (SystemExit 1) /\ s' = dlogged s1 [DbLogError e]).
Proof.
  unfold exit_on_error. destruct (m s) as [[a|e] s1]; intros H.
  - left. injection H as Hr Hs. subst. auto.
  - destruct (is_Exception e) eqn:E; injection H as Hr Hs; subst.
    + right. eauto 6.
    + left. auto.
Qed.

Definition is_DbCloseCursor (ev : dbevent) : bool :=
  match ev with
  | DbCloseCursor => true
  | _ => false
  end.

Definition is_DbCommit (ev : dbevent) : bool :=
  match ev with
  | DbCommit => true
  | _ => false
  end.

Definition is_DbPrint (ev : dbevent) : bool :=
  match ev with
  | DbPrint _ | DbPrintError _ => true
  | _ => false
  end.

Definition is_DbExecute (ev : dbevent) : bool :=
  match ev with
  | DbExecute _ _ => true
  | _ => false
  end.

(** How many events of a kind a log holds. *)
Definition dcount (kind : dbevent -> bool) (l : list dbevent) : nat :=
  List.length (filter kind l).

Lemma dcount_app kind l l' : dcount kind (l ++ l') = dcount kind l + dcount kind l'.
Proof. unfold dcount. rewrite filter_app. apply length_app. Qed.

Lemma column_names_inv curs s r s' : column_names curs s = (r, s') -> s' = s.
Proof.
  unfold column_names. destruct (db_description db curs (dworld s)); congruence.
Qed.

Lemma lift_inv {A : Type} (o : outcome A) s r s' : lift o s = (r, s') -> r = o /\ s' = s.
Proof. unfold lift. intros H. injection H as <- <-. auto. Qed.

Lemma dret_inv {A : Type} (a : A) s r s' : dret a s = (r, s') -> r = Ret a /\ s' = s.
Proof. unfold dret. intros H. injection H as <- <-. auto. Qed.


Lemma with_block_events (q : composable) (v : option (list Value))
    (retval return_dict : bool) curs s rb s1 :
  with_block q v retval return_dict curs s = (rb, s1) ->
  exists pre, extends s s1 (DbExecute q v :: pre) /\ (pre = [] \/ pre = [DbFetchall]).
Proof.
  unfold with_block.
  intros H. apply dbind_inv in H as [(u & s2 & He & H)|(e & He & _)];
    apply dcall_inv in He as (_ & _ & X1); [|exists []; split; [exact X1|auto]].
  assert (exists pre, extends s2 s1 pre /\ (pre = [] \/ pre = [DbFetchall]))
    as (pre & X2 & Hpre).
  { destruct retval; [|apply dret_inv in H as [_ ->]; exists []; split;
                        [apply extends_refl|auto]].
    exists [DbFetchall]. split; [|auto]. destruct return_dict.
    - apply dbind_inv in H as [(rows & s3 & Hf & H)|(e & Hf & _)];
        apply dcall_inv in Hf as (_ & _ & X2); [|exact X2].
      apply dbind_inv in H as [(keys & s4 & Hk & H)|(e & Hk & _)];
        apply column_names_inv in Hk as ->; [|exact X2].
      apply dbind_inv in H as [(d & s5 & Hd & H)|(e & Hd & _)];
        apply lift_inv in Hd as [_ ->]; [|exact X2].
      apply dret_inv in H as [_ ->]. exact X2.
    - apply dbind_inv in H as [(rows & s3 & Hf & H)|(e & Hf & _)];
        apply dcall_inv in Hf as (_ & _ & X2); [|exact X2].
      apply dret_inv in H as [_ ->]. exact X2. }
  exists pre. split; [exact (extends_trans _ _ _ _ _ X1 X2)|exact Hpre].
Qed.

(** The three ways through the block under [try]: no connection, no
    cursor, or a cursor that is closed. *)
Lemma try_block_paths (q : composable) (v : option (list Value))
    (retval return_dict : bool) s r s' :
  try_block q v retval return_dict s = (r, s') ->
  exists evs, extends s s' evs /\
    ((conn s = None /\ evs = [] /\ r = Raise attribute_error) \/
     (exists c e, conn s = Some c /\ fst (db_cursor db c (dworld s)) = Raise e /\
        evs = [DbCursor] /\ r = Raise e) \/
     (exists c curs pre post,
        conn s = Some c /\ fst (db_cursor db c (dworld s)) = Ret curs /\
        evs = [DbCursor; DbExecute q v] ++ pre ++ [DbCloseCursor] ++ post /\
        (pre = [] \/ pre = [DbFetchall]) /\ (post = [] \/ post = [DbCommit]))).
Proof.
  unfold try_block. intros H0.
  apply dbind_inv in H0 as [(c & s1 & Hc & H0)|(e & Hc & ->)];
    apply the_conn_inv in Hc as [-> Hc]; destruct (conn s) as [c0|] eqn:Ec;
    try discriminate.
  2:{ injection Hc as ->. exists []. split; [apply extends_refl|]. left. auto. }
  injection Hc as ->.
  apply dbind_inv in H0 as [(curs & s2 & Hcurs & H0)|(e & Hcurs & ->)];
    apply dcall_inv in Hcurs as (Hcurs & _ & X1).
  2:{ exists [DbCursor]. split; [exact X1|]. right. left. exists c0, e. auto. }
  assert (exists returned s3 pre,
            extends s2 s3 (DbExecute q v :: pre ++ [DbCloseCursor]) /\
            (pre = [] \/ pre = [DbFetchall]) /\
            ((r = returned /\ s' = s3) \/
             (returned = Ret RNone /\
              (dcall DbCommit (db_commit db c0) ;;; dret RNone) s3 = (r, s'))))
    as (returned & s3 & pre & X2 & Hpre & Hrest).
  { apply dbind_inv in H0 as [(returned & s3 & Hw & H0)|(e & Hw & ->)];
      apply with_cursor_inv in Hw as (rb & s4 & Hb & _ & X4 & _);
      apply with_block_events in Hb as (pre & X3 & Hpre);
      pose proof (extends_trans _ _ _ _ _ X3 X4) as X34; cbn [app] in X34.
    - destruct returned as [x|].
      + apply dret_inv in H0 as [-> ->]. exists (Ret x), s3, pre. auto.
      + exists (Ret RNone), s3, pre. auto.
    - exists (Raise e), s', pre. auto. }
  destruct Hrest as [[-> ->]|[-> Hcommit]].
  - eexists. split; [exact (extends_trans _ _ _ _ _ X1 X2)|]. right. right.
    exists c0, curs, pre, []. cbn [app]. repeat split; auto.
  - assert (extends s3 s' [DbCommit]) as X5.
    { apply dbind_inv in Hcommit as [(u & s5 & Hcm & H5)|(e & Hcm & _)];
        apply dcall_inv in Hcm as (_ & _ & X5); [|exact X5].
      apply dret_inv in H5 as [_ ->]. exact X5. }
    eexists. split;
      [exact (extends_trans _ _ _ _ _ (extends_trans _ _ _ _ _ X1 X2) X5)|].
    right. right. exists c0, curs, pre, [DbCommit]. cbn [app].
    rewrite <- app_assoc. repeat split; auto.
Qed.

(** A return of [_execute_wrapper]: the events, and what is returned. *)
Lemma wrapper_ret_inv (q : composable) (v : option (list Value))
    (retval return_dict : bool) s r s' :
  _execute_wrapper q v retval return_dict s = (Ret r, s') ->
  extends s s' (if retval
                then [DbCursor; DbExecute q v; DbFetchall; DbCloseCursor]
                else [DbCursor; DbExecute q v; DbCloseCursor; DbCommit]) /\
  (if retval
   then if return_dict
        then exists keys rows d, r = RDict d /\ fill_dict keys 0 rows [] = Ret d
        else exists rows, r = RRows rows
   else r = RNone).
Proof.
  unfold _execute_wrapper, try_block. intros H.
  apply exit_on_error_inv in H as [[H _]|(e & s1 & _ & _ & H & _)]; [|discriminate].
  apply dbind_ret_inv in H as (c & s1 & Hc & H).
  apply the_conn_inv in Hc as [-> _].
  apply dbind_ret_inv in H as (curs & s2 & Hcurs & H).
  apply dcall_inv in Hcurs as (_ & _ & X1).
  apply dbind_ret_inv in H as (returned & s3 & Hwith & H).
  apply with_cursor_inv in Hwith as (rb & s4 & Hbody & _ & X4 & Hclose).
  assert (rb = Ret returned) as -> by
    (destruct (fst (db_close_cursor db curs (dworld s4))); [auto|discriminate]).
  unfold with_block in Hbody.
  apply dbind_ret_inv in Hbody as (u & s5 & Hexec & Hbody).
  apply dcall_inv in Hexec as (_ & _ & X2).
  pose proof (extends_trans _ _ _ _ _ X1 X2) as X12. cbn [app] in X12.
  destruct retval.
  - assert (extends s5 s4 [DbFetchall] /\
            exists x, returned = Some x /\
              if return_dict
              then exists keys rows d, x = RDict d /\ fill_dict keys 0 rows [] = Ret d
              else exists rows, x = RRows rows)
      as (X3 & x & -> & Hx).
    { destruct return_dict.
      - apply dbind_ret_inv in Hbody as (rows & s6 & Hf & Hbody).
        apply dcall_inv in Hf as (_ & _ & X3).
        apply dbind_ret_inv in Hbody as (keys & s7 & Hk & Hbody).
        apply column_names_inv in Hk as ->.
        apply dbind_ret_inv in Hbody as (d & s8 & Hd & Hbody).
        apply lift_inv in Hd as [Hd ->].
        apply dret_inv in Hbody as [Hr ->]. injection Hr as ->.
        split; [exact X3|]. eexists. split; [reflexivity|]. exists keys, rows, d. auto.
      - apply dbind_ret_inv in Hbody as (rows & s6 & Hf & Hbody).
        apply dcall_inv in Hf as (_ & _ & X3).
        apply dret_inv in Hbody as [Hr ->]. injection Hr as ->.
        split; [exact X3|]. eexists. split; [reflexivity|]. exists rows. reflexivity. }
    apply dret_inv in H as [Hr ->]. injection Hr as ->.
    split; [|exact Hx].
    exact (extends_trans _ _ _ _ _ (extends_trans _ _ _ _ _ X12 X3) X4).
  - apply dret_inv in Hbody as [Hr ->]. injection Hr as ->.
    apply dbind_ret_inv in H as (u' & s6 & Hcommit & H).
    apply dcall_inv in Hcommit as (_ & _ & X5).
    apply dret_inv in H as [Hr ->]. injection Hr as ->.
    split; [|reflexivity].
    exact (extends_trans _ _ _ _ _ (extends_trans _ _ _ _ _ X12 X4) X5).
Qed.

(** However [_execute_wrapper] ends: nothing is printed and at most one
    statement is executed. *)
Lemma wrapper_events (q : composable) (v : option (list Value))
    (retval return_dict : bool) s r s' :
  _execute_wrapper q v retval return_dict s = (r, s') ->
  exists evs, extends s s' evs /\
    dcount is_DbPrint evs = 0 /\ dcount is_DbExecute evs <= 1 /\
    match r with Ret _ => True | Raise e => is_Exception e = false end.
Proof.
  unfold _execute_wrapper. intros H.
  assert (forall r0 s0, try_block q v retval return_dict s = (r0, s0) ->
            exists evs, extends s s0 evs /\
              dcount is_DbPrint evs = 0 /\ dcount is_DbExecute evs <= 1) as Inner.
  { intros r0 s0 H0. apply try_block_paths in H0 as (evs & X & Hpaths).
    exists evs. split; [exact X|].
    destruct Hpaths as [(_ & -> & _)|[(c & e & _ & _ & -> & _)|
      (c & curs & pre & post & _ & _ & -> & Hpre & Hpost)]];
      [split; [reflexivity|apply Nat.le_0_l]..|].
    destruct Hpre as [->| ->], Hpost as [->| ->]; split;
      solve [reflexivity | apply Nat.le_refl]. }
  apply exit_on_error_inv in H as [[H Hr]|(e & s1 & H & He & -> & ->)];
    apply Inner in H as (evs & X & Hp & Hx).
  - exists evs. auto.
  - exists (evs ++ [DbLogError e]). split; [|split; [|split; [|reflexivity]]].
    + destruct X as [C L]. split; [exact C|]. cbn [dlogged dlog]. rewrite L.
      symmetry. apply app_assoc.
    + rewrite dcount_app, Hp. reflexivity.
    + rewrite dcount_app. change (dcount is_DbExecute [DbLogError e]) with 0.
      rewrite Nat.add_0_r. exact Hx.
Qed.

(** X16.  When [_execute_wrapper] returns, the cursor was opened, the
    statement executed with the values given and the cursor closed; the
    transaction is committed exactly when no value was asked for.  With
    [retval] the rows are fetched and returned from inside the [with] block,
    so the commit is skipped: the result is never [None] and nothing is
    committed. *)
Theorem execute_wrapper_commits_without_retval
    (q : composable) (v : option (list Value)) (retval return_dict : bool)
    (s s' : dbstate) (r : result) :
  _execute_wrapper q v retval return_dict s = (Ret r, s') ->
  conn s' = conn s /\
  if retval
  then dlog s' = dlog s ++ [DbCursor; DbExecute q v; DbFetchall; DbCloseCursor] /\
       r <> RNone
  else dlog s' = dlog s ++ [DbCursor; DbExecute q v; DbCloseCursor; DbCommit] /\
       r = RNone.
Proof.
  intros H. apply wrapper_ret_inv in H as [[C L] Hr]. split; [exact C|].
  destruct retval; (split; [exact L|]); [|exact Hr].
  destruct return_dict.
  - destruct Hr as (keys & rows & d & -> & _). discriminate.
  - destruct Hr as (rows & ->). discriminate.
Qed.

(** X17.  However [_execute_wrapper] ends, it ends on the same connection
    and never with an exception of class [Exception]: such an exception is
    logged and becomes the exit of the process with code 1.  Once the cursor
    was opened it is closed exactly once, also when the statement or the
    fetch fails, and a commit never comes before that closing. *)
Theorem cursor_closed_on_every_path
    (q : composable) (v : option (list Value)) (retval return_dict : bool)
    (s s' : dbstate) (r : outcome result) (c : Conn) (curs : Cursor) :
  conn s = Some c ->
  fst (db_cursor db c (dworld s)) = Ret curs ->
  _execute_wrapper q v retval return_dict s = (r, s') ->
  conn s' = conn s /\
  match r with Ret _ => True | Raise e => is_Exception e = false end /\
  exists pre post,
    dlog s' = dlog s ++ [DbCursor; DbExecute q v] ++ pre ++ [DbCloseCursor] ++ post /\
    dcount is_DbCloseCursor (pre ++ post) = 0 /\
    dcount is_DbCommit pre = 0.
Proof.
  unfold _execute_wrapper. intros Hc Hcurs H.
  assert (forall r0 s0, try_block q v retval return_dict s = (r0, s0) ->
    exists pre post,
      extends s s0 ([DbCursor; DbExecute q v] ++ pre ++ [DbCloseCursor] ++ post) /\
      (pre = [] \/ pre = [DbFetchall]) /\ (post = [] \/ post = [DbCommit])) as Inner.
  { intros r0 s0 H0. apply try_block_paths in H0 as (evs & X & Hpaths).
    destruct Hpaths as [(Hn & _)|[(c' & e & Hc' & He & _)|
      (c' & curs' & pre & post & _ & _ & -> & Hpre & Hpost)]].
    - congruence.
    - rewrite Hc in Hc'. injection Hc' as <-. congruence.
    - exists pre, post. auto. }
  apply exit_on_error_inv in H as [[H Hr]|(e & s1 & H & He & -> & ->)];
    apply Inner in H as (pre & post & [C L] & Hpre & Hpost).
  - split; [exact C|]. split; [exact Hr|]. exists pre, post. split; [exact L|].
    destruct Hpre as [->| ->], Hpost as [->| ->]; split; reflexivity.
  - split; [exact C|]. split; [reflexivity|].
    exists pre, (post ++ [DbLogError e]). cbn [dlogged dlog]. rewrite L.
    split; [rewrite <- !app_assoc; reflexivity|].
    destruct Hpre as [->| ->], Hpost as [->| ->]; split; reflexivity.
Qed.

(** ** The methods *)

Lemma dbind_ret_run {A B : Type} (m : DB A) (f : A -> DB B) s a s1 :
  m s = (Ret a, s1) -> dbind m f s = f a s1.
Proof. unfold dbind. intros ->. reflexivity. Qed.

Lemma dbind_raise_run {A B : Type} (m : DB A) (f : A -> DB B) s e s1 :
  m s = (Raise e, s1) -> dbind m f s = (Raise e, s1).
Proof. unfold dbind. intros ->. reflexivity. Qed.

Lemma placeholders_conditions op (l : record) :
  list_sum (List.map placeholders (List.map (condition op) l)) = 0.
Proof. induction l as [|kv l IH]; [reflexivity|exact IH]. Qed.

Lemma identifiers_conditions op (l : record) :
  flat_map identifiers (List.map (condition op) l) = [].
Proof. induction l as [|kv l IH]; [reflexivity|exact IH]. Qed.

Lemma sep_by_three sep a b c : sep_by sep [a; b; c] = a ++ sep ++ b ++ sep ++ c.
Proof. reflexivity. Qed.

(** X18.  [load_table_matching] writes its conditions with an f-string, so
    each is the text of the [repr] of an [Identifier] and of a
    [Placeholder]: the statement quotes no name but the table and holds no
    placeholder at all, while one value for each key is passed with it.
    With an empty dictionary nothing reaches the database: the IndexError of
    [like_statement[0]] leaves the method. *)
Theorem load_table_matching_has_no_placeholder
    (table : str) (kv : str * Value) (rest : record) (s : dbstate) :
  load_table_matching table [] s
  = (Raise (index_error "list index out of range"), s) /\
  exists stmt,
    load_table_matching_statement table (kv :: rest) = Ret stmt /\
    load_table_matching table (kv :: rest) s
    = _execute_wrapper stmt (Some (List.map snd (kv :: rest))) true true s /\
    placeholders stmt = 0 /\
    identifiers stmt = [table] /\
    as_string stmt
    = lit "SELECT * FROM " ++ quote_ident table ++ lit " WHERE "
      ++ sep_by (lit " AND ")
           (List.map (fun c => repr_identifier (fst c)
                               ++ lit (match rest with [] => " LIKE " | _ => " = " end)
                               ++ repr_placeholder) (kv :: rest)).
Proof.
  split; [reflexivity|].
  unfold load_table_matching, load_table_matching_statement. rewrite format_select.
  destruct rest as [|kv' rest].
  - eexists. split; [reflexivity|]. split; [reflexivity|]. split; [|split].
    + reflexivity.
    + reflexivity.
    + cbn [List.length Nat.ltb Nat.leb List.map]. render.
      unfold condition. cbn [as_string sep_by List.map fst].
      rewrite <- !app_assoc. reflexivity.
  - eexists. split; [reflexivity|]. split; [reflexivity|]. split; [|split].
    + render. rewrite placeholders_conditions. reflexivity.
    + render. rewrite identifiers_conditions. reflexivity.
    + render. rewrite map_map. unfold condition. cbn [as_string].
      rewrite sep_by_three, <- !app_assoc. reflexivity.
Qed.

(** X19.  [insert_event] builds for the dictionary of an event what [insert]
    builds for the table events, but for the case of the first two words:
    the same names quoted, the same placeholders, the same text after
    them. *)
Theorem insert_event_like_insert (event_dict : record) :
  exists stmt stmt' rest,
    insert_statement (lit "events") event_dict = Ret stmt /\
    insert_event_statement event_dict = Ret stmt' /\
    as_string stmt = lit "INSERT INTO " ++ rest /\
    as_string stmt' = lit "insert into " ++ rest /\
    placeholders stmt' = placeholders stmt /\
    identifiers stmt' = identifiers stmt.
Proof.
  unfold insert_statement, insert_event_statement, comma_space. rewrite format_one, format_insert.
  eexists. eexists.
  exists (quote_ident (lit "events") ++ lit " ("
          ++ sep_by (lit ", ") (List.map (fun kv => quote_ident (fst kv)) event_dict)
          ++ lit ") VALUES ("
          ++ sep_by (lit ", ") (repeat (lit "%s") (List.length event_dict)) ++ lit ");").
  split; [reflexivity|]. split; [reflexivity|].
  split; [|split; [|split]].
  - render. reflexivity.
  - render. reflexivity.
  - render. reflexivity.
  - render. reflexivity.
Qed.

(** X20.  A statement that fails with an exception of class [Exception]:
    the cursor is closed, the exception is logged and the process exits with
    code 1; nothing is fetched, nothing is committed and nothing is rolled
    back. *)
Theorem failed_statement_exits
    (q : composable) (v : option (list Value)) (retval return_dict : bool)
    (s : dbstate) (c : Conn) (curs : Cursor) (e : exn) (w1 w2 w3 : DWorld) :
  conn s = Some c ->
  db_cursor db c (dworld s) = (Ret curs, w1) ->
  db_execute db curs q v w1 = (Raise e, w2) ->
  is_Exception e = true ->
  db_close_cursor db curs w2 = (Ret tt, w3) ->
  _execute_wrapper q v retval return_dict s
  = (Raise (SystemExit 1),
     {| conn := Some c; dworld := w3;
        dlog := dlog s ++ [DbCursor; DbExecute q v; DbCloseCursor; DbLogError e] |}).
Proof.
  intros Hc Hcurs Hexec He Hclose.
  unfold _execute_wrapper, exit_on_error, try_block, with_block, with_cursor, dbind,
    the_conn, dcall.
  rewrite Hc. cbn [dworld conn dlog]. rewrite Hcurs. cbn [dworld conn dlog].
  rewrite Hexec. cbn [dworld conn dlog]. rewrite Hclose, He.
  unfold dlogged. cbn [dworld conn dlog]. rewrite ?Hc, <- !app_assoc. reflexivity.
Qed.

Lemma fill_dict_no_int keys rows d z :
  fill_dict keys 0 rows [] = Ret d -> dd_lookup (KInt z) d = None.
Proof.
  intros H. rewrite (fill_dict_other _ _ _ _ _ _ H); [reflexivity|discriminate].
Qed.

Definition script_start : composable :=
  Composed [SQL (lit "SELECT MAX("); Identifier (lit "exec_date"); SQL (lit ") AS mx FROM ");
            Identifier (lit "executions"); SQL (lit " WHERE "); Identifier (lit "script");
            SQL (lit " = "); Placeholder].

Lemma format_script_start :
  sql_format (lit "SELECT MAX({}) AS mx FROM {} WHERE {} = {}")
    [Identifier (lit "exec_date"); Identifier (lit "executions");
     Identifier (lit "script"); Placeholder]
  = Ret script_start.
Proof. reflexivity. Qed.

Lemma format_counter :
  exists counter,
    sql_format counter_template
      [Identifier (lit "events"); Identifier (lit "EventDate");
       Placeholder; Identifier (lit "EventType")]
    = Ret counter.
Proof. eexists. reflexivity. Qed.

(** X21.  [print_summary] never prints: it ends in every case with an
    exception, after at most one statement.  When the first query returns,
    its result is the dictionary of the columns, whose keys are column
    names; [st[0]] is then the empty list the dictionary makes for the
    missing key 0, and [st[0][0]] raises an IndexError before any count is
    asked for. *)
Theorem print_summary_never_prints (script : Value) (s : dbstate) :
  exists e s' evs,
    print_summary script s = (Raise e, s') /\
    conn s' = conn s /\
    dlog s' = dlog s ++ evs /\
    dcount is_DbPrint evs = 0 /\
    dcount is_DbExecute evs <= 1 /\
    (is_Exception e = true ->
     e = index_error "list index out of range" /\
     evs = [DbCursor; DbExecute script_start (Some [script]); DbFetchall; DbCloseCursor]).
Proof.
  unfold print_summary. rewrite format_script_start.
  destruct format_counter as [counter ->].
  rewrite (dbind_ret_run _ _ s script_start s) by reflexivity.
  destruct (_execute_wrapper script_start (Some [script]) true true s) as [[st|e] s1] eqn:E.
  - rewrite (dbind_ret_run _ _ _ _ _ E).
    rewrite (dbind_ret_run _ _ s1 counter s1) by reflexivity.
    destruct (wrapper_ret_inv _ _ _ _ _ _ _ E) as [[C L] (keys & rows & d & -> & Hd)].
    assert (count_events counter (RDict d) "info" s1
            = (Raise (index_error "list index out of range"), s1)) as Hcount.
    { unfold count_events, item00, dd_getitem.
      rewrite (fill_dict_no_int _ _ _ 0 Hd). reflexivity. }
    rewrite (dbind_raise_run _ _ _ _ _ Hcount).
    eexists. exists s1. eexists. split; [reflexivity|]. split; [exact C|].
    split; [exact L|]. split; [reflexivity|]. split; [apply Nat.le_refl|].
    intros _. split; reflexivity.
  - rewrite (dbind_raise_run _ _ _ _ _ E).
    destruct (wrapper_events _ _ _ _ _ _ _ E) as (evs & [C L] & Hp & Hx & He).
    exists e, s1, evs. split; [reflexivity|]. split; [exact C|]. split; [exact L|].
    split; [exact Hp|]. split; [exact Hx|]. intros He'. congruence.
Qed.

(** ** The constructor *)

(** The settings the connection string is made of, in the order they are
    read. *)
Definition dsn_keys : list str :=
  [lit "database"; lit "hostname"; lit "username"; lit "password"].

Definition missing (config : record) (key : str) : bool :=
  match lookup key config with
  | Some _ => false
  | None => true
  end.

Lemma connect_dsn_missing config key :
  find (missing config) dsn_keys = Some key -> connect_dsn config = Raise (key_error key).
Proof.
  unfold connect_dsn, getitem, dsn_keys, missing. cbn [find].
  destruct (lookup (lit "database") config); [|intros H; injection H as <-; reflexivity].
  destruct (lookup (lit "hostname") config); [|intros H; injection H as <-; reflexivity].
  destruct (lookup (lit "username") config); [|intros H; injection H as <-; reflexivity].
  destruct (lookup (lit "password") config); [|intros H; injection H as <-; reflexivity].
  discriminate.
Qed.

Lemma connect_dsn_ret config dsn :
  connect_dsn config = Ret dsn ->
  exists database hostname username password,
    lookup (lit "database") config = Some database /\
    lookup (lit "hostname") config = Some hostname /\
    lookup (lit "username") config = Some username /\
    lookup (lit "password") config = Some password /\
    dsn = dsn_of database hostname username password.
Proof.
  unfold connect_dsn, getitem.
  destruct (lookup (lit "database") config) as [database|]; [|discriminate].
  destruct (lookup (lit "hostname") config) as [hostname|]; [|discriminate].
  destruct (lookup (lit "username") config) as [username|]; [|discriminate].
  destruct (lookup (lit "password") config) as [password|]; [|discriminate].
  intros H. injection H as <-. exists database, hostname, username, password. auto 6.
Qed.

Lemma demit_inv ev s r s' : demit ev s = (r, s') -> r = Ret tt /\ s' = dlogged s [ev].
Proof. unfold demit. intros H. injection H as <- <-. auto. Qed.

Lemma set_conn_inv c s r s' :
  set_conn c s = (r, s') ->
  r = Ret tt /\ s' = {| conn := c; dworld := dworld s; dlog := dlog s |}.
Proof. unfold set_conn. intros H. injection H as <- <-. auto. Qed.

(** X22.  A [Connection] made from settings that lack one of database,
    hostname, username and password: the first of them that is missing, in
    this order, is the KeyError that is logged; the process exits with code
    1, [conn] is None and the database was never called. *)
Theorem init_missing_setting
    (config : record) (parent_logger : str) (s : dbstate) (key : str) :
  find (missing config) dsn_keys = Some key ->
  Connection__init__ config parent_logger s
  = (Raise (SystemExit 1),
     {| conn := None; dworld := dworld s;
        dlog := dlog s ++ [DbLogDebug (lit "Initializing Connection object.");
                           DbLogError (key_error key)] |}).
Proof.
  intros H. unfold Connection__init__, exit_on_error, dbind, demit, set_conn, lift.
  rewrite (connect_dsn_missing _ _ H). unfold dlogged. cbn [conn dworld dlog is_Exception key_error].
  rewrite <- app_assoc. reflexivity.
Qed.

(** A return of the constructor, read backwards. *)
Lemma init_ret_inv
    (config : record) (parent_logger : str) (s s' : dbstate) :
  Connection__init__ config parent_logger s = (Ret tt, s') ->
  exists database hostname username password c stmt,
    lookup (lit "database") config = Some database /\
    lookup (lit "hostname") config = Some hostname /\
    lookup (lit "username") config = Some username /\
    lookup (lit "password") config = Some password /\
    fst (db_connect db (dsn_of database hostname username password) (dworld s)) = Ret c /\
    conn s' = Some c /\
    insert_statement (lit "executions") [(lit "script", of_str parent_logger)]
    = Ret stmt /\
    dlog s'
    = dlog s ++ [DbLogDebug (lit "Initializing Connection object.");
                 DbConnect (dsn_of database hostname username password);
                 DbLogDebug (lit "Connection established: " ++ db_dsn db c);
                 DbCursor; DbExecute stmt (Some [of_str parent_logger]);
                 DbCloseCursor; DbCommit].
Proof.
  unfold Connection__init__. intros H.
  apply exit_on_error_inv in H as [[H _]|(e & s0 & _ & _ & H & _)]; [|discriminate].
  apply dbind_ret_inv in H as (u1 & s1 & H1 & H). apply demit_inv in H1 as [_ ->].
  apply dbind_ret_inv in H as (u2 & s2 & H2 & H). apply set_conn_inv in H2 as [_ ->].
  apply dbind_ret_inv in H as (dsn & s3 & H3 & H). apply lift_inv in H3 as [H3 ->].
  symmetry in H3.
  apply connect_dsn_ret in H3
    as (database & hostname & username & password & Hd & Hh & Hu & Hp & ->).
  apply dbind_ret_inv in H as (c & s4 & H4 & H).
  apply dcall_inv in H4 as (Hc & _ & [_ L4]). cbn [dworld dlogged dlog] in Hc, L4.
  apply dbind_ret_inv in H as (u5 & s5 & H5 & H). apply set_conn_inv in H5 as [_ ->].
  apply dbind_ret_inv in H as (u6 & s6 & H6 & H). apply demit_inv in H6 as [_ ->].
  unfold insert in H.
  apply dbind_ret_inv in H as (stmt & s7 & H7 & H). apply lift_inv in H7 as [H7 ->].
  apply dbind_ret_inv in H as (r & s8 & H8 & H).
  apply wrapper_ret_inv in H8 as [[C8 L8] _]. apply dret_inv in H as [_ ->].
  cbn [conn dlogged dlog] in C8, L8.
  exists database, hostname, username, password, c, stmt.
  repeat (split; [assumption || (symmetry; assumption) || idtac|]).
  rewrite L8, L4. rewrite <- !app_assoc. reflexivity.
Qed.

(** X23.  When the constructor returns, the four settings were present, the
    connection was opened with the text made of them and is kept in [conn],
    and exactly one statement was executed and committed on it: the insert
    of the name of the script into the table executions. *)
Theorem init_records_the_run
    (config : record) (parent_logger : str) (s s' : dbstate) :
  Connection__init__ config parent_logger s = (Ret tt, s') ->
  exists database hostname username password c stmt,
    lookup (lit "database") config = Some database /\
    lookup (lit "hostname") config = Some hostname /\
    lookup (lit "username") config = Some username /\
    lookup (lit "password") config = Some password /\
    fst (db_connect db (dsn_of database hostname username password) (dworld s)) = Ret c /\
    conn s' = Some c /\
    as_string stmt
    = lit "INSERT INTO " ++ quote_ident (lit "executions") ++ lit " ("
      ++ quote_ident (lit "script") ++ lit ") VALUES (%s);" /\
    dlog s'
    = dlog s ++ [DbLogDebug (lit "Initializing Connection object.");
                 DbConnect (dsn_of database hostname username password);
                 DbLogDebug (lit "Connection established: " ++ db_dsn db c);
                 DbCursor; DbExecute stmt (Some [of_str parent_logger]);
                 DbCloseCursor; DbCommit].
Proof.
  intros H. apply init_ret_inv in H
    as (database & hostname & username & password & c & stmt
        & Hd & Hh & Hu & Hp & Hc & Hconn & Hstmt & L).
  exists database, hostname, username, password, c, stmt.
  repeat (split; [assumption|]). split; [|exact L].
  unfold insert_statement, comma_space in Hstmt. rewrite format_one, format_insert in Hstmt.
  injection Hstmt as <-. reflexivity.
Qed.

(** ** The constructor of [RinexArchive] *)

(** Nothing is printed in any run of [m]. *)
Definition quiet {A : Type} (m : DB A) : Prop :=
  forall s r s', m s = (r, s') ->
    exists evs, dlog s' = dlog s ++ evs /\ dcount is_DbPrint evs = 0.

(** No exception of class [Exception] leaves [m]. *)
Definition contained {A : Type} (m : DB A) : Prop :=
  forall s e s', m s = (Raise e, s') -> is_Exception e = false.

Lemma quiet_same {A : Type} (m : DB A) :
  (forall s r s', m s = (r, s') -> dlog s' = dlog s) -> quiet m.
Proof.
  intros H s r s' E. exists []. rewrite (H _ _ _ E), app_nil_r. auto.
Qed.

Lemma quiet_dbind {A B : Type} (m : DB A) (f : A -> DB B) :
  quiet m -> (forall a, quiet (f a)) -> quiet (dbind m f).
Proof.
  intros Hm Hf s r s' E. apply dbind_inv in E as [(a & s1 & E1 & E2)|(e & E1 & _)].
  - destruct (Hm _ _ _ E1) as (l1 & L1 & P1). destruct (Hf a _ _ _ E2) as (l2 & L2 & P2).
    exists (l1 ++ l2). rewrite L2, L1, <- app_assoc, dcount_app, P1, P2. auto.
  - exact (Hm _ _ _ E1).
Qed.

Lemma quiet_dret {A : Type} (a : A) : quiet (dret a).
Proof. apply quiet_same. intros s r s' E. apply dret_inv in E as [_ ->]. reflexivity. Qed.

Lemma quiet_lift {A : Type} (o : outcome A) : quiet (lift o).
Proof. apply quiet_same. intros s r s' E. apply lift_inv in E as [_ ->]. reflexivity. Qed.

Lemma quiet_set_conn c : quiet (set_conn c).
Proof. apply quiet_same. intros s r s' E. apply set_conn_inv in E as [_ ->]. reflexivity. Qed.

Lemma quiet_demit ev : is_DbPrint ev = false -> quiet (demit ev).
Proof.
  intros Hev s r s' E. apply demit_inv in E as [_ ->]. exists [ev].
  split; [reflexivity|]. unfold dcount. cbn [filter]. rewrite Hev. reflexivity.
Qed.

Lemma quiet_dcall {A : Type} ev (f : DWorld -> outcome A * DWorld) :
  is_DbPrint ev = false -> quiet (dcall ev f).
Proof.
  intros Hev s r s' E. apply dcall_inv in E as (_ & _ & [_ L]). exists [ev].
  split; [exact L|]. unfold dcount. cbn [filter]. rewrite Hev. reflexivity.
Qed.

Lemma quiet_exit_on_error {A : Type} (m : DB A) : quiet m -> quiet (exit_on_error m).
Proof.
  intros Hm s r s' E. apply exit_on_error_inv in E as [[E _]|(e & s1 & E & _ & _ & ->)].
  - exact (Hm _ _ _ E).
  - destruct (Hm _ _ _ E) as (l & L & P). exists (l ++ [DbLogError e]).
    cbn [dlogged dlog]. rewrite L, <- app_assoc, dcount_app, P. auto.
Qed.

Lemma quiet_wrapper q v retval return_dict : quiet (_execute_wrapper q v retval return_dict).
Proof.
  intros s r s' E. apply wrapper_events in E as (evs & [_ L] & P & _). eauto.
Qed.

Lemma quiet_del_object m : quiet m -> quiet (del_object m).
Proof.
  intros Hm s r s' E. unfold del_object in E. destruct (m s) as [r0 s0] eqn:E0.
  injection E as _ <-. exact (Hm _ _ _ E0).
Qed.

Lemma quiet_del : quiet Connection__del__.
Proof.
  intros s r s' E. unfold Connection__del__ in E. destruct (conn s) as [c|].
  - revert s r s' E. apply quiet_dbind; [apply quiet_dcall; reflexivity|].
    intros _. apply quiet_demit. reflexivity.
  - injection E as _ <-. exists []. rewrite app_nil_r. auto.
Qed.

Lemma quiet_insert table rec : quiet (insert table rec).
Proof.
  unfold insert. apply quiet_dbind; [apply quiet_lift|]. intros q.
  apply quiet_dbind; [apply quiet_wrapper|]. intros _. apply quiet_dret.
Qed.

Lemma quiet_init config parent_logger : quiet (Connection__init__ config parent_logger).
Proof.
  unfold Connection__init__. apply quiet_exit_on_error.
  apply quiet_dbind; [apply quiet_demit; reflexivity|]. intros _.
  apply quiet_dbind; [apply quiet_set_conn|]. intros _.
  apply quiet_dbind; [apply quiet_lift|]. intros dsn.
  apply quiet_dbind; [apply quiet_dcall; reflexivity|]. intros c.
  apply quiet_dbind; [apply quiet_set_conn|]. intros _.
  apply quiet_dbind; [apply quiet_demit; reflexivity|]. intros _.
  apply quiet_insert.
Qed.

Lemma contained_dbind {A B : Type} (m : DB A) (f : A -> DB B) :
  contained m -> (forall a, contained (f a)) -> contained (dbind m f).
Proof.
  intros Hm Hf s e s' E. apply dbind_inv in E as [(a & s1 & E1 & E2)|(e' & E1 & E2)].
  - exact (Hf a _ _ _ E2).
  - injection E2 as ->. exact (Hm _ _ _ E1).
Qed.

Lemma contained_ret {A : Type} (m : DB A) :
  (forall s e s', m s <> (Raise e, s')) -> contained m.
Proof. intros H s e s' E. destruct (H _ _ _ E). Qed.

Lemma contained_exit_on_error {A : Type} (m : DB A) : contained (exit_on_error m).
Proof.
  intros s e s' E. apply exit_on_error_inv in E as [[_ E]|(e' & s1 & _ & _ & E & _)].
  - exact E.
  - injection E as ->. reflexivity.
Qed.

(** What the four loads execute. *)
Definition select_all (table : str) : composable :=
  Composed [SQL (lit "SELECT * FROM "); Identifier table].

Definition select_tankstruct : composable :=
  Composed [SQL (lit "SELECT * FROM "); Identifier (lit "rinex_tank_struct");
            SQL (lit " INNER JOIN "); Identifier (lit "keys"); SQL (lit " USING (");
            Identifier (lit "KeyCode"); SQL (lit ") ORDER BY "); Identifier (lit "Level")].

Lemma load_table_run table : load_table table = _execute_wrapper (select_all table) None true true.
Proof. reflexivity. Qed.

Lemma load_tankstruct_run : load_tankstruct = _execute_wrapper select_tankstruct None true true.
Proof. reflexivity. Qed.

(** The events of one load that returns. *)
Definition read_events (q : composable) : list dbevent :=
  [DbCursor; DbExecute q None; DbFetchall; DbCloseCursor].

Lemma read_ret_inv q s r s' :
  _execute_wrapper q None true true s = (Ret r, s') ->
  extends s s' (read_events q) /\ exists d, r = RDict d.
Proof.
  intros H. apply wrapper_ret_inv in H as [X (ks & rows & d & -> & _)]. eauto.
Qed.

(** The body of the [try] of [RinexArchive.__init__]. *)
Lemma archive_body_contained options :
  contained
    (Connection__init__ options (lit "archive") ;;;
     levels' <-- load_tankstruct ;;
     keys' <-- load_table (lit "keys") ;;
     networks' <-- load_table (lit "networks") ;;
     stations' <-- load_table (lit "stations") ;;
     del_object Connection__del__ ;;;
     dret {| levels := levels'; keys := keys'; networks := networks';
             stations := stations' |}).
Proof.
  rewrite load_tankstruct_run, !load_table_run.
  apply contained_dbind; [apply contained_exit_on_error|]. intros _.
  apply contained_dbind; [apply contained_exit_on_error|]. intros r1.
  apply contained_dbind; [apply contained_exit_on_error|]. intros r2.
  apply contained_dbind; [apply contained_exit_on_error|]. intros r3.
  apply contained_dbind; [apply contained_exit_on_error|]. intros r4.
  apply contained_dbind.
  - apply contained_ret. intros s e s'. unfold del_object.
    destruct (Connection__del__ s). discriminate.
  - intros _. apply contained_ret. intros s e s'. unfold dret. discriminate.
Qed.

Lemma archive_body_quiet options :
  quiet
    (Connection__init__ options (lit "archive") ;;;
     levels' <-- load_tankstruct ;;
     keys' <-- load_table (lit "keys") ;;
     networks' <-- load_table (lit "networks") ;;
     stations' <-- load_table (lit "stations") ;;
     del_object Connection__del__ ;;;
     dret {| levels := levels'; keys := keys'; networks := networks';
             stations := stations' |}).
Proof.
  rewrite load_tankstruct_run, !load_table_run.
  apply quiet_dbind; [apply quiet_init|]. intros _.
  apply quiet_dbind; [apply quiet_wrapper|]. intros r1.
  apply quiet_dbind; [apply quiet_wrapper|]. intros r2.
  apply quiet_dbind; [apply quiet_wrapper|]. intros r3.
  apply quiet_dbind; [apply quiet_wrapper|]. intros r4.
  apply quiet_dbind; [apply quiet_del_object, quiet_del|]. intros _. apply quiet_dret.
Qed.

(** X24.  The handler of [RinexArchive.__init__] never runs: whatever the
    settings and the database, nothing is printed, and a run that does not
    return ends with the exit of the process made inside [Connection], or
    with an exception that is not of class [Exception]; the methods of
    [Connection] let no other through. *)
Theorem archive_init_never_prints (options : record) (s : dbstate) :
  exists r s' evs,
    RinexArchive__init__ options s = (r, s') /\
    dlog s' = dlog s ++ evs /\
    dcount is_DbPrint evs = 0 /\
    match r with
    | Ret _ => True
    | Raise e => is_Exception e = false
    end.
Proof.
  unfold RinexArchive__init__, print_and_exit.
  pose proof (archive_body_contained options s) as Hc.
  pose proof (archive_body_quiet options s) as Hq.
  destruct ((Connection__init__ options (lit "archive") ;;;
             levels' <-- load_tankstruct ;;
             keys' <-- load_table (lit "keys") ;;
             networks' <-- load_table (lit "networks") ;;
             stations' <-- load_table (lit "stations") ;;
             del_object Connection__del__ ;;;
             dret {| levels := levels'; keys := keys'; networks := networks';
                     stations := stations' |}) s) as [[a|e] s1].
  - destruct (Hq _ _ eq_refl) as (evs & L & P). exists (Ret a), s1, evs. auto.
  - rewrite (Hc e s1 eq_refl). destruct (Hq _ _ eq_refl) as (evs & L & P).
    exists (Raise e), s1, evs. split; [reflexivity|]. split; [exact L|].
    split; [exact P|]. exact (Hc e s1 eq_refl).
Qed.

(** X25.  When [RinexArchive.__init__] returns, it has opened one
    connection, recorded the run in the table executions and committed
    that, read the four tables in the order rinex_tank_struct with keys,
    keys, networks, stations, each into a dictionary of columns and none of
    them committed, and closed the connection. *)
Theorem archive_init_reads_four_tables
    (options : record) (s s' : dbstate) (tables : archive_tables) :
  RinexArchive__init__ options s = (Ret tables, s') ->
  exists database hostname username password c stmt closed,
    lookup (lit "database") options = Some database /\
    lookup (lit "hostname") options = Some hostname /\
    lookup (lit "username") options = Some username /\
    lookup (lit "password") options = Some password /\
    conn s' = Some c /\
    (exists d1 d2 d3 d4,
       tables = {| levels := RDict d1; keys := RDict d2; networks := RDict d3;
                   stations := RDict d4 |}) /\
    (closed = [] \/ closed = [DbLogDebug (lit "Connection closed: " ++ db_dsn db c)]) /\
    dlog s'
    = dlog s ++ [DbLogDebug (lit "Initializing Connection object.");
                 DbConnect (dsn_of database hostname username password);
                 DbLogDebug (lit "Connection established: " ++ db_dsn db c);
                 DbCursor; DbExecute stmt (Some [of_str (lit "archive")]);
                 DbCloseCursor; DbCommit]
      ++ read_events select_tankstruct
      ++ read_events (select_all (lit "keys"))
      ++ read_events (select_all (lit "networks"))
      ++ read_events (select_all (lit "stations"))
      ++ DbClose :: closed.
Proof.
  unfold RinexArchive__init__, print_and_exit. intros H.
  destruct ((Connection__init__ options (lit "archive") ;;;
             levels' <-- load_tankstruct ;;
             keys' <-- load_table (lit "keys") ;;
             networks' <-- load_table (lit "networks") ;;
             stations' <-- load_table (lit "stations") ;;
             del_object Connection__del__ ;;;
             dret {| levels := levels'; keys := keys'; networks := networks';
                     stations := stations' |}) s) as [[a|e] s0] eqn:E;
    [|destruct (is_Exception e); discriminate].
  injection H as -> ->.
  rewrite load_tankstruct_run, !load_table_run in E.
  apply dbind_ret_inv in E as ([] & s1 & H1 & E).
  apply init_ret_inv in H1
    as (database & hostname & username & password & c & stmt & Hd & Hh & Hu & Hp & _
        & C1 & _ & L1).
  apply dbind_ret_inv in E as (r1 & s2 & H2 & E).
  apply read_ret_inv in H2 as [[C2 L2] [d1 ->]].
  apply dbind_ret_inv in E as (r2 & s3 & H3 & E).
  apply read_ret_inv in H3 as [[C3 L3] [d2 ->]].
  apply dbind_ret_inv in E as (r3 & s4 & H4 & E).
  apply read_ret_inv in H4 as [[C4 L4] [d3 ->]].
  apply dbind_ret_inv in E as (r4 & s5 & H5 & E).
  apply read_ret_inv in H5 as [[C5 L5] [d4 ->]].
  apply dbind_ret_inv in E as (u & s6 & H6 & E).
  apply dret_inv in E as [E ->]. injection E as ->.
  assert (conn s5 = Some c) as C by congruence.
  unfold del_object, Connection__del__ in H6. rewrite C in H6.
  assert (exists closed,
            conn s6 = Some c /\ dlog s6 = dlog s5 ++ DbClose :: closed /\
            (closed = [] \/
             closed = [DbLogDebug (lit "Connection closed: " ++ db_dsn db c)]))
    as (closed & C6 & L6 & Hclosed).
  { destruct ((dcall DbClose (db_close db c) ;;;
               demit (DbLogDebug (lit "Connection closed: " ++ db_dsn db c))) s5)
      as [r6 s6'] eqn:E6.
    assert (s6 = s6') as -> by congruence. clear H6.
    apply dbind_inv in E6 as [(u6 & s7 & Hc6 & Hm6)|(e & Hc6 & _)];
      apply dcall_inv in Hc6 as (_ & _ & [C7 L7]).
    - apply demit_inv in Hm6 as [_ ->]. eexists. cbn [dlogged conn dlog].
      split; [congruence|]. split; [|right; reflexivity].
      rewrite L7, <- app_assoc. reflexivity.
    - exists []. split; [congruence|]. split; [exact L7|left; reflexivity]. }
  exists database, hostname, username, password, c, stmt, closed.
  repeat (split; [assumption|]).
  split; [exists d1, d2, d3, d4; reflexivity|]. split; [exact Hclosed|].
  rewrite L6, L5, L4, L3, L2, L1. rewrite <- !app_assoc. reflexivity.
Qed.


End Connection.

(** * A database of one table, for the examples *)

(** The values are strings, none of them a [Decimal]. *)
Definition no_decimal (x : str) : bool := false.

Definition as_it_is (x : str) : str := x.

Definition decimal_text (x : str) : outcome str := Ret x.

Definition in_quotes (x : str) : str := lit "'" ++ x ++ lit "'".

Definition refused : exn := OtherException "ProgrammingError" (lit "syntax error").

(** Two stations of one network.  Every call succeeds, but that a [failing]
    database refuses every statement; the world counts the statements
    executed. *)
Definition station_db (failing : bool) : Database str nat unit unit :=
  {| db_connect := fun dsn w => (Ret tt, w);
     db_dsn := fun c => lit "dbname=gnss host=localhost";
     db_cursor := fun c w => (Ret tt, w);
     db_execute := fun curs q v w => if failing then (Raise refused, w) else (Ret tt, S w);
     db_fetchall := fun curs w => (Ret [[lit "igs"; lit "algo"]; [lit "igs"; lit "nrc1"]], w);
     db_description := fun curs w => Some [lit "NetworkCode"; lit "StationCode"];
     db_close_cursor := fun curs w => (Ret tt, w);
     db_commit := fun c w => (Ret tt, w);
     db_close := fun c w => (Ret tt, w) |}.

Definition not_connected : dbstate str nat unit :=
  {| conn := None; dworld := 0; dlog := [] |}.

Definition connected_to_stations : dbstate str nat unit :=
  {| conn := Some tt; dworld := 0; dlog := [] |}.

Definition select_stations : composable :=
  Composed [SQL (lit "SELECT * FROM "); Identifier (lit "stations")].

Definition settings : record str :=
  [(lit "database", lit "gnss"); (lit "hostname", lit "localhost");
   (lit "username", lit "gamit"); (lit "password", lit "secret")].

(** X16, witness: a table is read, and nothing is committed. *)
Lemma execute_wrapper_commits_without_retval_witness :
  exists r s',
    _execute_wrapper str no_decimal as_it_is nat unit unit (station_db false)
      select_stations None true true connected_to_stations = (Ret r, s') /\
    dlog _ _ _ s' = [DbCursor str; DbExecute str select_stations None;
                     DbFetchall str; DbCloseCursor str].
Proof.
  assert (H : exists r s',
             _execute_wrapper str no_decimal as_it_is nat unit unit (station_db false)
               select_stations None true true connected_to_stations = (Ret r, s')).
  { eexists. eexists. vm_compute. reflexivity. }
  destruct H as (r & s' & H). exists r, s'. split; [exact H|].
  destruct (execute_wrapper_commits_without_retval _ _ _ _ _ _ _ _ _ _ _ _ _ _ H)
    as (_ & L & _).
  exact L.
Defined.

(** X17, witness: the statement is refused, and the cursor is closed. *)
Lemma cursor_closed_on_every_path_witness :
  exists r s' pre post,
    _execute_wrapper str no_decimal as_it_is nat unit unit (station_db true)
      select_stations None true true connected_to_stations = (r, s') /\
    dlog _ _ _ s' = [DbCursor str; DbExecute str select_stations None]
                    ++ pre ++ [DbCloseCursor str] ++ post.
Proof.
  assert (H : exists r s',
             _execute_wrapper str no_decimal as_it_is nat unit unit (station_db true)
               select_stations None true true connected_to_stations = (r, s')).
  { eexists. eexists. reflexivity. }
  destruct H as (r & s' & H).
  destruct (cursor_closed_on_every_path str no_decimal as_it_is nat unit unit
              (station_db true) select_stations None true true connected_to_stations
              s' r tt tt eq_refl eq_refl H)
    as (_ & _ & pre & post & L & _ & _).
  exists r, s', pre, post. split; [exact H|exact L].
Defined.

(** X15, witness: the stations by column. *)
Lemma dict_holds_the_columns_witness :
  exists d,
    fill_dict str no_decimal as_it_is [lit "NetworkCode"; lit "StationCode"] 0
      [[lit "igs"; lit "algo"]; [lit "igs"; lit "nrc1"]] [] = Ret d /\
    dd_get str (KStr (lit "StationCode")) d = [lit "algo"; lit "nrc1"].
Proof.
  destruct (dict_holds_the_columns str no_decimal as_it_is
              [lit "NetworkCode"; lit "StationCode"]
              [[lit "igs"; lit "algo"]; [lit "igs"; lit "nrc1"]])
    as (d & H & _ & _ & _ & Hcol).
  { repeat constructor. }
  exists d. split; [exact H|].
  assert (NoDup [lit "NetworkCode"; lit "StationCode"]) as Hnd.
  { constructor; [intros [E|[]]; vm_compute in E; discriminate E|].
    constructor; [intros []|constructor]. }
  destruct (Hcol Hnd 1 (lit "StationCode") eq_refl) as [Hc _].
  rewrite Hc. reflexivity.
Defined.

(** X20, witness: a refused statement. *)
Lemma failed_statement_exits_witness :
  exists s',
    _execute_wrapper str no_decimal as_it_is nat unit unit (station_db true)
      select_stations None false true connected_to_stations
    = (Raise (SystemExit 1), s') /\
    dcount str (is_DbCommit str) (dlog _ _ _ s') = 0.
Proof.
  eexists. split.
  - apply (failed_statement_exits str no_decimal as_it_is nat unit unit (station_db true)
             select_stations None false true connected_to_stations tt tt refused 0 0 0);
      reflexivity.
  - reflexivity.
Defined.

(** X22, witness: settings that name the database only. *)
Lemma init_missing_setting_witness :
  exists s',
    Connection__init__ str no_decimal as_it_is as_it_is as_it_is in_quotes nat unit unit
      (station_db false) [(lit "database", lit "gnss")] (lit "archive") not_connected
    = (Raise (SystemExit 1), s') /\
    dlog _ _ _ s' = [DbLogDebug str (lit "Initializing Connection object.");
                     DbLogError str (key_error in_quotes (lit "hostname"))].
Proof.
  eexists. split.
  - apply (init_missing_setting str no_decimal as_it_is as_it_is as_it_is in_quotes
             nat unit unit (station_db false) [(lit "database", lit "gnss")]
             (lit "archive") not_connected (lit "hostname")).
    reflexivity.
  - reflexivity.
Defined.

(** X23, witness: the four settings, and a database that answers. *)
Lemma init_records_the_run_witness :
  exists s',
    Connection__init__ str no_decimal as_it_is as_it_is as_it_is in_quotes nat unit unit
      (station_db false) settings (lit "archive") not_connected = (Ret tt, s') /\
    conn _ _ _ s' = Some tt /\
    dcount str (is_DbExecute str) (dlog _ _ _ s') = 1 /\
    dcount str (is_DbCommit str) (dlog _ _ _ s') = 1.
Proof.
  assert (H : exists s',
             Connection__init__ str no_decimal as_it_is as_it_is as_it_is in_quotes
               nat unit unit (station_db false) settings (lit "archive") not_connected
             = (Ret tt, s')).
  { eexists. vm_compute. reflexivity. }
  destruct H as (s' & H). exists s'. split; [exact H|].
  destruct (init_records_the_run _ _ _ _ _ _ _ _ _ _ _ _ _ _ H)
    as (database & hostname & username & password & c & stmt & _ & _ & _ & _ & _
        & Hc & _ & L).
  destruct c. split; [exact Hc|]. rewrite L. split; reflexivity.
Defined.

(** X25, witness: the four tables of the archive are read. *)
Lemma archive_init_reads_four_tables_witness :
  exists tables s',
    RinexArchive__init__ str no_decimal as_it_is as_it_is as_it_is in_quotes nat unit unit
      (station_db false) settings not_connected = (Ret tables, s') /\
    dcount str (is_DbExecute str) (dlog _ _ _ s') = 5 /\
    dcount str (is_DbCommit str) (dlog _ _ _ s') = 1.
Proof.
  assert (H : exists tables s',
             RinexArchive__init__ str no_decimal as_it_is as_it_is as_it_is in_quotes
               nat unit unit (station_db false) settings not_connected
             = (Ret tables, s')).
  { eexists. eexists. vm_compute. reflexivity. }
  destruct H as (tables & s' & H). exists tables, s'. split; [exact H|].
  destruct (archive_init_reads_four_tables _ _ _ _ _ _ _ _ _ _ _ _ _ _ H)
    as (database & hostname & username & password & c & stmt & closed & _ & _ & _ & _
        & _ & _ & Hclosed & L).
  rewrite L. destruct Hclosed as [->| ->]; split; reflexivity.
Defined.

(** What the examples come to on this database. *)
Example print_summary_on_stations :
  fst (print_summary str no_decimal as_it_is as_it_is decimal_text nat unit unit
         (station_db false) (lit "archive") connected_to_stations)
  = Raise (index_error "list index out of range").
Proof. vm_compute. reflexivity. Qed.

Example load_table_matching_text :
  option_map as_string
    (match load_table_matching_statement str in_quotes (lit "Placeholder()")
             (lit "stations") [(lit "StationCode", lit "algo")] with
     | Ret stmt => Some stmt
     | Raise _ => None
     end)
  = Some (lit "SELECT * FROM " ++ quote_ident (lit "stations")
          ++ lit " WHERE Identifier('StationCode') LIKE Placeholder()").
Proof. vm_compute. reflexivity. Qed.
